(** * Bac7 enrichment analysis: a shallow embedding and its properties

    The development follows the Python sources
      - [src/py/data.py]        (module [data]),
      - [src/py/enrichment.py]  (module [enrichment]),
      - [paper/figure_1b.py]    (module [figure_1b]),
      - [paper/suppl_table_5.py] (module [suppl_table_5]),
      - [paper/figure_2b.py]    (module [figure_2b]),
      - [paper_tables/suppl_table_5.py] (module [paper_tables]).

    Modelling conventions.
      - Python/numpy floats are modelled by exact rationals ([Q], compared
        with [Qeq], written [==]).  The one non-finite value that the scripts
        can produce on a reachable path, numpy's [nan], is made explicit in
        the type [npfloat].
      - A pandas [Series] is the ordered list of its rows, each row a pair
        (index label, value); a [DataFrame] is an index together with the
        ordered list of its labelled columns.
      - A Python exception is the result [None] of an [option]-valued
        function.
      - Python dictionaries and the result of [value_counts] are finite
        maps ([gmap]).
      - numpy's global random generator is threaded explicitly. *)

From Stdlib Require Import ZArith QArith Qabs Lia Lqa.
From Stdlib Require Import Ascii String DecimalString DecimalNat.
From Stdlib Require OrderedTypeEx.
From stdpp Require Import base list gmap strings sorting.

Local Open Scope string_scope.
Local Open Scope list_scope.
Local Open Scope Z_scope.

(* ===================================================================== *)
(** * Part I: the model                                                   *)
(* ===================================================================== *)

(** ** numpy *)

Module np.

(** A float that may be [nan]; finite values are exact rationals. *)
Inductive npfloat : Type :=
| Fin (q : Q)
| NaN.

(** [x - y] on floats: [nan] is absorbing. *)
Definition fsub (x y : npfloat) : npfloat :=
  match x, y with
  | Fin a, Fin b => Fin (a - b)
  | _, _ => NaN
  end.

(** [np.abs(x)]. *)
Definition fabs (x : npfloat) : npfloat :=
  match x with
  | Fin a => Fin (Qabs a)
  | NaN => NaN
  end.

(** [x >= y] on floats: every comparison with [nan] is [False]. *)
Definition fge (x y : npfloat) : bool :=
  match x, y with
  | Fin a, Fin b => Qle_bool b a
  | _, _ => false
  end.

(** [np.sum]. *)
Definition sum (l : list Q) : Q := foldr Qplus 0%Q l.

(** Running sums started from the accumulator [acc]. *)
Fixpoint cumsum_from (acc : Q) (l : list Q) : list Q :=
  match l with
  | [] => []
  | x :: l' => (acc + x)%Q :: cumsum_from (acc + x)%Q l'
  end.

(** [np.cumsum]: the first entry is the first element itself. *)
Definition cumsum (l : list Q) : list Q :=
  match l with
  | [] => []
  | x :: l' => x :: cumsum_from x l'
  end.

(** [np.mean]: sum over size; [nan] on an empty array. *)
Definition mean (l : list Q) : npfloat :=
  match l with
  | [] => NaN
  | _ :: _ => Fin (sum l / inject_Z (Z.of_nat (length l)))
  end.

(** [a.argmax()] scanning from position [i], with the best value [best]
    seen so far at position [besti]: only a strictly larger entry
    replaces it, so the first maximum wins. *)
Fixpoint argmax_from (best : Q) (besti i : nat) (l : list Q) : nat :=
  match l with
  | [] => besti
  | x :: l' =>
      if Qle_bool x best
      then argmax_from best besti (S i) l'
      else argmax_from x i (S i) l'
  end.

(** [a.argmax()]: [ValueError] on an empty array. *)
Definition argmax (l : list Q) : option nat :=
  match l with
  | [] => None
  | x :: l' => Some (argmax_from x 0%nat 1%nat l')
  end.

(** A two-dimensional array: its shape [(rows, columns)] and its entries
    in row-major order (numpy's default layout), so that [a.reshape(-1)]
    is [flat a] and entry [(i, j)] is entry [i * columns + j] of it. *)
Record ndarray (A : Type) : Type := mkarray {
  shape : nat * nat;
  flat : list A
}.
Arguments mkarray {A} _ _.
Arguments shape {A} _.
Arguments flat {A} _.

(** [np.zeros((rows, cols))], with [zero] for [0.0]. *)
Definition full {A} (rows cols : nat) (zero : A) : ndarray A :=
  {| shape := (rows, cols); flat := replicate (rows * cols) zero |}.

(** [a[i, j]]. *)
Definition item {A} (a : ndarray A) (i j : nat) : option A :=
  flat a !! (i * (shape a).2 + j)%nat.

(** [a[i, j] = v], for [i] and [j] within the shape. *)
Definition set_item {A} (a : ndarray A) (i j : nat) (v : A) : ndarray A :=
  {| shape := shape a; flat := <[(i * (shape a).2 + j)%nat := v]> (flat a) |}.

End np.

(** ** Python built-ins *)

Module py.

(** [c in chars]. *)
Fixpoint contains (c : ascii) (chars : string) : bool :=
  match chars with
  | EmptyString => false
  | String c' chars' => if decide (c = c') then true else contains c chars'
  end.

(** [s.lstrip(chars)]: drop the leading characters that occur in [chars]. *)
Fixpoint lstrip (chars s : string) : string :=
  match s with
  | EmptyString => EmptyString
  | String c s' => if contains c chars then lstrip chars s' else s
  end.

(** [s.rstrip(chars)]: drop the trailing characters that occur in
    [chars]. *)
Fixpoint rstrip (chars s : string) : string :=
  match s with
  | EmptyString => EmptyString
  | String c s' =>
      match rstrip chars s' with
      | EmptyString => if contains c chars then EmptyString else String c EmptyString
      | t => String c t
      end
  end.

(** [s.strip(chars)]: both ends. *)
Definition strip (chars s : string) : string :=
  rstrip chars (lstrip chars s).

(** [str(n)] for a natural number: its decimal digits. *)
Definition str (n : nat) : string :=
  NilEmpty.string_of_uint (Nat.to_uint n).

(** [int(s)] on the fragment of non-empty strings of ASCII decimal digits
    (leading zeros allowed, as in Python).  [None] stands for [ValueError]
    and also for the literals this fragment leaves out (signs, surrounding
    blanks, underscores); wherever the result is [Some v], Python returns
    [v]. *)
Definition int (s : string) : option Z :=
  match s with
  | EmptyString => None
  | _ => (λ d, Z.of_nat (Nat.of_uint d)) <$> NilEmpty.uint_of_string s
  end.

(** [enumerate(l)]. *)
Definition enumerate {A} (l : list A) : list (nat * A) :=
  zip (seq 0 (length l)) l.

(** Insertion into a list ordered by [le]: [x] goes before the first
    element that is not below it. *)
Fixpoint insert_by {A} (le : A → A → bool) (x : A) (l : list A) : list A :=
  match l with
  | [] => [x]
  | y :: l' => if le x y then x :: l else y :: insert_by le x l'
  end.

(** [sorted(l)] for the total preorder [le].  Python's sort is stable,
    and a stable sort is determined by its input: elements are inserted
    from the last to the first, each before the elements it is not above,
    so equal elements keep their order. *)
Definition sorted {A} (le : A → A → bool) (l : list A) : list A :=
  foldr (insert_by le) [] l.

(** [for x in l: s = body(x, s)], with the state [s] of the loop threaded
    through the iterations; an exception in the body ends the loop. *)
Definition for_each {A S} (l : list A) (body : A → S → option S) (s : S)
  : option S :=
  foldl (λ acc x, acc ≫= body x) (Some s) l.

(** The order of [str]: lexicographic on code points. *)
Definition str_le (s1 s2 : string) : bool := String.leb s1 s2.

End py.

(** ** pandas *)

Module pd.

(** A Series: rows in order, each an index label with its value. *)
Abbreviation Series A := (list (Z * A)).

(** [s.values]. *)
Definition values {A} (s : Series A) : list A := s.*2.

(** [s.index]. *)
Definition index {A} (s : Series A) : list Z := s.*1.

(** [s.value_counts()]: for every value that occurs, how often it does.
    (The order in which pandas lists the counts is not used by the
    callers, which only test membership and look a label up.) *)
Definition value_counts (s : Series string) : gmap string Z :=
  foldr (λ v counts, <[v := default 0 (counts !! v) + 1]> counts)
        ∅ (values s).

(** [s.drop(axis=0, index=labels)]: [KeyError] when a label of [labels]
    is not in the index, otherwise all rows carrying one of the labels
    are removed. *)
Definition drop_rows {A} (labels : list Z) (s : Series A) : option (Series A) :=
  if bool_decide (Forall (λ x, x ∈ index s) labels)
  then Some (filter (λ row, row.1 ∉ labels) s)
  else None.

(** A DataFrame: the row labels and the labelled columns, in order; every
    column has one cell per row label. *)
Record DataFrame : Type := mkDataFrame {
  df_index : list Z;
  df_columns : list (string * list string)
}.

(** [df.columns]. *)
Definition columns (df : DataFrame) : list string := (df_columns df).*1.

(** First binding of [k] in an association list. *)
Fixpoint assoc {A} (k : string) (l : list (string * A)) : option A :=
  match l with
  | [] => None
  | (k', v) :: l' => if decide (k = k') then Some v else assoc k l'
  end.

(** Rebind [k] where it is bound, else bind it at the end. *)
Fixpoint assoc_set {A} (k : string) (v : A) (l : list (string * A))
  : list (string * A) :=
  match l with
  | [] => [(k, v)]
  | (k', v') :: l' =>
      if decide (k = k') then (k, v) :: l' else (k', v') :: assoc_set k v l'
  end.

(** [df[column]]: the column as a Series over the frame's index;
    [KeyError] when there is no such column.  (Column labels of the frames
    built by [data.load] are pairwise distinct.) *)
Definition getitem (df : DataFrame) (column : string) : option (Series string) :=
  cells ← assoc column (df_columns df);
  Some (zip (df_index df) cells).

(** [df[column] = cells]: overwrite the column, or add it as the last one. *)
Definition setitem (df : DataFrame) (column : string) (cells : list string)
  : DataFrame :=
  {| df_index := df_index df;
     df_columns := assoc_set column cells (df_columns df) |}.

(** [df.drop(column, axis=1)]: [KeyError] when there is no such column. *)
Definition drop_column (column : string) (df : DataFrame) : option DataFrame :=
  if decide (column ∈ columns df)
  then Some {| df_index := df_index df;
               df_columns := filter (λ c, c.1 ≠ column) (df_columns df) |}
  else None.

(** Boolean-mask selection of the entries of [l]. *)
Definition select {A} (mask : list bool) (l : list A) : list A :=
  (filter (λ p, p.1 = true) (zip mask l)).*2.

(** [df.loc[mask]]: the rows at which [mask] holds. *)
Definition loc (df : DataFrame) (mask : list bool) : DataFrame :=
  {| df_index := select mask (df_index df);
     df_columns := (λ c, (c.1, select mask c.2)) <$> df_columns df |}.

(** Row [r] of the frame, left to right. *)
Definition row (df : DataFrame) (r : nat) : list string :=
  omap (λ c, c.2 !! r) (df_columns df).

(** [df.values.flatten()]: all cells, row by row. *)
Definition flatten_values (df : DataFrame) : list string :=
  flat_map (row df) (seq 0 (length (df_index df))).

End pd.

(** ** data.py *)

Module data.
Import py pd.

(** The label of the column for the 0-based position [p]:
    [f'Pos0{p+1}'] if [p < 10], else [f'Pos{p+1}']. *)
Definition pos_label (p : nat) : string :=
  if decide (p < 10)%nat then "Pos0" +:+ str (p + 1) else "Pos" +:+ str (p + 1).

(** [df['Sequence'].apply(lambda x: x[p])]: the character at offset [p] of
    every sequence, as a one-character string; [KeyError] without a
    [Sequence] column, [IndexError] when a sequence is too short. *)
Definition sequence_at (df : DataFrame) (p : nat) : option (list string) :=
  sequences ← getitem df "Sequence";
  mapM (λ x, (λ c, String c EmptyString) <$> String.get p x) (values sequences).

(** [load(file, positions)], from the frame [raw] that
    [pd.read_csv(file, index_col=0)] returns; [positions] are 0-based
    offsets. *)
Definition load (raw : DataFrame) (positions : list nat) : option DataFrame :=
  df ← for_each positions
         (λ p df, cells ← sequence_at df p;
                  Some (setitem df (pos_label p) cells))
         raw;
  df ← drop_column "Sequence" df;
  df ← drop_column "shrunken.log2.fold.change" df;
  drop_column "ID" df.

(** [aa_from_df(df)]: [sorted(list(set(df.values.flatten())))]. *)
Definition aa_from_df (df : DataFrame) : list string :=
  sorted str_le (remove_dups (flatten_values df)).

End data.

(** ** enrichment.py *)

Module enrichment.
Import np py pd.

(** [int(column.strip('Pos'))]. *)
Definition col_value (column : string) : option Z :=
  int (strip "Pos" column).

(** [remove_peptides_with_stopcodon(df, column, sc_index, sc_col)].
    [df[column]] is taken as a Series of its own: dropping rows from it
    in place leaves [df] as it is (pandas gives up its cached reference
    to a column whose length changes), so that a later [df[column]] is the
    whole column again. *)
Definition remove_peptides_with_stopcodon
    (df : DataFrame) (column : string) (sc_index sc_col : list Z)
  : option (Series string) :=
  data ← getitem df column;
  col_value ← col_value column;
  let row_remove := (filter (λ xy, col_value > xy.2) (zip sc_index sc_col)).*1 in
  if decide (0 < length row_remove)%nat
  then drop_rows row_remove data
  else Some data.

(** [enrichment_curves(df, acid)].  When every row matches ([n = m])
    numpy evaluates [-1 / (n - m)] to [-inf] with a warning, and the
    value is assigned to no row; in [Q] the quotient is [0] and is
    likewise assigned to no row. *)
Definition enrichment_curves (df : Series string) (acid : string) : list Q :=
  let n := Z.of_nat (length df) in
  let counts := value_counts df in
  match counts !! acid with
  | None => []
  | Some m =>
      let mask := (λ v, bool_decide (v = acid)) <$> values df in
      let lo := (- 1 / inject_Z (n - m))%Q in
      let hi := (1 / inject_Z m)%Q in
      cumsum ((λ b : bool, if b then hi else lo) <$> mask)
  end.

(** [enrichment_score(curve)]: [curve[np.abs(curve).argmax()]];
    [ValueError] on an empty curve. *)
Definition enrichment_score (curve : list Q) : option Q :=
  i ← argmax (Qabs <$> curve);
  curve !! i.

(** Modelled from the spec: [enrichment.enrichment_auc], which the scripts
    call on the observed curve and which [enrichment.py] does not define.
    It is the mean-mode reducer of the specification: the arithmetic mean
    of all curve entries, with the "absent" result ([nan], as [np.mean]
    gives it) on an empty curve. *)
Definition enrichment_auc (curve : list Q) : npfloat := mean curve.

(** [twosided_pvalue(obs, null)]. *)
Definition twosided_pvalue (obs : npfloat) (null : list npfloat) : Q :=
  if decide (length null = 0)%nat then 1%Q
  else
    let n_perm := length null in
    let numerator := length (filter (λ x, fge (fabs x) (fabs obs) = true) null) in
    (inject_Z (Z.of_nat numerator) / inject_Z (Z.of_nat n_perm))%Q.

(** [benjamini_hochberg(pvalues, alpha)]: the pair [(is_sig, qvals_arr)].
    The indices written by [qvals_arr[sort_idx] = ...] are those of
    [range(size)], so each of them is in range. *)
Definition benjamini_hochberg (pvalues : list Q) (alpha : Q)
  : list bool * list Q :=
  let size := length pvalues in
  let key := λ x : nat, default 0%Q (pvalues !! x) in
  let sort_idx := sorted (λ x y, Qle_bool (key x) (key y)) (seq 0 size) in
  let qvals_arr := replicate size 1%Q in
  let arange := (λ k : nat, (inject_Z (Z.of_nat k) / inject_Z (Z.of_nat size))%Q)
                  <$> seq 1 size in
  let qvals_arr := foldl (λ q iv, <[iv.1 := iv.2]> q) qvals_arr
                         (zip sort_idx arange) in
  let qvals_arr := (λ q, (q * alpha)%Q) <$> qvals_arr in
  let is_sig := zip_with Qle_bool pvalues qvals_arr in
  (is_sig, qvals_arr).

(** [fdr_correction(pvalues, alpha)] on a two-dimensional array. *)
Definition fdr_correction (pvalues : ndarray Q) (alpha : Q) : ndarray bool :=
  let '(n_rows, n_cols) := shape pvalues in
  let flat_pvals := flat pvalues in
  let '(significant, q_vals) := benjamini_hochberg flat_pvals alpha in
  {| shape := (n_rows, n_cols); flat := significant |}.

(** What [enrichment_scores_null] returns: a list of scores, or Python's
    [None] (after an invalid mode). *)
Inductive null_values : Type :=
| Scores (l : list npfloat)
| PyNone.

(** [null_values.append(x)]: [AttributeError] on [None]. *)
Definition append (nv : null_values) (x : npfloat) : option null_values :=
  match nv with
  | Scores l => Some (Scores (l ++ [x]))
  | PyNone => None
  end.

Section random.

Context {rng : Type}.

(** [np.random.permutation(a)], from the state [g] of numpy's global
    generator: the shuffled copy and the generator's next state. *)
Variable permutation : rng → list Q → list Q * rng.

(** The loop [for x in range(n_perm)] of [enrichment_scores_null]; each
    trial shuffles the array left by the previous one. *)
Fixpoint null_loop (n_perm : nat) (mode : string) (curve : list Q)
    (nv : null_values) (g : rng) : option (null_values * rng) :=
  match n_perm with
  | O => Some (nv, g)
  | S n_perm' =>
      let '(curve, g) := permutation g curve in
      let tmp_ := cumsum curve in
      if decide (mode = "auc") then
        nv ← append nv (mean tmp_);
        null_loop n_perm' mode curve nv g
      else if decide (mode = "max") then
        score ← enrichment_score tmp_;
        nv ← append nv (Fin score);
        null_loop n_perm' mode curve nv g
      else
        null_loop n_perm' mode curve PyNone g
  end.

(** [enrichment_scores_null(df, acid, n_perm, mode)]. *)
Definition enrichment_scores_null (g : rng) (df : Series string)
    (acid : string) (n_perm : nat) (mode : string)
  : option (null_values * rng) :=
  let n := Z.of_nat (length df) in
  let counts := value_counts df in
  match counts !! acid with
  | None => Some (Scores [], g)
  | Some m =>
      let mask := (λ v, bool_decide (v = acid)) <$> values df in
      let lo := (- 1 / inject_Z (n - m))%Q in
      let hi := (1 / inject_Z m)%Q in
      let curve := (λ b : bool, if b then hi else lo) <$> mask in
      null_loop n_perm mode curve (Scores []) g
  end.

End random.


End enrichment.

(** ** paper/figure_1b.py *)

Module figure_1b.
Import np py pd data enrichment.

(** The arrays of [out_dict] that the p-values depend on.  (The
    ['zscore'] array needs [np.std], a square root, which has no
    counterpart in [Q]; nothing else reads it.) *)
Record out_dict : Type := mkout {
  auc : ndarray npfloat;
  pval_raw : ndarray Q;
  counts : ndarray Z
}.

(** The variables that the double loop of [main] updates. *)
Record state (rng : Type) : Type := mkstate {
  gen : rng;
  out : out_dict;
  perm_aucs : list (string * string * npfloat * list npfloat);
  curves : list (string * string * list Q)
}.
Arguments mkstate {rng} _ _ _ _.
Arguments gen {rng} _.
Arguments out {rng} _.
Arguments perm_aucs {rng} _.
Arguments curves {rng} _.

(** [n_perm = 10]. *)
Definition n_perm : nat := 10.

(** [np.where(data_df.isin(["*"]).values == 1)]: the (row, column)
    offsets of the stop codons, row by row. *)
Definition where_stop (df : DataFrame) : list (nat * nat) :=
  flat_map (λ r, omap (λ ic : nat * string,
                         if decide (ic.2 = "*") then Some (r, ic.1) else None)
                      (enumerate (row df r)))
           (seq 0 (length (df_index df))).

(** [sc_index = [x + 1 for x in sc_index_raw]]. *)
Definition sc_index (df : DataFrame) : list Z :=
  (λ x : nat, Z.of_nat x + 1) <$> (where_stop df).*1.

(** [sc_pos = [x + 1 for x in sc_pos_raw]]. *)
Definition sc_pos (df : DataFrame) : list Z :=
  (λ x : nat, Z.of_nat x + 1) <$> (where_stop df).*2.

Section main.

Context {rng : Type}.
Variable permutation : rng → list Q → list Q * rng.

(** The body of the double loop, for the acid [aa] (column [a_idx] of the
    arrays) and the position [pos] (row [p_idx]). *)
Definition cell (data_df : DataFrame) (sc_index sc_pos : list Z)
    (a_idx : nat) (aa : string) (p_idx : nat) (pos : string)
    (st : state rng) : option (state rng) :=
  df ← remove_peptides_with_stopcodon data_df pos sc_index sc_pos;
  let n_occurrences := length (filter (λ row, row.2 = aa) df) in
  let counts' := set_item (counts (out st)) p_idx a_idx (Z.of_nat n_occurrences) in
  if decide (n_occurrences = 0)%nat then
    Some (mkstate (gen st)
                  (mkout (auc (out st)) (pval_raw (out st)) counts')
                  (perm_aucs st) (curves st))
  else
    let curve_ := enrichment_curves df aa in
    let curves' := curves st ++ [(aa, pos, curve_)] in
    let auc_obs := enrichment_auc curve_ in
    '(null, g) ← enrichment_scores_null permutation (gen st) df aa n_perm "auc";
    match null with
    | PyNone => None
    | Scores auc_null =>
        let perm_aucs' := perm_aucs st ++ [(aa, pos, auc_obs, auc_null)] in
        let auc_pvalue := twosided_pvalue auc_obs auc_null in
        Some (mkstate g
                      (mkout (set_item (auc (out st)) p_idx a_idx auc_obs)
                             (set_item (pval_raw (out st)) p_idx a_idx auc_pvalue)
                             counts')
                      perm_aucs' curves')
    end.

(** [main], from the loaded frame on: the final loop state and the array
    [out_dict['pval_fdr']]. *)
Definition analyse (data_df : DataFrame) (g : rng)
  : option (state rng * ndarray bool) :=
  let positions := columns data_df in
  let acids := aa_from_df data_df in
  let sc_index := sc_index data_df in
  let sc_pos := sc_pos data_df in
  let zeros {A} (z : A) := full (length positions) (length acids) z in
  let st := mkstate g (mkout (zeros (Fin 0)) (zeros 0%Q) (zeros 0)) [] [] in
  st ← for_each (enumerate acids)
         (λ a, for_each (enumerate positions)
                 (λ p, cell data_df sc_index sc_pos a.1 a.2 p.1 p.2))
         st;
  Some (st, fdr_correction (pval_raw (out st)) (1 # 10)).

(** [main]: [data.load] with its default positions [range(23)], then the
    analysis. *)
Definition main (raw : DataFrame) (g : rng) : option (state rng * ndarray bool) :=
  data_df ← load raw (seq 0 23);
  analyse data_df g.

End main.

End figure_1b.

(** ** paper/suppl_table_5.py *)

Module suppl_table_5.
Import np py pd data enrichment.

(** One row of the interaction table: the dictionary appended to
    [interactions], with its keys ['AA1'], ['Position 1'], ['AUC_AA1'],
    ['AA2'], ['Position 2'], ['AUC_AA1 | AA2'] and ['Delta AUC']. *)
Record interaction : Type := mkinteraction {
  AA1 : string;
  Position_1 : string;
  AUC_AA1 : npfloat;
  AA2 : string;
  Position_2 : string;
  AUC_AA1_given_AA2 : npfloat;
  Delta_AUC : npfloat
}.

(** [sorted(d)] for a dictionary with string keys. *)
Definition sorted_keys {V} (d : gmap string V) : list string :=
  sorted str_le (map_to_list d).*1.

(** [d[k1][k2]]: [KeyError] when a key is missing. *)
Definition lookup2 (d : gmap string (gmap string npfloat)) (k1 k2 : string)
  : option npfloat :=
  inner ← d !! k1;
  inner !! k2.

(** The score of one position/acid pair in [get_all_scores];
    [NotImplementedError] for an unknown mode. *)
Definition score (column : Series string) (a mode : string) : option npfloat :=
  let scores_ := enrichment_curves column a in
  if decide (mode = "max") then Fin <$> enrichment_score scores_
  else if decide (mode = "auc") then Some (enrichment_auc scores_)
  else None.

(** [get_all_scores(df, mode)]. *)
Definition get_all_scores (df : DataFrame) (mode : string)
  : option (gmap string (gmap string npfloat)) :=
  let aa := aa_from_df df in
  for_each (columns df)
    (λ position scores,
       let scores := <[position := ∅]> scores in
       for_each aa
         (λ a scores,
            column ← getitem df position;
            v ← score column a mode;
            Some (alter (λ inner, <[a := v]> inner) position scores))
         scores)
    ∅.

(** [df.loc[df[position1] == acid1].drop(position1, axis=1)]. *)
Definition condition_on (df : DataFrame) (position1 acid1 : string)
  : option DataFrame :=
  column ← getitem df position1;
  let df_filtered := loc df ((λ v, bool_decide (v = acid1)) <$> values column) in
  drop_column position1 df_filtered.

(** The body of the two inner loops: one record for [(position2, acid2)]. *)
Definition emit (original_scores filtered_scores : gmap string (gmap string npfloat))
    (position1 acid1 position2 acid2 : string)
    (interactions : list interaction) : option (list interaction) :=
  score2 ← lookup2 filtered_scores position2 acid2;
  original ← lookup2 original_scores position2 acid2;
  let delta := fsub score2 original in
  Some (interactions ++
        [mkinteraction acid2 position2 original acid1 position1 score2 delta]).

(** [main], from the loaded frame to the list [interactions] (the rows of
    [df_out] before they are ordered by ['Delta AUC']). *)
Definition scan (df : DataFrame) (mode : string) : option (list interaction) :=
  original_scores ← get_all_scores df mode;
  for_each (sorted_keys original_scores)
    (λ position1 interactions,
       inner ← original_scores !! position1;
       for_each (sorted_keys inner)
         (λ acid1 interactions,
            df_filtered ← condition_on df position1 acid1;
            filtered_scores ← get_all_scores df_filtered mode;
            for_each (sorted_keys filtered_scores)
              (λ position2 interactions,
                 inner2 ← filtered_scores !! position2;
                 for_each (sorted_keys inner2)
                   (λ acid2, emit original_scores filtered_scores
                                  position1 acid1 position2 acid2)
                   interactions)
              interactions)
         interactions)
    [].

(** [main]: [mode = 'auc'], and [data.load] at the positions
    [4, 17, 18, 19]. *)
Definition main (raw : DataFrame) : option (list interaction) :=
  df ← load raw [4; 17; 18; 19]%nat;
  scan df "auc".

End suppl_table_5.

(** ** paper/figure_2b.py *)

Module figure_2b.
Import np py pd data enrichment.

(** The double loop of [main], from the loaded frame to the array
    [array_auc]: no peptide is removed here, the curve is computed on the
    whole column [data_df[pos]]. *)
Definition fill (data_df : DataFrame) : option (ndarray npfloat) :=
  let positions := columns data_df in
  let acids := aa_from_df data_df in
  for_each (enumerate acids)
    (λ a, for_each (enumerate positions)
            (λ p array_auc,
               df ← getitem data_df p.2;
               let curve_ := enrichment_curves df a.2 in
               Some (set_item array_auc p.1 a.1 (enrichment_auc curve_))))
    (full (length positions) (length acids) (Fin 0)).

(** [main]: [data.load] at the positions [4, 17, 18, 19], then the loop. *)
Definition main (raw : DataFrame) : option (ndarray npfloat) :=
  data_df ← load raw [4; 17; 18; 19]%nat;
  fill data_df.

End figure_2b.

(** ** paper_tables/suppl_table_5.py *)

Module paper_tables.
Import np py pd data enrichment.

(** One row of the table of this older script: the dictionary appended to
    [interactions], with its keys ['acid1'], ['pos1'], ['score1'],
    ['acid2'], ['pos2'], ['score2'] and ['delta']. *)
Record interaction : Type := mkinteraction {
  acid1 : string;
  pos1 : string;
  score1 : npfloat;
  acid2 : string;
  pos2 : string;
  score2 : npfloat;
  delta : npfloat
}.

(** The body of the two inner loops. *)
Definition emit (original_scores filtered_scores : gmap string (gmap string npfloat))
    (position1 acid1 : string) (score1 : npfloat) (position2 acid2 : string)
    (interactions : list interaction) : option (list interaction) :=
  score2 ← suppl_table_5.lookup2 filtered_scores position2 acid2;
  original ← suppl_table_5.lookup2 original_scores position2 acid2;
  let delta := fsub score2 original in
  Some (interactions ++
        [mkinteraction acid1 position1 score1 acid2 position2 score2 delta]).

(** [main], from the loaded frame to the list [interactions], which is
    written out as it is.  [get_all_scores] is, line by line, the function
    of [paper/suppl_table_5.py]. *)
Definition scan (df : DataFrame) (mode : string) : option (list interaction) :=
  original_scores ← suppl_table_5.get_all_scores df mode;
  for_each (suppl_table_5.sorted_keys original_scores)
    (λ position1 interactions,
       inner ← original_scores !! position1;
       for_each (suppl_table_5.sorted_keys inner)
         (λ acid1 interactions,
            score1 ← suppl_table_5.lookup2 original_scores position1 acid1;
            df_filtered ← suppl_table_5.condition_on df position1 acid1;
            filtered_scores ← suppl_table_5.get_all_scores df_filtered mode;
            for_each (suppl_table_5.sorted_keys filtered_scores)
              (λ position2 interactions,
                 inner2 ← filtered_scores !! position2;
                 for_each (suppl_table_5.sorted_keys inner2)
                   (λ acid2, emit original_scores filtered_scores
                                  position1 acid1 score1 position2 acid2)
                   interactions)
              interactions)
         interactions)
    [].

(** [main]: [mode = 'auc'], and [data.load] at the positions
    [4, 17, 18, 19]. *)
Definition main (raw : DataFrame) : option (list interaction) :=
  df ← load raw [4; 17; 18; 19]%nat;
  scan df "auc".

End paper_tables.

(* ===================================================================== *)
(** * Part II: specification vocabulary                                *)
(* ===================================================================== *)

Import np py pd data enrichment figure_1b suppl_table_5.

(** How often [acid] occurs in the column: the [m] of the specification. *)
Definition occurrences (acid : string) (df : Series string) : nat :=
  length (filter (λ row, row.2 = acid) df).

(** The per-row increment of the specification, for a column of [n] rows
    of which [m] carry the target label. *)
Definition increment (n m : nat) (acid label : string) : Q :=
  if decide (label = acid)
  then (1 / inject_Z (Z.of_nat m))%Q
  else (- 1 / inject_Z (Z.of_nat n - Z.of_nat m))%Q.

#[local] Instance Qle_decision (x y : Q) : Decision (x <= y)%Q.
Proof.
  destruct (Qle_bool x y) eqn:E.
  - left. by apply Qle_bool_iff.
  - right. intros H. apply Qle_bool_iff in H. congruence.
Defined.

(** The row labelled [label] has, among the pairs (row, stop-codon
    position), a stop codon strictly before position [v]. *)
Definition stop_before (pairs : list (Z * Z)) (v label : Z) : Prop :=
  Exists (λ xy, xy.1 = label ∧ xy.2 < v) pairs.

#[local] Instance stop_before_dec pairs v label : Decision (stop_before pairs v label).
Proof. unfold stop_before. apply _. Defined.

(** A score [s] is the reduction, in mode [mode], of the running sums of
    some rearrangement of [base]. *)
Definition null_score (mode : string) (base : list Q) (s : npfloat) : Prop :=
  ∃ p, p ≡ₚ base ∧
       (mode = "auc" → s = mean (cumsum p)) ∧
       (mode = "max" → Some s = Fin <$> enrichment_score (cumsum p)).

#[local] Instance Qlt_decision (x y : Q) : Decision (x < y)%Q.
Proof.
  destruct (Qlt_le_dec x y) as [H|H]; [by left|right]. by apply Qle_not_lt.
Defined.

#[local] Instance Qeq_decision (x y : Q) : Decision (x == y)%Q := Qeq_dec x y.

(** [pvals_arr[x]]. *)
Definition pvalue_at (p : list Q) (x : nat) : Q := default 0%Q (p !! x).

(** Test [j] comes before test [i] in the ascending order of p-values,
    equal p-values being kept in their original order. *)
Definition before (p : list Q) (j i : nat) : Prop :=
  (pvalue_at p j < pvalue_at p i)%Q
  ∨ ((pvalue_at p j == pvalue_at p i)%Q ∧ (j < i)%nat).

#[local] Instance before_dec p j i : Decision (before p j i).
Proof. unfold before. apply _. Defined.

(** The 1-indexed rank of test [i]: one more than the number of tests that
    come before it. *)
Definition rank (p : list Q) (i : nat) : nat :=
  S (length (filter (λ j, before p j i) (seq 0 (length p)))).

(** The list [sort_idx] of [benjamini_hochberg]. *)
Definition sort_idx (p : list Q) : list nat :=
  py.sorted (λ x y, Qle_bool (pvalue_at p x) (pvalue_at p y)) (seq 0 (length p)).

(** A frame as the figure_1b script expects it: the rows are labelled
    [1, 2, ...] in order, every column has one cell per row, and every
    column label carries a number. *)
Definition ranked_frame (df : DataFrame) : Prop :=
  df_index df = (λ r : nat, Z.of_nat r + 1) <$> seq 0 (length (df_index df)) ∧
  Forall (λ c : string * list string, length c.2 = length (df_index df))
         (df_columns df) ∧
  Forall (λ c, is_Some (col_value c)) (columns df).

(** The loop invariant for the cell [(p_idx, a_idx)]: the array keeps
    its width, and the raw p-value of the cell is still the initial [0]. *)
Definition untouched {rng} (data_df : DataFrame) (p_idx a_idx : nat)
    (st : state rng) : Prop :=
  (shape (pval_raw (out st))).2 = length (aa_from_df data_df) ∧
  item (pval_raw (out st)) p_idx a_idx = Some 0%Q.

(** What a score table holds: its keys are columns of the frame, and the
    entry for a position and an acid is the score of that acid on that
    column. *)
Definition scores_of (df : DataFrame) (mode : string)
    (scores : gmap string (gmap string npfloat)) : Prop :=
  ∀ position inner, scores !! position = Some inner →
    position ∈ columns df ∧
    ∀ a v, inner !! a = Some v →
      a ∈ aa_from_df df ∧
      ∃ column, getitem df position = Some column ∧ score column a mode = Some v.

(** What every emitted record satisfies, for the table [original_scores]
    of the whole frame. *)
Definition conditional_record (df : DataFrame) (mode : string)
    (original_scores : gmap string (gmap string npfloat)) (r : interaction)
  : Prop :=
  ∃ df_filtered filtered_scores,
    condition_on df (Position_2 r) (AA2 r) = Some df_filtered ∧
    get_all_scores df_filtered mode = Some filtered_scores ∧
    lookup2 filtered_scores (Position_1 r) (AA1 r) = Some (AUC_AA1_given_AA2 r) ∧
    lookup2 original_scores (Position_1 r) (AA1 r) = Some (AUC_AA1 r) ∧
    Delta_AUC r = fsub (AUC_AA1_given_AA2 r) (AUC_AA1 r).

(** No character of [s] occurs in [chars]. *)
Fixpoint avoids (chars s : string) : Prop :=
  match s with
  | EmptyString => True
  | String c s' => py.contains c chars = false ∧ avoids chars s'
  end.






(** The three columns that [data.load] drops. *)
Definition dropped : list string :=
  ["Sequence"; "shrunken.log2.fold.change"; "ID"].

(** Strictly before, in the order of [str]. *)
Definition str_lt (s1 s2 : string) : Prop := str_le s1 s2 = true ∧ s1 ≠ s2.

(** A raw table as the scripts read it: the peptides are labelled
    [1, 2, ...] in rank order, the columns are the three that [load]
    drops, every column has one cell per peptide, and every sequence has
    at least [len] residues. *)
Definition raw_ranked (len : nat) (raw : DataFrame) : Prop :=
  df_index raw = (λ r : nat, Z.of_nat r + 1) <$> seq 0 (length (df_index raw)) ∧
  columns raw ≡ₚ dropped ∧
  Forall (λ c : string * list string, length c.2 = length (df_index raw))
         (df_columns raw) ∧
  Forall (λ c : string * list string,
            c.1 = "Sequence" → Forall (λ x, (len ≤ String.length x)%nat) c.2)
         (df_columns raw).

(** The arrays of figure_1b have one row per position and one column per
    acid. *)
Definition arrays_shaped {rng} (data_df : DataFrame) (st : state rng) : Prop :=
  let dims := (length (columns data_df), length (aa_from_df data_df)) in
  let size := (length (columns data_df) * length (aa_from_df data_df))%nat in
  (shape (counts (out st)) = dims ∧ length (flat (counts (out st))) = size) ∧
  (shape (auc (out st)) = dims ∧ length (flat (auc (out st))) = size) ∧
  (shape (pval_raw (out st)) = dims ∧ length (flat (pval_raw (out st))) = size).

(** What figure_1b stores for the position at row [p_idx] and the acid at
    column [a_idx]: the number of occurrences of the acid among the
    peptides left by the stop-codon filter and, when there is one, the
    score of its enrichment curve. *)
Definition cell_done {rng} (data_df : DataFrame) (p_idx a_idx : nat)
    (st : state rng) : Prop :=
  ∀ pos aa col,
    columns data_df !! p_idx = Some pos →
    aa_from_df data_df !! a_idx = Some aa →
    remove_peptides_with_stopcodon data_df pos (sc_index data_df) (sc_pos data_df)
      = Some col →
    item (counts (out st)) p_idx a_idx = Some (Z.of_nat (occurrences aa col)) ∧
    item (auc (out st)) p_idx a_idx
    = Some (if decide (occurrences aa col = 0%nat) then Fin 0
            else enrichment_auc (enrichment_curves col aa)).

(** The cells that hold no score yet hold the initial [0]. *)
Definition cell_fresh {rng} (data_df : DataFrame) (p_idx a_idx : nat)
    (st : state rng) : Prop :=
  ∀ pos aa col,
    columns data_df !! p_idx = Some pos →
    aa_from_df data_df !! a_idx = Some aa →
    remove_peptides_with_stopcodon data_df pos (sc_index data_df) (sc_pos data_df)
      = Some col →
    occurrences aa col = 0%nat →
    item (auc (out st)) p_idx a_idx = Some (Fin 0).

(** The state of the figure_1b loop once the cells in [D] are handled. *)
Definition cells_done {rng} (data_df : DataFrame) (D : nat → nat → Prop)
    (st : state rng) : Prop :=
  arrays_shaped data_df st ∧
  (∀ p a, cell_fresh data_df p a st) ∧
  (∀ p a, D p a → cell_done data_df p a st).

(** A p-value over [trials] permutations: [k / trials] for some [k] from
    [0] to [trials]. *)
Definition pvalue_step (trials : nat) (p : Q) : Prop :=
  ∃ k : nat, (k ≤ trials)%nat ∧
             (p == inject_Z (Z.of_nat k) / inject_Z (Z.of_nat trials))%Q.


(** A record of [paper/suppl_table_5.py] and a record of the older
    [paper_tables/suppl_table_5.py] that tell the same: the same
    conditioning pair, the same re-tested pair, the same conditioned score
    and the same delta; the older record carries the original score of
    the conditioning pair, the newer one that of the re-tested pair. *)
Definition same_interaction (original_scores : gmap string (gmap string npfloat))
    (r : interaction) (r' : paper_tables.interaction) : Prop :=
  AA2 r = paper_tables.acid1 r' ∧ Position_2 r = paper_tables.pos1 r' ∧
  AA1 r = paper_tables.acid2 r' ∧ Position_1 r = paper_tables.pos2 r' ∧
  AUC_AA1_given_AA2 r = paper_tables.score2 r' ∧
  Delta_AUC r = paper_tables.delta r' ∧
  lookup2 original_scores (Position_1 r) (AA1 r) = Some (AUC_AA1 r) ∧
  lookup2 original_scores (paper_tables.pos1 r') (paper_tables.acid1 r')
  = Some (paper_tables.score1 r').

(** What the figure_1b loop keeps about its p-values and its stored
    lines: the p-values come in steps of [1 / n_perm], every stored line
    has [n_perm] null scores, and there is one stored curve per line. *)
Definition pvalues_stepped {rng} (st : state rng) : Prop :=
  Forall (pvalue_step n_perm) (flat (pval_raw (out st))) ∧
  Forall (λ line : string * string * npfloat * list npfloat,
            length line.2 = n_perm) (perm_aucs st) ∧
  length (curves st) = length (perm_aucs st).

(** ** Sample inputs *)

(** The column [A, A, B, B, B] (labels 1 to 5) of the specification's toy
    table. *)
Definition toy_column : Series string :=
  [(1, "A"); (2, "A"); (3, "B"); (4, "B"); (5, "B")].

(** A table with positions 5 and 6 whose row 3 has a stop codon at
    position 5. *)
Definition stop_table : DataFrame :=
  {| df_index := [1; 2; 3; 4];
     df_columns := [("Pos05", ["A"; "C"; "*"; "D"]);
                    ("Pos06", ["E"; "F"; "G"; "H"])] |}.

(** A deterministic stand-in for the generator: it reverses the array and
    counts the calls. *)
Definition reversing (g : nat) (a : list Q) : list Q * nat := (reverse a, S g).

(** A small frame with a stop codon at row 2 of the first position: the
    acid [D] occurs at the second position only in that row. *)
Definition stop_frame : DataFrame :=
  {| df_index := [1; 2; 3];
     df_columns := [("Pos01", ["A"; "*"; "B"]); ("Pos02", ["C"; "D"; "A"])] |}.

(** A frame with two positions and four ranked peptides. *)
Definition pair_frame : DataFrame :=
  {| df_index := [1; 2; 3; 4];
     df_columns := [("Pos05", ["A"; "A"; "B"; "B"]);
                    ("Pos18", ["C"; "D"; "C"; "D"])] |}.

(** The records emitted for [pair_frame] in mode ['auc']. *)
Definition pair_interactions : list interaction :=
  default [] (scan pair_frame "auc").

(** A raw table of two peptides. *)
Definition raw_table : DataFrame :=
  {| df_index := [1; 2];
     df_columns := [("Sequence", ["ABCDEFGHIJKL"; "MNOPQRSTUVWX"]);
                    ("shrunken.log2.fold.change", ["1.5"; "0.5"]);
                    ("ID", ["p1"; "p2"])] |}.

(** A raw table of three ranked peptides of 23 residues; the second has a
    stop codon at its tenth residue. *)
Definition raw_peptides : DataFrame :=
  {| df_index := [1; 2; 3];
     df_columns := [("Sequence", ["ABCDEFGHIJKLMNOPQRSTUVW";
                                  "ABCDEFGHI*KLMNOPQRSTUVW";
                                  "BBCDEFGHIJKLMNOPQRSTUVW"]);
                    ("shrunken.log2.fold.change", ["1.0"; "0.5"; "0.1"]);
                    ("ID", ["x"; "y"; "z"])] |}.

(* ===================================================================== *)
(** * Part III: properties                                              *)
(* ===================================================================== *)

(** ** Running sums *)

Lemma cumsum_from_length acc l : length (cumsum_from acc l) = length l.
Proof. revert acc; induction l as [|x l IH]; intros acc; simpl; auto. Qed.

Lemma cumsum_length l : length (cumsum l) = length l.
Proof. destruct l; simpl; auto using cumsum_from_length. Qed.

Lemma cumsum_from_lookup acc l k c :
  cumsum_from acc l !! k = Some c → (c == acc + sum (take (S k) l))%Q.
Proof.
  revert acc k. induction l as [|x l IH]; intros acc k; [done|].
  destruct k as [|k]; simpl.
  - intros [= <-]. destruct l; simpl; ring.
  - intros Hk. apply IH in Hk. rewrite Hk. simpl. ring.
Qed.

Lemma cumsum_lookup l k c :
  cumsum l !! k = Some c → (c == sum (take (S k) l))%Q.
Proof.
  destruct l as [|x l]; [done|]. destruct k as [|k]; simpl.
  - intros [= <-]. destruct l; simpl; ring.
  - intros Hk. apply cumsum_from_lookup in Hk. rewrite Hk. simpl. ring.
Qed.

Lemma cumsum_last l c :
  last (cumsum l) = Some c → (c == sum l)%Q.
Proof.
  rewrite last_lookup, cumsum_length. intros Hc.
  apply cumsum_lookup in Hc. rewrite Hc.
  rewrite take_ge; [reflexivity|]. destruct l; simpl; lia.
Qed.

(** ** Occurrence counts *)

Lemma occurrences_cons row df acid :
  occurrences acid (row :: df) =
  if decide (row.2 = acid) then S (occurrences acid df) else occurrences acid df.
Proof.
  unfold occurrences. rewrite filter_cons. by destruct (decide (row.2 = acid)).
Qed.

Lemma occurrences_le acid df : (occurrences acid df ≤ length df)%nat.
Proof. apply length_filter. Qed.

Lemma value_counts_lookup (df : Series string) (acid : string) :
  value_counts df !! acid =
  if decide (occurrences acid df = 0%nat) then None
  else Some (Z.of_nat (occurrences acid df)).
Proof.
  unfold value_counts, values.
  induction df as [|[i v] df IH]; [done|].
  rewrite occurrences_cons. cbn [fmap list_fmap foldr snd] in *.
  destruct (decide (v = acid)) as [->|Hne].
  - rewrite lookup_insert_eq, IH.
    destruct (decide (occurrences acid df = 0%nat)) as [->|?]; simpl;
      [done | f_equal; lia].
  - by rewrite lookup_insert_ne.
Qed.

Lemma sum_two_valued (hi lo : Q) acid (df : Series string) :
  (sum ((λ b : bool, if b then hi else lo)
          <$> ((λ v, bool_decide (v = acid)) <$> values df))
   == inject_Z (Z.of_nat (occurrences acid df)) * hi
      + inject_Z (Z.of_nat (length df) - Z.of_nat (occurrences acid df)) * lo)%Q.
Proof.
  unfold values. induction df as [|[i v] df IH].
  - change (0 == 0 * hi + 0 * lo)%Q. ring.
  - rewrite occurrences_cons. simpl. rewrite IH. clear IH.
    destruct (decide (v = acid)) as [->|Hne].
    + rewrite bool_decide_eq_true_2 by done.
      replace (Z.of_nat (S (occurrences acid df)))
        with (Z.of_nat (occurrences acid df) + 1) by lia.
      replace (Z.of_nat (S (length df)) - (Z.of_nat (occurrences acid df) + 1))
        with (Z.of_nat (length df) - Z.of_nat (occurrences acid df)) by lia.
      rewrite inject_Z_plus. change (inject_Z 1) with 1%Q. ring.
    + rewrite bool_decide_eq_false_2 by done.
      replace (Z.of_nat (S (length df)) - Z.of_nat (occurrences acid df))
        with ((Z.of_nat (length df) - Z.of_nat (occurrences acid df)) + 1) by lia.
      rewrite inject_Z_plus. change (inject_Z 1) with 1%Q. ring.
Qed.

Lemma increments_code_spec (df : Series string) (acid : string) :
  (λ b : bool, if b then (1 / inject_Z (Z.of_nat (occurrences acid df)))%Q
               else (- 1 / inject_Z (Z.of_nat (length df)
                                     - Z.of_nat (occurrences acid df)))%Q)
    <$> ((λ v, bool_decide (v = acid)) <$> values df)
  = increment (length df) (occurrences acid df) acid <$> values df.
Proof.
  rewrite <- list_fmap_compose. apply list_fmap_ext.
  intros _ v _. unfold increment. simpl.
  destruct (decide (v = acid)).
  - by rewrite bool_decide_eq_true_2.
  - by rewrite bool_decide_eq_false_2.
Qed.

Lemma enrichment_curves_unfold (df : Series string) (acid : string) :
  (0 < occurrences acid df)%nat →
  enrichment_curves df acid =
  cumsum (increment (length df) (occurrences acid df) acid <$> values df).
Proof.
  intros Hm. unfold enrichment_curves. rewrite value_counts_lookup.
  destruct (decide _) as [?|_]; [lia|].
  by rewrite increments_code_spec.
Qed.

Lemma sum_increments (df : Series string) (acid : string) :
  let n := length df in
  let m := occurrences acid df in
  (0 < m)%nat →
  (sum (increment n m acid <$> values df)
   == if decide (m = n) then 1 else 0)%Q.
Proof.
  intros n m Hm.
  assert (Hle : (m ≤ n)%nat) by apply occurrences_le.
  unfold n, m. rewrite <- increments_code_spec, sum_two_valued. fold n m.
  assert (Hm' : ¬ (inject_Z (Z.of_nat m) == 0)%Q).
  { change 0%Q with (inject_Z 0). rewrite inject_Z_injective. lia. }
  destruct (decide (m = n)) as [->|Hne].
  - replace (Z.of_nat n - Z.of_nat n) with 0 by lia.
    change (inject_Z 0) with 0%Q. rewrite Qmult_0_l, Qplus_0_r. field. done.
  - assert (Hnm : ¬ (inject_Z (Z.of_nat n - Z.of_nat m) == 0)%Q).
    { change 0%Q with (inject_Z 0). rewrite inject_Z_injective. lia. }
    field. split; done.
Qed.

(** ** C1: enrichment curves *)

(** C1 (as amended).  For a ranked column of [n] rows in which the target
    label occurs [m] times: if [m = 0] the result is empty; if [m > 0] the
    result has [n] entries, entry [k] is the sum of the first [k+1]
    increments ([+1/m] at a matching row, [-1/(n-m)] at any other row) in
    the given order, and the final entry is [0] when [m < n] and [1] when
    every row matches ([m = n]). *)
Theorem enrichment_curves_spec (df : Series string) (acid : string) :
  let n := length df in
  let m := occurrences acid df in
  let curve := enrichment_curves df acid in
  (m = 0%nat → curve = []) ∧
  ((0 < m)%nat →
     length curve = n ∧
     (∀ k c, curve !! k = Some c →
        (c == sum (take (S k) (increment n m acid <$> values df)))%Q) ∧
     ((m < n)%nat → ∃ c, last curve = Some c ∧ (c == 0)%Q) ∧
     (m = n → ∃ c, last curve = Some c ∧ (c == 1)%Q)).
Proof.
  intros n m curve. split.
  - intros Hm. unfold curve, enrichment_curves.
    rewrite value_counts_lookup. fold m. by rewrite decide_True.
  - intros Hm. unfold curve. rewrite enrichment_curves_unfold by done.
    fold n m.
    assert (Hlen : length (cumsum (increment n m acid <$> values df)) = n).
    { rewrite cumsum_length, length_fmap. unfold values. by rewrite length_fmap. }
    assert (Hlast : ∃ c, last (cumsum (increment n m acid <$> values df)) = Some c).
    { apply (last_is_Some (cumsum _)). intros Hnil.
      rewrite Hnil in Hlen. simpl in Hlen.
      pose proof (occurrences_le acid df). lia. }
    destruct Hlast as [c Hc].
    pose proof (cumsum_last _ _ Hc) as Hsum.
    pose proof (sum_increments df acid Hm) as Hs. cbv zeta in Hs.
    fold n m in Hs. rewrite Hs in Hsum. clear Hs.
    repeat split.
    + done.
    + intros k c'. apply cumsum_lookup.
    + intros Hlt. exists c. split; [done|].
      rewrite Hsum. rewrite decide_False by lia. reflexivity.
    + intros Heq. exists c. split; [done|].
      rewrite Hsum. by rewrite decide_True.
Qed.

Lemma enrichment_curves_spec_witness :
  enrichment_curves [(1, "B"); (2, "B")] "A" = [] ∧
  (∃ c, last (enrichment_curves toy_column "A") = Some c ∧ (c == 0)%Q) ∧
  (∃ c, last (enrichment_curves [(1, "A"); (2, "A")] "A") = Some c ∧ (c == 1)%Q).
Proof.
  split; [|split].
  - apply (enrichment_curves_spec [(1, "B"); (2, "B")] "A"). reflexivity.
  - apply (enrichment_curves_spec toy_column "A"); vm_compute; lia.
  - apply (enrichment_curves_spec [(1, "A"); (2, "A")] "A");
      vm_compute; (lia || reflexivity).
Defined.

(** C1 as stated fails when every row carries the target label: on the
    one-row column [A] with target [A] we have [m = 1 > 0], and the curve
    is [[1]], whose final entry is not [0]. *)
Lemma enrichment_curves_final_nonzero :
  (0 < occurrences "A" [(1%Z, "A")])%nat ∧
  enrichment_curves [(1, "A")] "A" = [1%Q] ∧
  ¬ (∃ c, last (enrichment_curves [(1, "A")] "A") = Some c ∧ (c == 0)%Q).
Proof.
  split; [vm_compute; lia|]. split; [reflexivity|].
  intros (c & Hc & H0). vm_compute in Hc. injection Hc as <-. discriminate H0.
Qed.

(** ** C4: two-sided empirical p-value *)

Lemma fge_fabs_Fin (o x : Q) :
  fge (fabs (Fin x)) (fabs (Fin o)) = true ↔ (Qabs o <= Qabs x)%Q.
Proof. simpl. apply Qle_bool_iff. Qed.

Lemma length_filter_ext {A} (P1 P2 : A → Prop)
    `{!∀ x, Decision (P1 x)} `{!∀ x, Decision (P2 x)} (l : list A) :
  (∀ x, x ∈ l → P1 x ↔ P2 x) →
  length (filter P1 l) = length (filter P2 l).
Proof.
  induction l as [|x l IH]; intros HP; [done|].
  rewrite !filter_cons.
  assert (Hx : P1 x ↔ P2 x) by (apply HP; left).
  assert (Hl : length (filter P1 l) = length (filter P2 l)).
  { apply IH. intros y Hy. apply HP. by right. }
  destruct (decide (P1 x)), (decide (P2 x)); simpl; tauto || lia.
Qed.

(** C4.  [twosided_pvalue(obs, null)] is [1] on an empty null list; on a
    non-empty one it is the number of null values [x] with
    [|x| >= |obs|], divided by the length of the list. *)
Theorem twosided_pvalue_spec (obs : Q) (null : list Q) :
  (∀ o : npfloat, twosided_pvalue o [] = 1%Q) ∧
  (null ≠ [] →
   twosided_pvalue (Fin obs) (Fin <$> null) =
   (inject_Z (Z.of_nat (length (filter (λ x, (Qabs obs <= Qabs x)%Q) null)))
    / inject_Z (Z.of_nat (length null)))%Q).
Proof.
  split; [done|]. intros Hne. unfold twosided_pvalue.
  rewrite length_fmap. destruct (decide (length null = 0%nat)) as [E|_].
  { destruct null; simplify_eq/=. }
  do 3 f_equal.
  induction null as [|x l IH]; [done|].
  rewrite fmap_cons, !filter_cons.
  assert (Hl : length (filter (λ x, fge (fabs x) (fabs (Fin obs)) = true) (Fin <$> l))
               = length (filter (λ x, (Qabs obs <= Qabs x)%Q) l)).
  { destruct l as [|y l]; [done|]. by apply IH. }
  pose proof (fge_fabs_Fin obs x) as Hx.
  destruct (decide (fge (fabs (Fin x)) (fabs (Fin obs)) = true)),
    (decide (Qabs obs <= Qabs x)%Q); cbn [length]; tauto || lia.
Qed.

Lemma twosided_pvalue_spec_witness :
  twosided_pvalue (Fin (1 # 2)) (Fin <$> [1 # 2; - (3 # 4); 1 # 4]%Q) =
  (inject_Z 2 / inject_Z 3)%Q.
Proof.
  apply (twosided_pvalue_spec (1 # 2) [1 # 2; - (3 # 4); 1 # 4]%Q). done.
Defined.

(** A [nan] in the null list, or a [nan] observation, is never counted:
    every comparison with [nan] fails. *)
Lemma twosided_pvalue_nan (null : list npfloat) :
  null ≠ [] → twosided_pvalue NaN null = (0 / inject_Z (Z.of_nat (length null)))%Q.
Proof.
  intros Hne. unfold twosided_pvalue.
  destruct (decide (length null = 0%nat)) as [E|_].
  { destruct null; simplify_eq/=. }
  do 3 f_equal. induction null as [|x l IH]; [done|].
  rewrite filter_cons. destruct (decide _) as [H|_].
  - by destruct x.
  - destruct l; [done|]. by apply IH.
Qed.

(** ** C5: enrichment score *)

Lemma argmax_from_spec (l pre : list Q) (best : Q) (besti : nat) :
  pre !! besti = Some best →
  (∀ y, y ∈ pre → (y <= best)%Q) →
  (∀ j y, (j < besti)%nat → pre !! j = Some y → (y < best)%Q) →
  ∃ b, (pre ++ l) !! argmax_from best besti (length pre) l = Some b ∧
       (∀ y, y ∈ pre ++ l → (y <= b)%Q) ∧
       (∀ j y, (j < argmax_from best besti (length pre) l)%nat →
               (pre ++ l) !! j = Some y → (y < b)%Q).
Proof.
  revert pre best besti.
  induction l as [|x l IH]; intros pre best besti Hbest Hmax Hfirst.
  - simpl. rewrite app_nil_r. eauto.
  - assert (Hlt : (besti < length pre)%nat) by (by eapply lookup_lt_Some).
    simpl. replace (pre ++ x :: l) with ((pre ++ [x]) ++ l)
      by (by rewrite <- app_assoc).
    replace (S (length pre)) with (length (pre ++ [x]))
      by (rewrite length_app; simpl; lia).
    destruct (Qle_bool x best) eqn:E.
    + apply Qle_bool_iff in E. apply IH.
      * by rewrite lookup_app_l.
      * intros y [Hy|Hy%list_elem_of_singleton]%elem_of_app; subst; auto.
      * intros j y Hj. rewrite lookup_app_l by lia. by apply Hfirst.
    + assert (Hx : (best < x)%Q).
      { apply Qnot_le_lt. intros H. apply Qle_bool_iff in H. congruence. }
      apply IH.
      * rewrite lookup_app_r by lia. by rewrite Nat.sub_diag.
      * intros y [Hy|Hy%list_elem_of_singleton]%elem_of_app.
        -- apply Qlt_le_weak. eapply Qle_lt_trans; [by apply Hmax|done].
        -- subst. apply Qle_refl.
      * intros j y Hj. rewrite lookup_app_l by lia. intros Hy.
        eapply Qle_lt_trans; [|exact Hx].
        apply Hmax. by eapply list_elem_of_lookup_2.
Qed.

Lemma argmax_spec (l : list Q) :
  l ≠ [] →
  ∃ i b, argmax l = Some i ∧ l !! i = Some b ∧
         (∀ y, y ∈ l → (y <= b)%Q) ∧
         (∀ j y, (j < i)%nat → l !! j = Some y → (y < b)%Q).
Proof.
  destruct l as [|x l]; [done|]. intros _.
  destruct (argmax_from_spec l [x] x 0%nat) as (b & Hb & Hmax & Hfirst).
  - done.
  - intros y ->%list_elem_of_singleton. apply Qle_refl.
  - intros j y Hj. lia.
  - exists (argmax_from x 0%nat 1%nat l), b. simpl in *. eauto.
Qed.

(** C5.  On a non-empty curve [enrichment_score] returns an entry [x] of
    the curve, namely the one at the first index [i] where the absolute
    value is largest: no entry exceeds [|x|] in absolute value, and every
    earlier entry is strictly below it.  The sign of [x] is kept.  On the
    toy column [A, A, B, B, B] with target [A] the curve is
    [1/2, 1, 2/3, 1/3, 0] and the score is [1], at index [1]; the same
    holds on the curve rounded to three decimals. *)
Theorem enrichment_score_spec (curve : list Q) :
  (curve ≠ [] →
   ∃ i x, argmax (Qabs <$> curve) = Some i ∧
          enrichment_score curve = Some x ∧ curve !! i = Some x ∧
          (∀ y, y ∈ curve → (Qabs y <= Qabs x)%Q) ∧
          (∀ j y, (j < i)%nat → curve !! j = Some y → (Qabs y < Qabs x)%Q)) ∧
  Forall2 Qeq (enrichment_curves toy_column "A") [1 # 2; 1; 2 # 3; 1 # 3; 0]%Q ∧
  argmax (Qabs <$> enrichment_curves toy_column "A") = Some 1%nat ∧
  (∃ x, enrichment_score (enrichment_curves toy_column "A") = Some x ∧ (x == 1)%Q) ∧
  argmax (Qabs <$> [5 # 10; 1; 667 # 1000; 333 # 1000; 0]%Q) = Some 1%nat ∧
  enrichment_score [5 # 10; 1; 667 # 1000; 333 # 1000; 0]%Q = Some 1%Q.
Proof.
  split; [|split; [|split; [|split; [|split]]]].
  - intros Hne.
    destruct (argmax_spec (Qabs <$> curve)) as (i & b & Hi & Hb & Hmax & Hfirst).
    { by destruct curve. }
    rewrite list_lookup_fmap in Hb.
    destruct (curve !! i) as [x|] eqn:Hx; [|done]. injection Hb as <-.
    exists i, x. split; [done|]. split.
    { unfold enrichment_score. rewrite Hi. done. }
    split; [done|]. split.
    + intros y Hy. apply Hmax. by apply list_elem_of_fmap_2.
    + intros j y Hj Hy. apply (Hfirst j); [done|].
      by rewrite list_lookup_fmap, Hy.
  - vm_compute. repeat constructor.
  - reflexivity.
  - eexists. split; [vm_compute; reflexivity|]. reflexivity.
  - reflexivity.
  - reflexivity.
Qed.

Lemma enrichment_score_spec_witness :
  ∃ i x, argmax (Qabs <$> [- (3 # 4); 1 # 2; 3 # 4]%Q) = Some i ∧
         enrichment_score [- (3 # 4); 1 # 2; 3 # 4]%Q = Some x ∧
         [- (3 # 4); 1 # 2; 3 # 4]%Q !! i = Some x ∧
         (∀ y, y ∈ [- (3 # 4); 1 # 2; 3 # 4]%Q → (Qabs y <= Qabs x)%Q) ∧
         (∀ j y, (j < i)%nat → [- (3 # 4); 1 # 2; 3 # 4]%Q !! j = Some y →
                 (Qabs y < Qabs x)%Q).
Proof.
  apply (enrichment_score_spec [- (3 # 4); 1 # 2; 3 # 4]%Q). done.
Defined.

(** The sign is preserved: the most extreme entry of [-3/4, 1/2, 3/4] is
    the first one, [-3/4]. *)
Example enrichment_score_negative :
  enrichment_score [- (3 # 4); 1 # 2; 3 # 4]%Q = Some (- (3 # 4))%Q.
Proof. reflexivity. Qed.

Example enrichment_score_empty : enrichment_score [] = None.
Proof. reflexivity. Qed.

(** ** C6: the mean-mode reducer *)

Lemma enrichment_scores_null_unfold {rng} (permutation : rng → list Q → list Q * rng)
    (g : rng) (df : Series string) (acid mode : string) (n_perm : nat) :
  (0 < occurrences acid df)%nat →
  enrichment_scores_null permutation g df acid n_perm mode =
  null_loop permutation n_perm mode
    (increment (length df) (occurrences acid df) acid <$> values df)
    (Scores []) g.
Proof.
  intros Hm. unfold enrichment_scores_null. rewrite value_counts_lookup.
  destruct (decide _) as [?|_]; [lia|].
  by rewrite increments_code_spec.
Qed.

(** C6.  On a non-empty curve the mean-mode reducer [enrichment_auc]
    returns the sum of the entries divided by their number; a null trial
    in mode ['auc'] reduces its shuffled curve with the same mean; on the
    toy curve, exact or rounded to three decimals, the AUC is [1/2]. *)
Theorem enrichment_auc_spec (curve : list Q) :
  (curve ≠ [] →
   enrichment_auc curve =
   Fin (sum curve / inject_Z (Z.of_nat (length curve)))) ∧
  (∀ (rng : Type) (permutation : rng → list Q → list Q * rng) (g : rng)
     (df : Series string) (acid : string),
     (0 < occurrences acid df)%nat →
     let shuffled :=
       permutation g (increment (length df) (occurrences acid df) acid
                        <$> values df) in
     enrichment_scores_null permutation g df acid 1 "auc" =
     Some (Scores [enrichment_auc (cumsum shuffled.1)], shuffled.2)) ∧
  (∃ q, enrichment_auc (enrichment_curves toy_column "A") = Fin q ∧ (q == 1 # 2)%Q) ∧
  (∃ q, enrichment_auc [5 # 10; 1; 667 # 1000; 333 # 1000; 0]%Q = Fin q
        ∧ (q == 1 # 2)%Q).
Proof.
  split; [|split; [|split]].
  - intros Hne. by destruct curve.
  - intros rng permutation g df acid Hm shuffled.
    rewrite enrichment_scores_null_unfold by done.
    subst shuffled. cbn [null_loop].
    destruct (permutation g _) as [p g']. by rewrite decide_True.
  - eexists. split; [vm_compute; reflexivity|]. reflexivity.
  - eexists. split; [vm_compute; reflexivity|]. reflexivity.
Qed.

Lemma enrichment_auc_spec_witness :
  enrichment_auc [1 # 2; 1]%Q =
  Fin (sum [1 # 2; 1]%Q / inject_Z (Z.of_nat (length [1 # 2; 1]%Q))).
Proof. apply (enrichment_auc_spec [1 # 2; 1]%Q). done. Defined.

(** ** C7: stop-codon filter *)

Lemma elem_of_row_remove (pairs : list (Z * Z)) (v label : Z) :
  label ∈ (filter (λ xy, v > xy.2) pairs).*1 ↔ stop_before pairs v label.
Proof.
  unfold stop_before. rewrite list_elem_of_fmap, Exists_exists. split.
  - intros ([x y] & -> & [Hgt Hin]%list_elem_of_filter). exists (x, y).
    simpl in *. split; [done|]. split; [done|lia].
  - intros ([x y] & Hin & <- & Hlt). exists (x, y). split; [done|].
    apply list_elem_of_filter. simpl in *. split; [lia|done].
Qed.

Lemma filter_all {A} (P : A → Prop) `{!∀ x, Decision (P x)} (l : list A) :
  (∀ x, x ∈ l → P x) → filter P l = l.
Proof.
  induction l as [|x l IH]; intros HP; [done|].
  rewrite filter_cons, decide_True by (apply HP; left).
  f_equal. apply IH. intros y Hy. apply HP. by right.
Qed.

Lemma list_filter_ext_in {A} (P1 P2 : A → Prop)
    `{!∀ x, Decision (P1 x)} `{!∀ x, Decision (P2 x)} (l : list A) :
  (∀ x, x ∈ l → P1 x ↔ P2 x) → filter P1 l = filter P2 l.
Proof.
  induction l as [|x l IH]; intros HP; [done|].
  rewrite !filter_cons.
  assert (Hx : P1 x ↔ P2 x) by (apply HP; left).
  assert (Hl : filter P1 l = filter P2 l).
  { apply IH. intros y Hy. apply HP. by right. }
  destruct (decide (P1 x)), (decide (P2 x)); rewrite ?Hl; tauto || done.
Qed.

(** C7.  Let [data] be the target column and [v] the number in its label.
    When every row that has to go is a row of the column, the function
    returns the column without exactly the rows that have a stop codon
    strictly before [v]: the result is the sub-sequence of [data] (order
    kept) of the rows without such a stop codon, and it is [data] itself
    when every recorded stop codon is at or after [v]. *)
Theorem remove_peptides_with_stopcodon_spec
    (df : DataFrame) (column : string) (sc_index sc_col : list Z)
    (data : Series string) (v : Z) :
  getitem df column = Some data →
  col_value column = Some v →
  (∀ x y, (x, y) ∈ zip sc_index sc_col → y < v → x ∈ index data) →
  ∃ out,
    remove_peptides_with_stopcodon df column sc_index sc_col = Some out ∧
    out = filter (λ row, ¬ stop_before (zip sc_index sc_col) v row.1) data ∧
    out `sublist_of` data ∧
    (∀ row, row ∈ out ↔
            row ∈ data ∧ ¬ stop_before (zip sc_index sc_col) v row.1) ∧
    ((∀ x y, (x, y) ∈ zip sc_index sc_col → v ≤ y) → out = data).
Proof.
  intros Hdata Hv Hrows.
  set (pairs := zip sc_index sc_col) in *.
  exists (filter (λ row, ¬ stop_before pairs v row.1) data).
  split; [|split; [done|split; [apply sublist_filter|split]]].
  - unfold remove_peptides_with_stopcodon. rewrite Hdata, Hv. simpl.
    fold pairs. destruct (decide _) as [Hpos|Hzero].
    + unfold drop_rows. rewrite bool_decide_eq_true_2.
      * f_equal. apply list_filter_ext_in. intros row _.
        by rewrite elem_of_row_remove.
      * apply Forall_forall. intros x Hx.
        apply elem_of_row_remove, Exists_exists in Hx.
        destruct Hx as ([x' y] & Hin & <- & Hlt). by eapply Hrows.
    + f_equal. symmetry. apply filter_all. intros row _ Hstop.
      apply elem_of_row_remove in Hstop.
      destruct ((filter (λ xy, v > xy.2) pairs).*1);
        [by apply elem_of_nil in Hstop | simpl in Hzero; lia].
  - intros row. by rewrite list_elem_of_filter, (comm and).
  - intros Hafter. apply filter_all.
    intros row _ ([x y] & Hin & _ & Hlt)%Exists_exists.
    specialize (Hafter x y Hin). simpl in Hlt. lia.
Qed.

Lemma remove_peptides_with_stopcodon_spec_witness :
  ∃ out,
    remove_peptides_with_stopcodon stop_table "Pos06" [3] [5] = Some out ∧
    out = filter (λ row, ¬ stop_before (zip [3] [5]) 6 row.1)
                 [(1, "E"); (2, "F"); (3, "G"); (4, "H")] ∧
    out `sublist_of` [(1, "E"); (2, "F"); (3, "G"); (4, "H")] ∧
    (∀ row, row ∈ out ↔
            row ∈ [(1, "E"); (2, "F"); (3, "G"); (4, "H")]
            ∧ ¬ stop_before (zip [3] [5]) 6 row.1) ∧
    ((∀ x y, (x, y) ∈ zip [3] [5] → 6 ≤ y) →
     out = [(1, "E"); (2, "F"); (3, "G"); (4, "H")]).
Proof.
  apply (remove_peptides_with_stopcodon_spec stop_table "Pos06" [3] [5]).
  - reflexivity.
  - reflexivity.
  - intros x y [= -> ->]%list_elem_of_singleton _. vm_compute.
    apply list_elem_of_In. simpl. tauto.
Defined.

(** The scenario of the specification: with a stop codon at row 3,
    position 5, querying position 5 keeps row 3 and querying position 6
    drops it. *)
Example stop_codon_scenario :
  remove_peptides_with_stopcodon stop_table "Pos05" [3] [5]
    = Some [(1, "A"); (2, "C"); (3, "*"); (4, "D")] ∧
  remove_peptides_with_stopcodon stop_table "Pos06" [3] [5]
    = Some [(1, "E"); (2, "F"); (4, "H")].
Proof. split; reflexivity. Qed.

(** A label to drop that the column does not carry raises [KeyError]. *)
Example stop_codon_unknown_row :
  remove_peptides_with_stopcodon stop_table "Pos06" [7] [5] = None.
Proof. reflexivity. Qed.

(** ** C3: permutation null distribution *)

Lemma enrichment_score_is_Some (curve : list Q) :
  curve ≠ [] → is_Some (enrichment_score curve).
Proof.
  intros Hne. destruct (argmax_spec (Qabs <$> curve)) as (i & b & Hi & Hb & _).
  { by destruct curve. }
  unfold enrichment_score. rewrite Hi. simpl.
  rewrite list_lookup_fmap in Hb. destruct (curve !! i); [eauto|done].
Qed.

Lemma cumsum_nonempty (l : list Q) : l ≠ [] → cumsum l ≠ [].
Proof. by destruct l. Qed.

Section null_distribution.

Context {rng : Type} (permutation : rng → list Q → list Q * rng).

(** The generator's output is a rearrangement of its input. *)
Hypothesis permutation_shuffles : ∀ g a, (permutation g a).1 ≡ₚ a.

Lemma null_loop_spec (mode : string) (base : list Q) :
  mode = "auc" ∨ mode = "max" →
  base ≠ [] →
  ∀ trials curve acc g,
    curve ≡ₚ base →
    ∃ scores g',
      null_loop permutation trials mode curve (Scores acc) g
        = Some (Scores (acc ++ scores), g') ∧
      length scores = trials ∧
      Forall (null_score mode base) scores.
Proof.
  intros Hmode Hbase trials.
  induction trials as [|k IH]; intros curve acc g Hcurve.
  - exists [], g. simpl. by rewrite app_nil_r.
  - cbn [null_loop].
    pose proof (permutation_shuffles g curve) as Hp.
    destruct (permutation g curve) as [p g1]. simpl in Hp.
    assert (Hpb : p ≡ₚ base) by (by rewrite Hp).
    assert (Hpne : p ≠ []).
    { intros ->. apply Permutation_nil_l in Hpb. by subst. }
    destruct Hmode as [-> | ->].
    + rewrite decide_True by done. simpl.
      destruct (IH p (acc ++ [mean (cumsum p)]) g1 Hpb)
        as (scores & g' & Hloop & Hlen & Hall).
      exists (mean (cumsum p) :: scores), g'.
      rewrite Hloop, <- app_assoc. split; [done|]. split; [simpl; lia|].
      constructor; [|done]. exists p. by repeat split.
    + rewrite decide_False, decide_True by done.
      destruct (enrichment_score_is_Some (cumsum p)) as [s Hs].
      { by apply cumsum_nonempty. }
      rewrite Hs. simpl.
      destruct (IH p (acc ++ [Fin s]) g1 Hpb)
        as (scores & g' & Hloop & Hlen & Hall).
      exists (Fin s :: scores), g'.
      rewrite Hloop, <- app_assoc. split; [done|]. split; [simpl; lia|].
      constructor; [|done]. exists p. split; [done|]. split; [done|].
      intros _. by rewrite Hs.
Qed.

(** C3.  When the target label occurs ([m > 0]) and the mode is ['auc'] or
    ['max'], [enrichment_scores_null] returns a list of exactly [n_perm]
    scores, in trial order, and every score is the mode's reducer ([mean]
    for ['auc'], [enrichment_score] for ['max']) applied to the running
    sums of a rearrangement of the one increment array built from the
    column: [+1/m] at matching rows and [-1/(n-m)] elsewhere, with the
    same [n] and [m] in every trial. *)
Theorem enrichment_scores_null_spec
    (g : rng) (df : Series string) (acid mode : string) (n_perm : nat) :
  (0 < occurrences acid df)%nat →
  mode = "auc" ∨ mode = "max" →
  ∃ scores g',
    enrichment_scores_null permutation g df acid n_perm mode
      = Some (Scores scores, g') ∧
    length scores = n_perm ∧
    Forall (null_score mode
              (increment (length df) (occurrences acid df) acid <$> values df))
           scores.
Proof.
  intros Hm Hmode. rewrite enrichment_scores_null_unfold by done.
  apply (null_loop_spec mode _ Hmode) with (acc := []); [|done].
  intros Hnil. apply fmap_nil_inv in Hnil. unfold values in Hnil.
  apply fmap_nil_inv in Hnil. subst df. vm_compute in Hm. lia.
Qed.

End null_distribution.

Lemma reversing_shuffles (g : nat) (a : list Q) : (reversing g a).1 ≡ₚ a.
Proof. simpl. apply reverse_Permutation. Qed.

Lemma enrichment_scores_null_spec_witness :
  ∃ scores g',
    enrichment_scores_null reversing 0%nat toy_column "A" 3 "max"
      = Some (Scores scores, g') ∧
    length scores = 3%nat ∧
    Forall (null_score "max"
              (increment (length toy_column) (occurrences "A" toy_column) "A"
                 <$> values toy_column))
           scores.
Proof.
  apply (enrichment_scores_null_spec reversing reversing_shuffles
           0%nat toy_column "A" "max" 3).
  - vm_compute. lia.
  - by right.
Defined.

(** The trials in order, with the reversing generator: the array is
    reversed, reversed back, and reversed again. *)
Example enrichment_scores_null_run :
  ∃ a b, enrichment_scores_null reversing 0%nat toy_column "A" 3 "max"
         = Some (Scores [Fin a; Fin b; Fin a], 3%nat)
         ∧ (a == -1)%Q ∧ (b == 1)%Q.
Proof. do 2 eexists. split; [vm_compute; reflexivity|]. split; reflexivity. Qed.

(** An invalid mode leaves Python's [None] after the first trial, and an
    empty list when there is no trial. *)
Example enrichment_scores_null_invalid_mode :
  enrichment_scores_null reversing 0%nat toy_column "A" 2 "mean"
    = Some (PyNone, 2%nat) ∧
  enrichment_scores_null reversing 0%nat toy_column "A" 0 "mean"
    = Some (Scores [], 0%nat).
Proof. split; reflexivity. Qed.

(** ** C2: Benjamini-Hochberg correction *)

Lemma insert_by_Permutation {A} (le : A → A → bool) x l :
  py.insert_by le x l ≡ₚ x :: l.
Proof.
  induction l as [|y l IH]; [done|]. simpl. destruct (le x y); [done|].
  rewrite IH. apply Permutation_swap.
Qed.

Lemma sorted_Permutation {A} (le : A → A → bool) l : py.sorted le l ≡ₚ l.
Proof.
  induction l as [|x l IH]; [done|]. unfold py.sorted in *. simpl.
  by rewrite insert_by_Permutation, IH.
Qed.

Lemma before_irrefl p i : ¬ before p i i.
Proof. intros [H|[_ H]]; [by apply Qlt_irrefl in H|lia]. Qed.

Lemma before_asym p i j : before p i j → ¬ before p j i.
Proof.
  intros [H1|[H1 H1']] [H2|[H2 H2']].
  - apply (Qlt_irrefl (pvalue_at p i)). by eapply Qlt_trans.
  - rewrite H2 in H1. by apply Qlt_irrefl in H1.
  - rewrite H1 in H2. by apply Qlt_irrefl in H2.
  - lia.
Qed.

Lemma before_le p i j : before p i j → (pvalue_at p i <= pvalue_at p j)%Q.
Proof. intros [H|[H _]]; [by apply Qlt_le_weak|]. rewrite H. apply Qle_refl. Qed.

Lemma insert_by_sorted p x l :
  StronglySorted (before p) l →
  Forall (λ y, (x < y)%nat) l →
  StronglySorted (before p)
    (py.insert_by (λ x y, Qle_bool (pvalue_at p x) (pvalue_at p y)) x l).
Proof.
  induction l as [|y l IH]; intros Hs Hx; simpl.
  - repeat constructor.
  - apply StronglySorted_inv in Hs as [Hs Hy].
    apply Forall_cons in Hx as [Hxy Hx].
    destruct (Qle_bool (pvalue_at p x) (pvalue_at p y)) eqn:E.
    + apply Qle_bool_iff in E.
      assert (Hb : before p x y).
      { apply Qle_lt_or_eq in E as [E|E]; [by left|by right]. }
      constructor; [by constructor|]. constructor; [done|].
      apply Forall_forall. intros z Hz.
      rewrite Forall_forall in Hx, Hy.
      pose proof (before_le _ _ _ (Hy z Hz)) as Hyz.
      assert (Hxz : (pvalue_at p x <= pvalue_at p z)%Q) by (by eapply Qle_trans).
      apply Qle_lt_or_eq in Hxz as [Hxz|Hxz]; [by left|right].
      split; [done|by apply Hx].
    + assert (Hlt : (pvalue_at p y < pvalue_at p x)%Q).
      { apply Qnot_le_lt. intros H. apply Qle_bool_iff in H. congruence. }
      constructor; [by apply IH|].
      rewrite insert_by_Permutation. constructor; [by left|done].
Qed.

Lemma StronglySorted_seq j n : StronglySorted lt (seq j n).
Proof.
  revert j. induction n as [|n IH]; intros j; simpl; constructor; [done|].
  apply Forall_seq. intros; lia.
Qed.

Lemma sorted_indices_sorted p l :
  StronglySorted lt l →
  StronglySorted (before p)
    (py.sorted (λ x y, Qle_bool (pvalue_at p x) (pvalue_at p y)) l).
Proof.
  induction l as [|x l IH]; intros Hs; [constructor|].
  apply StronglySorted_inv in Hs as [Hs Hx].
  unfold py.sorted in *. simpl. apply insert_by_sorted; [by apply IH|].
  fold (py.sorted (λ x y, Qle_bool (pvalue_at p x) (pvalue_at p y)) l).
  by rewrite sorted_Permutation.
Qed.

Lemma sort_idx_Permutation p : sort_idx p ≡ₚ seq 0 (length p).
Proof. apply sorted_Permutation. Qed.

Lemma sort_idx_sorted p : StronglySorted (before p) (sort_idx p).
Proof. apply sorted_indices_sorted, StronglySorted_seq. Qed.

Lemma sort_idx_length p : length (sort_idx p) = length p.
Proof. by rewrite sort_idx_Permutation, length_seq. Qed.

Lemma sort_idx_NoDup p : NoDup (sort_idx p).
Proof. rewrite sort_idx_Permutation. apply NoDup_seq. Qed.

Lemma filter_before_nil p l i :
  Forall (before p i) l → filter (λ j, before p j i) l = [].
Proof.
  induction 1 as [|z l Hz _ IH]; [done|].
  by rewrite filter_cons, decide_False by (by apply before_asym).
Qed.

Lemma filter_before_take p l k i :
  StronglySorted (before p) l →
  l !! k = Some i →
  filter (λ j, before p j i) l = take k l.
Proof.
  revert k. induction l as [|a l IH]; intros k Hs Hk; [done|].
  apply StronglySorted_inv in Hs as [Hs Ha].
  rewrite filter_cons. destruct k as [|k]; simpl in Hk.
  - injection Hk as ->. rewrite decide_False by apply before_irrefl.
    simpl. by apply filter_before_nil.
  - rewrite decide_True.
    + simpl. f_equal. by apply IH.
    + rewrite Forall_forall in Ha. apply Ha. by eapply list_elem_of_lookup_2.
Qed.

Lemma rank_sort_idx p k i : sort_idx p !! k = Some i → rank p i = S k.
Proof.
  intros Hk. unfold rank. f_equal.
  rewrite <- sort_idx_Permutation.
  rewrite (filter_before_take p _ k i (sort_idx_sorted p) Hk).
  rewrite length_take. apply lookup_lt_Some in Hk. lia.
Qed.

Lemma sort_idx_position p i :
  (i < length p)%nat → ∃ k, sort_idx p !! k = Some i.
Proof.
  intros Hi. apply list_elem_of_lookup_1.
  rewrite sort_idx_Permutation. apply elem_of_seq. lia.
Qed.

Lemma StronglySorted_weaken {A} (R1 R2 : relation A) (l : list A) :
  (∀ x y, R1 x y → R2 x y) → StronglySorted R1 l → StronglySorted R2 l.
Proof.
  intros HR. induction 1 as [|x l _ IH Hx]; constructor; [done|].
  eapply Forall_impl; [exact Hx|]. apply HR.
Qed.

(** Index assignment [q[idx] = vals], one entry after the other. *)
Lemma assign_length (q : list Q) (ivs : list (nat * Q)) :
  length (foldl (λ q iv, <[iv.1 := iv.2]> q) q ivs) = length q.
Proof.
  revert q. induction ivs as [|iv ivs IH]; intros q; [done|].
  simpl. by rewrite IH, length_insert.
Qed.

Lemma assign_lookup_other (q : list Q) (ivs : list (nat * Q)) (i : nat) :
  i ∉ ivs.*1 →
  foldl (λ q iv, <[iv.1 := iv.2]> q) q ivs !! i = q !! i.
Proof.
  revert q. induction ivs as [|[j v] ivs IH]; intros q Hi; [done|].
  simpl in *. apply not_elem_of_cons in Hi as [Hne Hi].
  rewrite IH by done. by apply list_lookup_insert_ne.
Qed.

Lemma assign_lookup (q : list Q) (ivs : list (nat * Q)) (k i : nat) (v : Q) :
  NoDup ivs.*1 →
  ivs !! k = Some (i, v) →
  (i < length q)%nat →
  foldl (λ q iv, <[iv.1 := iv.2]> q) q ivs !! i = Some v.
Proof.
  revert q k. induction ivs as [|[j w] ivs IH]; intros q k Hnd Hk Hi; [done|].
  simpl in *. apply NoDup_cons in Hnd as [Hj Hnd].
  destruct k as [|k]; simpl in Hk.
  - injection Hk as -> ->. rewrite assign_lookup_other by done.
    by apply list_lookup_insert_eq.
  - apply (IH _ k); [done|done|]. by rewrite length_insert.
Qed.

Lemma benjamini_hochberg_qvals (p : list Q) (alpha : Q) (k i : nat) :
  sort_idx p !! k = Some i →
  (benjamini_hochberg p alpha).2 !! i
  = Some (inject_Z (Z.of_nat (S k)) / inject_Z (Z.of_nat (length p)) * alpha)%Q.
Proof.
  intros Hk. unfold benjamini_hochberg. cbn [snd].
  fold (pvalue_at p). fold (sort_idx p).
  rewrite list_lookup_fmap.
  assert (Hklt : (k < length p)%nat).
  { apply lookup_lt_Some in Hk. by rewrite sort_idx_length in Hk. }
  assert (Hilt : (i < length p)%nat).
  { apply list_elem_of_lookup_2 in Hk.
    rewrite sort_idx_Permutation in Hk. apply elem_of_seq in Hk. lia. }
  erewrite (assign_lookup _ _ k i); [reflexivity| | |];
    change (py.sorted _ (seq 0 (length p))) with (sort_idx p).
  - rewrite fst_zip; [apply sort_idx_NoDup|].
    by rewrite length_fmap, length_seq, sort_idx_length.
  - apply lookup_zip_with_Some. do 2 eexists. split; [done|].
    split; [done|]. rewrite list_lookup_fmap, lookup_seq_lt by done. done.
  - by rewrite length_replicate.
Qed.

Lemma benjamini_hochberg_is_sig (p : list Q) (alpha : Q) (i : nat) :
  (benjamini_hochberg p alpha).1 !! i
  = match p !! i, (benjamini_hochberg p alpha).2 !! i with
    | Some v, Some q => Some (Qle_bool v q)
    | _, _ => None
    end.
Proof.
  unfold benjamini_hochberg. cbn [fst snd].
  rewrite lookup_zip_with.
  destruct (p !! i); simpl; [|done]. by destruct (_ !! i).
Qed.

(** C2.  [fdr_correction] keeps the shape of the matrix and corrects all
    its entries at once: with [N] the number of entries and the entries
    taken row by row, the index list [sort_idx] is a rearrangement of
    [0 .. N-1] in ascending order of p-value, the entry at place [k] of
    that order (rank [k+1]) gets the threshold [alpha * (k+1) / N], and
    entry [(i, j)] is marked exactly when it is at most its own threshold
    [alpha * rank / N], with no step-up adjustment.  For the p-values
    [0.01, 0.04, 0.03, 0.20] and [alpha = 0.1] the thresholds in rank
    order are [0.025, 0.05, 0.075, 0.1] and the mask in the original
    order is [True, True, True, False]. *)
Theorem fdr_correction_spec (pvalues : ndarray Q) (alpha : Q) :
  let p := flat pvalues in
  let N := length p in
  let mask := fdr_correction pvalues alpha in
  shape mask = shape pvalues ∧
  flat mask = (benjamini_hochberg p alpha).1 ∧
  length (flat mask) = N ∧
  sort_idx p ≡ₚ seq 0 N ∧
  StronglySorted (λ x y, (pvalue_at p x <= pvalue_at p y)%Q) (sort_idx p) ∧
  (∀ k x, sort_idx p !! k = Some x →
          rank p x = S k ∧
          ∃ q, (benjamini_hochberg p alpha).2 !! x = Some q ∧
               (q == alpha * inject_Z (Z.of_nat (S k)) / inject_Z (Z.of_nat N))%Q) ∧
  (∀ i j v, item pvalues i j = Some v →
            ∃ b, item mask i j = Some b ∧
                 (b = true ↔
                  (v <= alpha * inject_Z (Z.of_nat (rank p (i * (shape pvalues).2 + j)))
                        / inject_Z (Z.of_nat N))%Q)) ∧
  let example := [1 # 100; 4 # 100; 3 # 100; 20 # 100]%Q in
  sort_idx example = [0; 2; 1; 3]%nat ∧
  Forall2 Qeq ((λ x, default 0%Q ((benjamini_hochberg example (1 # 10)).2 !! x))
                 <$> sort_idx example)
              [25 # 1000; 5 # 100; 75 # 1000; 1 # 10]%Q ∧
  fdr_correction {| shape := (1, 4)%nat; flat := example |} (1 # 10)
  = {| shape := (1, 4)%nat; flat := [true; true; true; false] |} ∧
  fdr_correction {| shape := (2, 2)%nat; flat := example |} (1 # 10)
  = {| shape := (2, 2)%nat; flat := [true; true; true; false] |}.
Proof.
  intros p N mask.
  assert (Hflat : flat mask = (benjamini_hochberg p alpha).1).
  { unfold mask, fdr_correction. destruct (shape pvalues).
    fold p. by destruct (benjamini_hochberg p alpha). }
  assert (Hq : ∀ k x, sort_idx p !! k = Some x →
            ∃ q, (benjamini_hochberg p alpha).2 !! x = Some q ∧
                 (q == alpha * inject_Z (Z.of_nat (S k)) / inject_Z (Z.of_nat N))%Q).
  { intros k x Hk. eexists. split; [by apply benjamini_hochberg_qvals|].
    unfold N, Qdiv. ring. }
  split; [|split; [done|split; [|split; [|split; [|split; [|split]]]]]].
  - unfold mask, fdr_correction. destruct (shape pvalues).
    by destruct (benjamini_hochberg (flat pvalues) alpha).
  - rewrite Hflat. unfold benjamini_hochberg. cbn [fst].
    rewrite length_zip_with, length_fmap, assign_length, length_replicate.
    fold p N. lia.
  - apply sort_idx_Permutation.
  - eapply StronglySorted_weaken; [|apply sort_idx_sorted].
    intros x y. apply before_le.
  - intros k x Hk. split; [by apply rank_sort_idx|by apply Hq].
  - intros i j v Hv. unfold item in *.
    assert (Hshape : shape mask = shape pvalues).
    { unfold mask, fdr_correction. destruct (shape pvalues).
      by destruct (benjamini_hochberg (flat pvalues) alpha). }
    rewrite Hshape, Hflat. fold p in Hv.
    set (x := (i * (shape pvalues).2 + j)%nat) in *.
    destruct (sort_idx_position p x) as [k Hk].
    { by eapply lookup_lt_Some. }
    destruct (Hq k x Hk) as (q & Hqx & Hqv).
    rewrite benjamini_hochberg_is_sig, Hv, Hqx. simpl.
    eexists. split; [done|].
    rewrite (rank_sort_idx p k x Hk), Qle_bool_iff, Hqv. done.
  - intros example. split; [reflexivity|]. split; [|split; reflexivity].
    vm_compute. repeat constructor.
Qed.

Lemma fdr_correction_spec_witness :
  ∃ b, item (fdr_correction {| shape := (2, 2)%nat;
                                flat := [1 # 100; 4 # 100; 3 # 100; 20 # 100]%Q |}
                             (1 # 10)) 1 1 = Some b ∧
       (b = true ↔
        (20 # 100 <= (1 # 10) * inject_Z (Z.of_nat
                         (rank [1 # 100; 4 # 100; 3 # 100; 20 # 100]%Q 3))
                    / inject_Z (Z.of_nat 4))%Q).
Proof.
  pose proof (fdr_correction_spec
                {| shape := (2, 2)%nat;
                   flat := [1 # 100; 4 # 100; 3 # 100; 20 # 100]%Q |}
                (1 # 10)) as H.
  cbv zeta in H. destruct H as (_ & _ & _ & _ & _ & _ & H & _).
  apply (H 1%nat 1%nat (20 # 100)%Q). reflexivity.
Defined.

(** No step-up adjustment: with p-values [0.04, 0.045] and [alpha = 0.05]
    the thresholds are [0.025, 0.05]; the second test passes its
    threshold and the first, although smaller, stays unmarked. *)
Example benjamini_hochberg_not_monotone :
  (benjamini_hochberg [40 # 1000; 45 # 1000]%Q (5 # 100)).1 = [false; true].
Proof. reflexivity. Qed.

(** ** Loops *)

Lemma for_each_nil {A S} (body : A → S → option S) (s : S) :
  py.for_each [] body s = Some s.
Proof. done. Qed.

Lemma for_each_cons {A S} (x : A) (l : list A) (body : A → S → option S) (s : S) :
  py.for_each (x :: l) body s = body x s ≫= py.for_each l body.
Proof.
  unfold py.for_each. simpl. destruct (body x s) as [t|]; [done|].
  simpl. induction l as [|y l IH]; [done|]. simpl. exact IH.
Qed.

(** A property kept by every iteration that ends normally is kept by the
    loop. *)
Lemma for_each_invariant {A S} (P : S → Prop) (l : list A)
    (body : A → S → option S) (s s' : S) :
  (∀ x t t', x ∈ l → P t → body x t = Some t' → P t') →
  P s → py.for_each l body s = Some s' → P s'.
Proof.
  revert s. induction l as [|x l IH]; intros s Hbody Hs Hrun.
  - rewrite for_each_nil in Hrun. by injection Hrun as <-.
  - rewrite for_each_cons in Hrun.
    destruct (body x s) as [t|] eqn:Hx; [|done]. simpl in Hrun.
    apply (IH t); [|by eapply Hbody; [left|..]|done].
    intros y u u' Hy. apply Hbody. by right.
Qed.

(** A loop whose iterations all end normally, keeping [P], ends normally. *)
Lemma for_each_total {A S} (P : S → Prop) (l : list A)
    (body : A → S → option S) (s : S) :
  (∀ x t, x ∈ l → P t → ∃ t', body x t = Some t' ∧ P t') →
  P s → ∃ s', py.for_each l body s = Some s' ∧ P s'.
Proof.
  revert s. induction l as [|x l IH]; intros s Hbody Hs.
  - exists s. by rewrite for_each_nil.
  - destruct (Hbody x s) as (t & Hx & Ht); [left|done|].
    destruct (IH t) as (s' & Hrun & Hs'); [|done|].
    + intros y u Hy. apply Hbody. by right.
    + exists s'. by rewrite for_each_cons, Hx.
Qed.

(** A property of the loop state and of the items handled so far. *)
Lemma for_each_invariant_prefix {A S} (P : list A → S → Prop) (l : list A)
    (body : A → S → option S) (s s' : S) :
  (∀ pre x t t', P pre t → body x t = Some t' → P (pre ++ [x]) t') →
  P [] s → py.for_each l body s = Some s' → P l s'.
Proof.
  revert P s. induction l as [|x l IH]; intros P s Hbody Hs Hrun.
  - rewrite for_each_nil in Hrun. by injection Hrun as <-.
  - rewrite for_each_cons in Hrun.
    destruct (body x s) as [t|] eqn:Hx; [|done]. simpl in Hrun.
    apply (IH (λ pre, P (x :: pre)) t); [|by apply (Hbody [] x s)|done].
    intros pre y u u' Hu Hy. by apply (Hbody (x :: pre) y u).
Qed.

Lemma for_each_progress {A S} (P : list A → S → Prop) (l : list A)
    (body : A → S → option S) (s : S) :
  (∀ pre x t, x ∈ l → P pre t → ∃ t', body x t = Some t' ∧ P (pre ++ [x]) t') →
  P [] s → ∃ s', py.for_each l body s = Some s' ∧ P l s'.
Proof.
  revert P s. induction l as [|x l IH]; intros P s Hbody Hs.
  - exists s. by rewrite for_each_nil.
  - destruct (Hbody [] x s) as (t & Hx & Ht); [left|done|].
    destruct (IH (λ pre, P (x :: pre)) t) as (s' & Hrun & Hs'); [|done|].
    + intros pre y u Hy Hu. apply (Hbody (x :: pre)); [by right|done].
    + exists s'. by rewrite for_each_cons, Hx.
Qed.

Lemma elem_of_enumerate {A} (l : list A) (i : nat) (x : A) :
  (i, x) ∈ py.enumerate l ↔ l !! i = Some x.
Proof.
  unfold py.enumerate. rewrite list_elem_of_lookup. split.
  - intros [k Hk]. apply lookup_zip_with_Some in Hk as (j & y & [= -> ->] & Hj & Hy).
    apply lookup_seq in Hj as [-> _]. done.
  - intros Hi. exists i. apply lookup_zip_with_Some. exists i, x.
    split; [done|]. split; [|done].
    apply lookup_seq. split; [done|]. by eapply lookup_lt_Some.
Qed.

(** ** Frames *)

Lemma assoc_Some_elem_of {A} (k : string) (l : list (string * A)) :
  k ∈ l.*1 → is_Some (assoc k l).
Proof.
  induction l as [|[k' v] l IH]; simpl.
  - by intros ?%elem_of_nil.
  - intros Hk. destruct (decide (k = k')) as [->|Hne]; [eauto|].
    apply IH. apply elem_of_cons in Hk as [?|?]; done.
Qed.

Lemma assoc_elem_of {A} (k : string) (v : A) (l : list (string * A)) :
  assoc k l = Some v → (k, v) ∈ l.
Proof.
  induction l as [|[k' v'] l IH]; [done|]. simpl.
  destruct (decide (k = k')) as [->|_].
  - intros [= ->]. left.
  - intros Hl. right. by apply IH.
Qed.

Lemma getitem_is_Some (df : DataFrame) (column : string) :
  column ∈ columns df → is_Some (getitem df column).
Proof.
  intros Hc. unfold getitem.
  destruct (assoc_Some_elem_of column (df_columns df) Hc) as [cells ->].
  simpl. eauto.
Qed.

Lemma assoc_set_eq {A} (k : string) (v : A) l : assoc k (assoc_set k v l) = Some v.
Proof.
  induction l as [|[k' v'] l IH]; simpl.
  - by rewrite decide_True.
  - destruct (decide (k = k')) as [->|Hne]; simpl.
    + by rewrite decide_True.
    + by rewrite decide_False.
Qed.

Lemma assoc_set_ne {A} (k k' : string) (v : A) l :
  k ≠ k' → assoc k' (assoc_set k v l) = assoc k' l.
Proof.
  intros Hne. induction l as [|[k0 v0] l IH]; simpl.
  - by rewrite decide_False.
  - destruct (decide (k = k0)) as [->|Hne0]; simpl.
    + by rewrite !decide_False by done.
    + destruct (decide (k' = k0)); [done|apply IH].
Qed.

Lemma assoc_filter_ne {A} (k k' : string) (l : list (string * A)) :
  k ≠ k' → assoc k' (filter (λ c, c.1 ≠ k) l) = assoc k' l.
Proof.
  intros Hne. induction l as [|[k0 v0] l IH]; [done|].
  rewrite filter_cons. simpl. destruct (decide (k0 ≠ k)) as [H0|H0]; simpl.
  - by rewrite IH.
  - rewrite IH. destruct (decide (k' = k0)) as [->|]; [|done].
    exfalso. apply H0. congruence.
Qed.

Lemma drop_column_spec (column : string) (df df' : DataFrame) :
  drop_column column df = Some df' →
  df_index df' = df_index df ∧
  (column ∉ columns df') ∧
  (∀ c, c ∈ columns df' → c ∈ columns df) ∧
  (∀ k, k ≠ column → assoc k (df_columns df') = assoc k (df_columns df)).
Proof.
  unfold drop_column. destruct (decide _); [|done]. intros [= <-].
  unfold columns. simpl. split; [done|]. split; [|split].
  - intros ([k v] & -> & [Hne _]%list_elem_of_filter)%list_elem_of_fmap. done.
  - intros c ([k v] & -> & [_ Hin]%list_elem_of_filter)%list_elem_of_fmap.
    apply list_elem_of_fmap. by exists (k, v).
  - intros k Hk. by apply assoc_filter_ne.
Qed.

(** ** C10: absent cells in the figure_1b pipeline *)

(** An entry that is not positive is below every threshold. *)
Lemma benjamini_hochberg_nonpositive (p : list Q) (alpha : Q) (i : nat) (v : Q) :
  (0 <= alpha)%Q → p !! i = Some v → (v <= 0)%Q →
  (benjamini_hochberg p alpha).1 !! i = Some true.
Proof.
  intros Halpha Hv Hle.
  destruct (sort_idx_position p i) as [k Hk]; [by eapply lookup_lt_Some|].
  rewrite benjamini_hochberg_is_sig, Hv, (benjamini_hochberg_qvals p alpha k i Hk).
  f_equal. apply Qle_bool_iff. eapply Qle_trans; [exact Hle|].
  apply Qmult_le_0_compat; [|done].
  apply Qmult_le_0_compat.
  - change 0%Q with (inject_Z 0). rewrite <- Zle_Qle. lia.
  - apply Qinv_le_0_compat.
    change 0%Q with (inject_Z 0). rewrite <- Zle_Qle. lia.
Qed.

Lemma fdr_correction_item (pvalues : ndarray Q) (alpha : Q) (i j : nat) :
  item (fdr_correction pvalues alpha) i j
  = (benjamini_hochberg (flat pvalues) alpha).1 !! (i * (shape pvalues).2 + j)%nat.
Proof.
  unfold item, fdr_correction. destruct (shape pvalues) as [r c].
  by destruct (benjamini_hochberg (flat pvalues) alpha).
Qed.

Lemma flat_index_inj (c i j i' j' : nat) :
  (j < c)%nat → (j' < c)%nat →
  (i * c + j = i' * c + j')%nat → i = i' ∧ j = j'.
Proof.
  intros Hj Hj' Heq.
  destruct (Nat.lt_trichotomy i i') as [Hlt|[->|Hlt]].
  - assert ((i + 1) * c ≤ i' * c)%nat by (apply Nat.mul_le_mono_r; lia). lia.
  - lia.
  - assert ((i' + 1) * c ≤ i * c)%nat by (apply Nat.mul_le_mono_r; lia). lia.
Qed.

Section absent_cells.

Context {rng : Type} (permutation : rng → list Q → list Q * rng).
Context (data_df : DataFrame) (p_idx a_idx : nat) (pos aa : string).
Context (col : Series string).

Hypothesis Hpos : columns data_df !! p_idx = Some pos.
Hypothesis Haa : aa_from_df data_df !! a_idx = Some aa.
Hypothesis Hcol :
  remove_peptides_with_stopcodon data_df pos (sc_index data_df) (sc_pos data_df)
  = Some col.
Hypothesis Habsent : occurrences aa col = 0%nat.

Lemma cell_untouched (a' p' : nat) (aa' pos' : string) (st st' : state rng) :
  aa_from_df data_df !! a' = Some aa' →
  columns data_df !! p' = Some pos' →
  untouched data_df p_idx a_idx st →
  cell permutation data_df (sc_index data_df) (sc_pos data_df) a' aa' p' pos' st
  = Some st' →
  untouched data_df p_idx a_idx st'.
Proof.
  intros Ha' Hp' [Hshape Hitem] Hcell. unfold cell in Hcell.
  destruct (remove_peptides_with_stopcodon _ pos' _ _) as [df|] eqn:Hdf;
    [|done]. simpl in Hcell.
  destruct (decide _) as [Hzero|Hnz].
  { injection Hcell as <-. done. }
  destruct (enrichment_scores_null _ _ _ _ _ _) as [[[null|] g']|];
    simpl in Hcell; [|done|done].
  injection Hcell as <-. unfold untouched, item, set_item in *. simpl.
  split; [done|].
  rewrite list_lookup_insert_ne; [done|].
  intros Heq. rewrite Hshape in Heq.
  apply flat_index_inj in Heq as [-> ->];
    [|by eapply lookup_lt_Some..].
  rewrite Hpos in Hp'. rewrite Haa in Ha'.
  injection Hp' as <-. injection Ha' as <-.
  rewrite Hcol in Hdf. injection Hdf as <-. by apply Hnz.
Qed.

Lemma analyse_untouched (g : rng) (st : state rng) (mask : ndarray bool) :
  analyse permutation data_df g = Some (st, mask) →
  untouched data_df p_idx a_idx st
  ∧ mask = fdr_correction (pval_raw (out st)) (1 # 10).
Proof.
  unfold analyse. intros Hrun.
  destruct (py.for_each _ _ _) as [st1|] eqn:Hloop; [|done].
  simpl in Hrun. injection Hrun as <- <-. split; [|done].
  revert Hloop. apply for_each_invariant.
  - intros [a' aa'] t t' Ha'%elem_of_enumerate. simpl.
    apply for_each_invariant.
    intros [p' pos'] u u' Hp'%elem_of_enumerate Hu Hcell. simpl in Hcell.
    by eapply cell_untouched.
  - unfold untouched, item, full. simpl. split; [done|].
    apply lookup_replicate_2.
    apply lookup_lt_Some in Hpos, Haa.
    unfold columns in *. rewrite length_fmap in *. nia.
Qed.

End absent_cells.

Lemma null_loop_auc {rng} (permutation : rng → list Q → list Q * rng)
    (trials : nat) (curve : list Q) (acc : list npfloat) (g : rng) :
  ∃ scores g',
    null_loop permutation trials "auc" curve (Scores acc) g
    = Some (Scores scores, g').
Proof.
  revert curve acc g. induction trials as [|k IH]; intros curve acc g.
  - simpl. eauto.
  - cbn [null_loop]. destruct (permutation g curve) as [p g1].
    rewrite decide_True by done. simpl. apply IH.
Qed.

Lemma enrichment_scores_null_auc {rng} (permutation : rng → list Q → list Q * rng)
    (g : rng) (df : Series string) (acid : string) (trials : nat) :
  ∃ scores g',
    enrichment_scores_null permutation g df acid trials "auc"
    = Some (Scores scores, g').
Proof.
  unfold enrichment_scores_null. destruct (value_counts df !! acid); [|eauto].
  apply null_loop_auc.
Qed.

Lemma where_stop_row (df : DataFrame) (r c : nat) :
  (r, c) ∈ where_stop df → (r < length (df_index df))%nat.
Proof.
  unfold where_stop. rewrite list_elem_of_In, in_flat_map.
  intros (r' & Hr%list_elem_of_In%elem_of_seq & Hc%list_elem_of_In).
  apply list_elem_of_omap in Hc as ([i cell] & _ & Hic). simpl in Hic.
  destruct (decide (cell = "*")); [|done]. injection Hic as -> _. lia.
Qed.

(** On a ranked frame the stop-codon filter never raises: the labels it
    drops are row offsets plus one, which are the labels of the frame. *)
Lemma remove_peptides_total (df : DataFrame) (pos : string) :
  ranked_frame df → pos ∈ columns df →
  is_Some (remove_peptides_with_stopcodon df pos (sc_index df) (sc_pos df)).
Proof.
  intros (Hidx & Hlen & Hnum) Hpos. unfold remove_peptides_with_stopcodon.
  unfold getitem.
  destruct (assoc_Some_elem_of pos (df_columns df) Hpos) as [cells Hcells].
  rewrite Hcells. simpl.
  rewrite Forall_forall in Hnum. destruct (Hnum pos Hpos) as [v ->]. simpl.
  destruct (decide _); [|eauto].
  unfold drop_rows. rewrite bool_decide_eq_true_2; [eauto|].
  apply Forall_forall. intros x Hx.
  apply list_elem_of_fmap in Hx as ([x' y] & -> & [_ Hin]%list_elem_of_filter).
  simpl. apply elem_of_zip_l in Hin. unfold sc_index in Hin.
  apply list_elem_of_fmap in Hin as (r & -> & Hr).
  apply list_elem_of_fmap in Hr as ([r' c] & -> & Hrc). simpl.
  apply where_stop_row in Hrc.
  assert (Hcl : length cells = length (df_index df)).
  { rewrite Forall_forall in Hlen.
    apply (Hlen (pos, cells)). by apply assoc_elem_of. }
  unfold index. rewrite fst_zip by lia. rewrite Hidx.
  apply list_elem_of_fmap. exists r'. split; [done|]. apply elem_of_seq. lia.
Qed.

(** On a ranked frame the analysis ends normally, whatever the generator
    does. *)
Lemma analyse_total {rng} (permutation : rng → list Q → list Q * rng)
    (data_df : DataFrame) (g : rng) :
  ranked_frame data_df → is_Some (analyse permutation data_df g).
Proof.
  intros Hranked. unfold analyse.
  match goal with
  | |- is_Some (py.for_each ?l ?body ?s ≫= _) =>
      destruct (for_each_total (λ _, True) l body s) as (st & Hrun & _);
        [|done|by rewrite Hrun]
  end.
  intros [a' aa'] t _ _. simpl. apply for_each_total; [|done].
  intros [p' pos'] u Hp'%elem_of_enumerate _. simpl.
  unfold cell.
  destruct (remove_peptides_total data_df pos' Hranked) as [df ->].
  { by eapply list_elem_of_lookup_2. }
  simpl. destruct (decide _); [eauto|].
  destruct (enrichment_scores_null_auc permutation (gen u) df aa' n_perm)
    as (scores & g' & ->).
  simpl. eauto.
Qed.

(** C10.  On a ranked frame the figure_1b analysis ends normally.  In a
    run that ends normally, take a cell (position [pos] at row [p_idx],
    acid [aa] at column [a_idx]) whose acid does not occur in the
    position's column once the peptides with an earlier stop codon are
    removed.  The cell is skipped: its raw p-value is still the initial
    [0], and the global correction marks it significant.  This is no
    accident of [alpha = 0.1]: an entry [0] of any p-value array is marked
    for every [alpha > 0]. *)
Theorem absent_cell_significant {rng : Type}
    (permutation : rng → list Q → list Q * rng)
    (data_df : DataFrame) (g : rng) :
  (ranked_frame data_df → is_Some (analyse permutation data_df g)) ∧
  (∀ (st : state rng) (mask : ndarray bool)
     (p_idx a_idx : nat) (pos aa : string) (col : Series string),
     analyse permutation data_df g = Some (st, mask) →
     columns data_df !! p_idx = Some pos →
     aa_from_df data_df !! a_idx = Some aa →
     remove_peptides_with_stopcodon data_df pos (sc_index data_df) (sc_pos data_df)
       = Some col →
     occurrences aa col = 0%nat →
     item (pval_raw (out st)) p_idx a_idx = Some 0%Q ∧
     item mask p_idx a_idx = Some true) ∧
  (∀ (pvalues : ndarray Q) (alpha : Q) (i j : nat),
     (0 < alpha)%Q → item pvalues i j = Some 0%Q →
     item (fdr_correction pvalues alpha) i j = Some true).
Proof.
  assert (Hzero : ∀ (pvalues : ndarray Q) (alpha : Q) (i j : nat),
     (0 < alpha)%Q → item pvalues i j = Some 0%Q →
     item (fdr_correction pvalues alpha) i j = Some true).
  { intros pvalues alpha i j Halpha Hij. rewrite fdr_correction_item.
    eapply benjamini_hochberg_nonpositive;
      [by apply Qlt_le_weak|exact Hij|apply Qle_refl]. }
  split; [apply analyse_total|]. split; [|done].
  intros st mask p_idx a_idx pos aa col Hrun Hpos Haa Hcol Habsent.
  destruct (analyse_untouched permutation data_df p_idx a_idx pos aa col
              Hpos Haa Hcol Habsent g st mask Hrun) as [[_ Hitem] ->].
  split; [done|]. by apply Hzero.
Qed.

Lemma ranked_stop_frame : ranked_frame stop_frame.
Proof.
  split; [reflexivity|]. split.
  - repeat constructor.
  - repeat constructor; by eexists.
Qed.

Lemma absent_cell_significant_witness :
  ∃ st mask,
    analyse reversing stop_frame 0%nat = Some (st, mask) ∧
    item (pval_raw (out st)) 1 4 = Some 0%Q ∧
    item mask 1 4 = Some true.
Proof.
  destruct (absent_cell_significant reversing stop_frame 0%nat)
    as (Htotal & Hcell & _).
  destruct (Htotal ranked_stop_frame) as [[st mask] Hrun].
  exists st, mask. split; [done|].
  by apply (Hcell st mask 1%nat 4%nat "Pos02" "D" [(1, "C"); (3, "A")]).
Defined.

(** The run on [stop_frame]: [D] is counted [0] times at [Pos02] after the
    filter, although it stands in the unfiltered column. *)
Example stop_frame_run :
  aa_from_df stop_frame = ["*"; "A"; "B"; "C"; "D"] ∧
  sc_index stop_frame = [2] ∧ sc_pos stop_frame = [1] ∧
  remove_peptides_with_stopcodon stop_frame "Pos02" [2] [1]
    = Some [(1, "C"); (3, "A")] ∧
  (λ r, (item (counts (out r.1)) 1 4, item r.2 1 4))
    <$> analyse reversing stop_frame 0%nat
  = Some (Some 0, Some true).
Proof. repeat split; vm_compute; reflexivity. Qed.

(** [main] of figure_1b on [raw_peptides], with the reversing generator.
    At [Pos11] (row 10 of the arrays) the acid [J] (column 10) is absent:
    count [0], raw p-value [0], marked.  The acid [K] (column 11) fills the
    two rows left by the filter: count [2], raw p-value [1], not marked. *)
Example figure_1b_main_run :
  ∃ q,
    (λ r, (item (counts (out r.1)) 10 10, item (pval_raw (out r.1)) 10 10,
           item r.2 10 10,
           item (counts (out r.1)) 10 11, item (pval_raw (out r.1)) 10 11,
           item r.2 10 11))
      <$> figure_1b.main reversing raw_peptides 0%nat
    = Some (Some 0, Some 0%Q, Some true, Some 2, Some q, Some false)
    ∧ (q == 1)%Q.
Proof. eexists. split; [vm_compute; reflexivity|reflexivity]. Qed.

(** ** C8: pairwise conditional scan *)

Lemma elem_of_sorted_keys {V} (d : gmap string V) (k : string) :
  k ∈ sorted_keys d ↔ is_Some (d !! k).
Proof.
  unfold sorted_keys. rewrite sorted_Permutation, list_elem_of_fmap. split.
  - intros ([k' v] & -> & Hkv%elem_of_map_to_list). eauto.
  - intros [v Hv]. exists (k, v). split; [done|]. by apply elem_of_map_to_list.
Qed.

Lemma get_all_scores_scores_of (df : DataFrame) (mode : string) scores :
  get_all_scores df mode = Some scores → scores_of df mode scores.
Proof.
  unfold get_all_scores. apply for_each_invariant.
  - intros position t t' Hpos Ht. apply for_each_invariant.
    + intros a u u' Haa Hu Hbody.
      destruct (getitem df position) as [column|] eqn:Hcol; [|done].
      simpl in Hbody.
      destruct (score column a mode) as [v|] eqn:Hv; [|done].
      injection Hbody as <-. intros k inner Hk.
      destruct (decide (k = position)) as [->|Hne].
      * rewrite lookup_alter_eq in Hk.
        destruct (u !! position) as [inner0|] eqn:Hin; [|done].
        injection Hk as <-. destruct (Hu position inner0 Hin) as [Hp Hin0].
        split; [done|]. intros a' v' Ha'.
        destruct (decide (a' = a)) as [->|Hne].
        -- rewrite lookup_insert_eq in Ha'. injection Ha' as <-. eauto.
        -- rewrite lookup_insert_ne in Ha' by done. by apply Hin0.
      * rewrite lookup_alter_ne in Hk by done. by apply Hu.
    + intros k inner Hk. destruct (decide (k = position)) as [->|Hne].
      * rewrite lookup_insert_eq in Hk. injection Hk as <-.
        split; [done|]. intros a v Ha. by rewrite lookup_empty in Ha.
      * rewrite lookup_insert_ne in Hk by done. by apply Ht.
  - intros k inner Hk. by rewrite lookup_empty in Hk.
Qed.

Lemma select_mask_index (a : string) (idx : list Z) (cells : list string) :
  select ((λ v, bool_decide (v = a)) <$> values (zip idx cells)) idx
  = (filter (λ row : Z * string, row.2 = a) (zip idx cells)).*1.
Proof.
  unfold select, values. revert cells.
  induction idx as [|i idx IH]; intros [|c cells]; try done.
  simpl. rewrite !filter_cons. simpl.
  destruct (decide (c = a)) as [->|Hne].
  - rewrite bool_decide_eq_true_2 by done.
    rewrite decide_True by done. simpl. f_equal. apply IH.
  - rewrite bool_decide_eq_false_2 by done.
    rewrite decide_False by done. apply IH.
Qed.

Lemma condition_on_spec (df df' : DataFrame) (position1 acid1 : string) :
  condition_on df position1 acid1 = Some df' →
  ∃ column,
    getitem df position1 = Some column ∧
    df_index df' = (filter (λ row : Z * string, row.2 = acid1) column).*1 ∧
    columns df' = filter (λ c, c ≠ position1) (columns df) ∧
    position1 ∉ columns df'.
Proof.
  unfold condition_on. intros Hc.
  destruct (getitem df position1) as [column|] eqn:Hcol; [|done].
  simpl in Hc. exists column. split; [done|].
  unfold drop_column in Hc. destruct (decide _) as [_|]; [|done].
  injection Hc as <-. unfold columns. simpl.
  assert (Hcols : (filter (λ c : string * list string, c.1 ≠ position1)
            ((λ c, (c.1, select ((λ v, bool_decide (v = acid1)) <$> values column) c.2))
               <$> df_columns df)).*1
          = filter (λ c, c ≠ position1) (df_columns df).*1).
  { induction (df_columns df) as [|[k cells] l IH]; [done|].
    rewrite !fmap_cons, !filter_cons. cbn [fst].
    destruct (decide (k ≠ position1)); rewrite ?fmap_cons, IH; done. }
  split; [|split; [done|]].
  - unfold getitem in Hcol.
    destruct (assoc position1 (df_columns df)) as [cells|]; [|done].
    injection Hcol as <-. apply select_mask_index.
  - rewrite Hcols. intros [Hne _]%list_elem_of_filter. done.
Qed.

Lemma scan_records (df : DataFrame) (mode : string) interactions :
  scan df mode = Some interactions →
  ∃ original_scores,
    get_all_scores df mode = Some original_scores ∧
    Forall (conditional_record df mode original_scores) interactions.
Proof.
  unfold scan. intros Hscan.
  destruct (get_all_scores df mode) as [original_scores|]; [|done].
  simpl in Hscan. exists original_scores. split; [done|].
  revert Hscan. apply for_each_invariant; [|constructor].
  intros position1 t1 t1' _ Ht1 Hbody1.
  destruct (original_scores !! position1) as [inner|]; [|done].
  simpl in Hbody1. revert Hbody1. apply for_each_invariant; [|done].
  clear t1 t1' Ht1. intros acid1 t2 t2' _ Ht2 Hbody2.
  destruct (condition_on df position1 acid1) as [df_filtered|] eqn:Hcond;
    [|done]. simpl in Hbody2.
  destruct (get_all_scores df_filtered mode) as [filtered_scores|] eqn:Hfilt;
    [|done]. simpl in Hbody2.
  revert Hbody2. apply for_each_invariant; [|done].
  clear t2 t2' Ht2. intros position2 t3 t3' _ Ht3 Hbody3.
  destruct (filtered_scores !! position2) as [inner2|]; [|done].
  simpl in Hbody3. revert Hbody3. apply for_each_invariant; [|done].
  clear t3 t3' Ht3. intros acid2 t4 t4' _ Ht4 Hemit.
  unfold emit in Hemit.
  destruct (lookup2 filtered_scores position2 acid2) as [score2|] eqn:H2;
    [|done]. simpl in Hemit.
  destruct (lookup2 original_scores position2 acid2) as [original|] eqn:H1;
    [|done]. simpl in Hemit. injection Hemit as <-.
  apply Forall_app. split; [done|]. constructor; [|constructor].
  exists df_filtered, filtered_scores. simpl. done.
Qed.

Lemma get_all_scores_auc (df : DataFrame) :
  ∃ scores,
    get_all_scores df "auc" = Some scores ∧
    ∀ position a, position ∈ columns df → a ∈ aa_from_df df →
                  is_Some (lookup2 scores position a).
Proof.
  unfold get_all_scores.
  apply (for_each_progress
           (λ pre scores, ∀ position a, position ∈ pre → a ∈ aa_from_df df →
                                        is_Some (lookup2 scores position a))).
  - intros pre position t Hpos Ht.
    destruct (getitem_is_Some df position Hpos) as [column Hcol].
    destruct (for_each_progress
                (λ pre_a u, (∀ k, k ≠ position → u !! k = t !! k) ∧
                   ∃ inner, u !! position = Some inner ∧
                            ∀ a, a ∈ pre_a → is_Some (inner !! a))
                (aa_from_df df)
                (λ a scores,
                   column ← getitem df position;
                   v ← score column a "auc";
                   Some (alter (λ inner, <[a := v]> inner) position scores))
                (<[position := ∅]> t)) as (t' & Hrun & Hother & inner & Hin & Hall).
    + intros pre_a a u _ (Hother & inner & Hin & Hall).
      rewrite Hcol. simpl. eexists. split; [done|]. split.
      * intros k Hk. rewrite lookup_alter_ne by done. by apply Hother.
      * exists (<[a := enrichment_auc (enrichment_curves column a)]> inner).
        rewrite lookup_alter_eq, Hin. split; [done|].
        intros a' [Ha'|Ha'%list_elem_of_singleton]%elem_of_app.
        -- destruct (decide (a' = a)) as [->|Hne].
           ++ rewrite lookup_insert_eq. eauto.
           ++ rewrite lookup_insert_ne by done. by apply Hall.
        -- subst. rewrite lookup_insert_eq. eauto.
    + split.
      * intros k Hk. by rewrite lookup_insert_ne.
      * exists ∅. rewrite lookup_insert_eq. split; [done|].
        by intros a ?%elem_of_nil.
    + exists t'. split; [done|].
      intros position' a Hp' Ha. unfold lookup2.
      destruct (decide (position' = position)) as [->|Hne].
      * rewrite Hin. simpl. by apply Hall.
      * rewrite Hother by done.
        apply elem_of_app in Hp' as [Hp'|Hp'%list_elem_of_singleton]; [|done].
        by apply Ht.
  - by intros position a ?%elem_of_nil.
Qed.

Lemma elem_of_select {A} (mask : list bool) (l : list A) (v : A) :
  v ∈ select mask l → ∃ i, mask !! i = Some true ∧ l !! i = Some v.
Proof.
  unfold select.
  intros ([b v'] & -> & [Hb Hin]%list_elem_of_filter)%list_elem_of_fmap.
  simpl in Hb. subst b.
  apply list_elem_of_lookup in Hin as [i Hi].
  apply lookup_zip_with_Some in Hi as (b & v & [= <- <-] & Hm & Hl). eauto.
Qed.

Lemma elem_of_flatten_values (df : DataFrame) (v : string) :
  v ∈ flatten_values df ↔
  ∃ r c, (r < length (df_index df))%nat ∧ c ∈ df_columns df ∧ c.2 !! r = Some v.
Proof.
  unfold flatten_values, row.
  rewrite list_elem_of_In, in_flat_map. split.
  - intros (r & Hr%list_elem_of_In%elem_of_seq & Hv%list_elem_of_In).
    apply list_elem_of_omap in Hv as (c & Hc & Hcv).
    exists r, c. split; [lia|done].
  - intros (r & c & Hr & Hc & Hcv). exists r. split.
    + apply list_elem_of_In, elem_of_seq. lia.
    + apply list_elem_of_In, list_elem_of_omap. eauto.
Qed.

Lemma elem_of_aa_from_df (df : DataFrame) (v : string) :
  v ∈ aa_from_df df ↔ v ∈ flatten_values df.
Proof.
  unfold aa_from_df. by rewrite sorted_Permutation, elem_of_remove_dups.
Qed.

Lemma condition_on_acids (df df' : DataFrame) (position1 acid1 v : string) :
  condition_on df position1 acid1 = Some df' →
  v ∈ aa_from_df df' → v ∈ aa_from_df df.
Proof.
  unfold condition_on. intros Hc.
  destruct (getitem df position1) as [column|] eqn:Hcol; [|done].
  simpl in Hc. unfold drop_column in Hc. destruct (decide _); [|done].
  injection Hc as <-. rewrite !elem_of_aa_from_df, !elem_of_flatten_values.
  simpl. intros (r & c & _ & Hc & Hv).
  apply list_elem_of_filter in Hc as [_ Hc].
  apply list_elem_of_fmap in Hc as ([k cells] & -> & Hin). simpl in Hv.
  assert (Hsel : v ∈ select ((λ v, bool_decide (v = acid1)) <$> values column) cells)
    by (by eapply list_elem_of_lookup_2).
  apply elem_of_select in Hsel as (i & Hmask & Hi).
  exists i, (k, cells). split; [|done].
  apply lookup_lt_Some in Hmask.
  unfold getitem in Hcol.
  destruct (assoc position1 (df_columns df)) as [cells1|]; [|done].
  injection Hcol as <-. unfold values in Hmask.
  rewrite !length_fmap, length_zip_with in Hmask. lia.
Qed.

Lemma scan_auc_total (df : DataFrame) : is_Some (scan df "auc").
Proof.
  unfold scan.
  destruct (get_all_scores_auc df) as (original_scores & Horig & Hcomplete).
  rewrite Horig. simpl.
  pose proof (get_all_scores_scores_of _ _ _ Horig) as Hso.
  destruct (for_each_total (λ _, True) (sorted_keys original_scores)
              (λ position1 interactions,
                 inner ← original_scores !! position1;
                 py.for_each (sorted_keys inner)
                   (λ acid1 interactions,
                      df_filtered ← condition_on df position1 acid1;
                      filtered_scores ← get_all_scores df_filtered "auc";
                      py.for_each (sorted_keys filtered_scores)
                        (λ position2 interactions,
                           inner2 ← filtered_scores !! position2;
                           py.for_each (sorted_keys inner2)
                             (λ acid2, emit original_scores filtered_scores
                                            position1 acid1 position2 acid2)
                             interactions)
                        interactions)
                   interactions)
              []) as (out & Hrun & _); [|done|by rewrite Hrun].
  intros position1 t1 [inner Hinner]%elem_of_sorted_keys _.
  rewrite Hinner. simpl.
  destruct (Hso _ _ Hinner) as [Hp1 _].
  apply for_each_total; [|done]. clear t1. intros acid1 t2 _ _.
  assert (Hcond : is_Some (condition_on df position1 acid1)).
  { unfold condition_on.
    destruct (getitem_is_Some df position1 Hp1) as [column ->]. simpl.
    unfold drop_column. rewrite decide_True; [eauto|].
    unfold columns, loc in *. simpl. rewrite <- list_fmap_compose.
    by erewrite list_fmap_ext; [exact Hp1|]. }
  destruct Hcond as [df_filtered Hcond]. rewrite Hcond. simpl.
  destruct (get_all_scores_auc df_filtered) as (filtered_scores & Hfilt & _).
  rewrite Hfilt. simpl.
  pose proof (get_all_scores_scores_of _ _ _ Hfilt) as Hsf.
  destruct (condition_on_spec _ _ _ _ Hcond) as (_ & _ & _ & Hcols & _).
  apply for_each_total; [|done]. clear t2.
  intros position2 t3 [inner2 Hinner2]%elem_of_sorted_keys _.
  rewrite Hinner2. simpl. destruct (Hsf _ _ Hinner2) as [Hp2 Hv2].
  apply for_each_total; [|done]. clear t3.
  intros acid2 t4 [score2 Hscore2]%elem_of_sorted_keys _.
  destruct (Hv2 _ _ Hscore2) as [Ha2 _].
  assert (H2 : lookup2 filtered_scores position2 acid2 = Some score2).
  { unfold lookup2. by rewrite Hinner2. }
  unfold emit. rewrite H2. simpl.
  destruct (Hcomplete position2 acid2) as [original ->].
  - rewrite Hcols in Hp2. by apply list_elem_of_filter in Hp2 as [_ ?].
  - by eapply condition_on_acids.
  - simpl. eauto.
Qed.

(** C8.  The scan in the script's mode ['auc'] ends normally on every
    frame.  In a scan that ends normally, in any mode, every emitted
    record belongs to a conditioning pair [(position1, acid1)] (its fields
    ['Position 2'] and ['AA2']): the filtered frame has the rows of the
    whole frame at which [position1] holds [acid1], and its columns
    without [position1]; the record's conditioned score is the score of
    [(position2, acid2)] on the filtered frame, its original score the one
    on the whole frame, its delta the first minus the second; and
    [position2] (the field ['Position 1']) is never [position1]. *)
Theorem scan_spec (df : DataFrame) :
  is_Some (scan df "auc") ∧
  ∀ (mode : string) (interactions : list interaction),
  scan df mode = Some interactions →
  ∃ original_scores,
    get_all_scores df mode = Some original_scores ∧
    ∀ r, r ∈ interactions →
      ∃ df_filtered filtered_scores column1 column2 column2',
        getitem df (Position_2 r) = Some column1 ∧
        condition_on df (Position_2 r) (AA2 r) = Some df_filtered ∧
        df_index df_filtered
          = (filter (λ row : Z * string, row.2 = AA2 r) column1).*1 ∧
        columns df_filtered = filter (λ c, c ≠ Position_2 r) (columns df) ∧
        get_all_scores df_filtered mode = Some filtered_scores ∧
        lookup2 filtered_scores (Position_1 r) (AA1 r)
          = Some (AUC_AA1_given_AA2 r) ∧
        getitem df_filtered (Position_1 r) = Some column2 ∧
        score column2 (AA1 r) mode = Some (AUC_AA1_given_AA2 r) ∧
        lookup2 original_scores (Position_1 r) (AA1 r) = Some (AUC_AA1 r) ∧
        getitem df (Position_1 r) = Some column2' ∧
        score column2' (AA1 r) mode = Some (AUC_AA1 r) ∧
        Delta_AUC r = fsub (AUC_AA1_given_AA2 r) (AUC_AA1 r) ∧
        Position_1 r ≠ Position_2 r.
Proof.
  split; [apply scan_auc_total|]. intros mode interactions Hscan.
  destruct (scan_records df mode interactions Hscan)
    as (original_scores & Horig & Hall).
  exists original_scores. split; [done|]. intros r Hr.
  rewrite Forall_forall in Hall.
  destruct (Hall r Hr) as (df_filtered & filtered_scores & Hcond & Hfilt
                           & H2 & H1 & Hdelta).
  destruct (condition_on_spec _ _ _ _ Hcond) as (column1 & Hc1 & Hidx & Hcols & Hnot).
  pose proof (get_all_scores_scores_of _ _ _ Hfilt) as Hsf.
  pose proof (get_all_scores_scores_of _ _ _ Horig) as Hso.
  unfold lookup2 in H1, H2.
  destruct (filtered_scores !! Position_1 r) as [inner2|] eqn:Hin2; [|done].
  destruct (original_scores !! Position_1 r) as [inner1|] eqn:Hin1; [|done].
  simpl in H1, H2.
  destruct (Hsf _ _ Hin2) as [Hp2 Hv2].
  destruct (Hv2 _ _ H2) as (_ & column2 & ? & ?).
  destruct (Hso _ _ Hin1) as [Hp1 Hv1].
  destruct (Hv1 _ _ H1) as (_ & column2' & ? & ?).
  exists df_filtered, filtered_scores, column1, column2, column2'.
  unfold lookup2. rewrite Hin2, Hin1. simpl.
  repeat (split; [done|]).
  intros Heq. rewrite Heq in Hp2. done.
Qed.

Lemma scan_spec_witness :
  ∃ original_scores,
    get_all_scores pair_frame "auc" = Some original_scores ∧
    ∀ r, r ∈ pair_interactions →
      ∃ df_filtered filtered_scores column1 column2 column2',
        getitem pair_frame (Position_2 r) = Some column1 ∧
        condition_on pair_frame (Position_2 r) (AA2 r) = Some df_filtered ∧
        df_index df_filtered
          = (filter (λ row : Z * string, row.2 = AA2 r) column1).*1 ∧
        columns df_filtered
          = filter (λ c, c ≠ Position_2 r) (columns pair_frame) ∧
        get_all_scores df_filtered "auc" = Some filtered_scores ∧
        lookup2 filtered_scores (Position_1 r) (AA1 r)
          = Some (AUC_AA1_given_AA2 r) ∧
        getitem df_filtered (Position_1 r) = Some column2 ∧
        score column2 (AA1 r) "auc" = Some (AUC_AA1_given_AA2 r) ∧
        lookup2 original_scores (Position_1 r) (AA1 r) = Some (AUC_AA1 r) ∧
        getitem pair_frame (Position_1 r) = Some column2' ∧
        score column2' (AA1 r) "auc" = Some (AUC_AA1 r) ∧
        Delta_AUC r = fsub (AUC_AA1_given_AA2 r) (AUC_AA1 r) ∧
        Position_1 r ≠ Position_2 r.
Proof.
  apply (proj2 (scan_spec pair_frame) "auc" pair_interactions).
  vm_compute. reflexivity.
Defined.

(** The first record of the run: conditioning on [A] at [Pos05] keeps the
    peptides 1 and 2, where [C] at [Pos18] scores [1/2] against [1/4] on the
    whole frame. *)
Example pair_frame_first_record :
  ∃ r, pair_interactions !! 0%nat = Some r ∧ length pair_interactions = 8%nat ∧
       AA1 r = "C" ∧ Position_1 r = "Pos18" ∧
       AA2 r = "A" ∧ Position_2 r = "Pos05" ∧
       (∃ x, AUC_AA1 r = Fin x ∧ (x == 1 # 4)%Q) ∧
       (∃ x, AUC_AA1_given_AA2 r = Fin x ∧ (x == 1 # 2)%Q) ∧
       (∃ x, Delta_AUC r = Fin x ∧ (x == 1 # 4)%Q) ∧
       condition_on pair_frame "Pos05" "A"
       = Some {| df_index := [1; 2]; df_columns := [("Pos18", ["C"; "D"])] |}.
Proof.
  eexists. split; [vm_compute; reflexivity|]. simpl.
  repeat split; try reflexivity; eexists; (split; [reflexivity|reflexivity]).
Qed.

(** In mode ['max'] the scan of [pair_frame] raises: [A] does not occur
    at [Pos18], and [enrichment_score] fails on the empty curve. *)
Example pair_frame_max_raises : scan pair_frame "max" = None.
Proof. reflexivity. Qed.

(** [main] of suppl_table_5 on [raw_peptides]: 36 records. *)
Example suppl_table_5_main_run :
  length <$> suppl_table_5.main raw_peptides = Some 36%nat.
Proof. vm_compute. reflexivity. Qed.

(** ** C9: the loader and its column labels *)

Example strip_examples :
  py.strip "Pos" "Pos06" = "06" ∧ py.strip "Pos" "sPos12oP" = "12" ∧
  py.strip "Pos" "Pos" = "" ∧ py.strip "Pos" "1Pos2" = "1Pos2".
Proof. repeat split; reflexivity. Qed.

Lemma lstrip_avoids chars s : avoids chars s → py.lstrip chars s = s.
Proof. destruct s as [|c s]; [done|]. simpl. by intros [-> _]. Qed.

Lemma rstrip_avoids chars s : avoids chars s → py.rstrip chars s = s.
Proof.
  induction s as [|c s IH]; [done|]. simpl. intros [Hc Hs].
  rewrite IH by done. destruct s; [by rewrite Hc|done].
Qed.

Lemma string_of_uint_avoids (d : Decimal.uint) :
  avoids "Pos" (NilEmpty.string_of_uint d).
Proof. induction d; simpl; auto. Qed.

Lemma to_uint_nonnil (n : nat) : Nat.to_uint n ≠ Decimal.Nil.
Proof.
  intros Hnil. pose proof (Unsigned.of_to n) as Hn. rewrite Hnil in Hn.
  simpl in Hn. subst n. discriminate Hnil.
Qed.

Lemma int_str (n : nat) : py.int (py.str n) = Some (Z.of_nat n).
Proof.
  unfold py.int, py.str.
  destruct (NilEmpty.string_of_uint (Nat.to_uint n)) eqn:E.
  - destruct (Nat.to_uint n) eqn:En; try discriminate E.
    by apply to_uint_nonnil in En.
  - rewrite <- E, NilEmpty.usu. simpl. by rewrite Unsigned.of_to.
Qed.

Lemma int_zero_str (n : nat) : py.int ("0" +:+ py.str n) = Some (Z.of_nat n).
Proof.
  unfold py.str.
  change ("0" +:+ NilEmpty.string_of_uint (Nat.to_uint n))
    with (NilEmpty.string_of_uint (Decimal.D0 (Nat.to_uint n))).
  unfold py.int.
  destruct (NilEmpty.string_of_uint (Decimal.D0 (Nat.to_uint n))) eqn:E;
    [discriminate E|].
  rewrite <- E, NilEmpty.usu. simpl.
  change (Nat.of_uint (Decimal.D0 (Nat.to_uint n)))
    with (Nat.of_uint (Nat.to_uint n)).
  by rewrite Unsigned.of_to.
Qed.

(** The number that [remove_peptides_with_stopcodon] reads off a label
    made by [load] is the 1-based position, also for the label
    ['Pos010'] of the index [9]. *)
Lemma col_value_pos_label (p : nat) :
  col_value (pos_label p) = Some (Z.of_nat (p + 1)).
Proof.
  unfold col_value, pos_label, py.strip.
  pose proof (string_of_uint_avoids (Nat.to_uint (p + 1))) as Hd.
  fold (py.str (p + 1)) in Hd.
  destruct (decide (p < 10)%nat) as [_|_].
  - change ("Pos0" +:+ py.str (p + 1))
      with ("Pos" +:+ ("0" +:+ py.str (p + 1))).
    change (py.lstrip "Pos" ("Pos" +:+ ("0" +:+ py.str (p + 1))))
      with ("0" +:+ py.str (p + 1)).
    rewrite rstrip_avoids by (by split). apply int_zero_str.
  - change (py.lstrip "Pos" ("Pos" +:+ py.str (p + 1)))
      with (py.lstrip "Pos" (py.str (p + 1))).
    rewrite lstrip_avoids, rstrip_avoids by done. apply int_str.
Qed.

Lemma pos_label_inj (p q : nat) : pos_label p = pos_label q → p = q.
Proof.
  intros Heq. pose proof (col_value_pos_label p) as Hp.
  rewrite Heq, col_value_pos_label in Hp. injection Hp. lia.
Qed.

Lemma pos_label_not_dropped (p : nat) :
  (pos_label p ≠ "Sequence") ∧ (pos_label p ≠ "shrunken.log2.fold.change")
  ∧ (pos_label p ≠ "ID").
Proof. unfold pos_label. destruct (decide _); repeat split; discriminate. Qed.

(** What [load] does for every list of offsets: the row labels are kept
    in their order, the three columns [Sequence], [shrunken.log2.fold.change]
    and [ID] are gone, and for every requested offset [p] the column
    labelled [pos_label p] holds, row by row, the character at offset [p]
    of the peptide's sequence. *)
Lemma load_spec (raw df : DataFrame) (positions : list nat) :
  load raw positions = Some df →
  df_index df = df_index raw ∧
  ("Sequence" ∉ columns df) ∧
  ("shrunken.log2.fold.change" ∉ columns df) ∧
  ("ID" ∉ columns df) ∧
  ∀ p, p ∈ positions →
    ∃ sequences cells,
      getitem raw "Sequence" = Some sequences ∧
      getitem df (pos_label p) = Some (zip (df_index raw) cells) ∧
      Forall2 (λ x cell, ∃ c, String.get p x = Some c ∧ cell = String c EmptyString)
              (values sequences) cells.
Proof.
  unfold load. intros Hload.
  destruct (py.for_each _ _ _) as [df1|] eqn:Hloop; [|done]. simpl in Hload.
  destruct (drop_column "Sequence" df1) as [df2|] eqn:H2; [|done]. simpl in Hload.
  destruct (drop_column "shrunken.log2.fold.change" df2) as [df3|] eqn:H3;
    [|done]. simpl in Hload.
  apply drop_column_spec in H2 as (Hi2 & Hn2 & Hsub2 & Ha2).
  apply drop_column_spec in H3 as (Hi3 & Hn3 & Hsub3 & Ha3).
  apply drop_column_spec in Hload as (Hi4 & Hn4 & Hsub4 & Ha4).
  assert (Hinv : df_index df1 = df_index raw ∧
            assoc "Sequence" (df_columns df1) = assoc "Sequence" (df_columns raw) ∧
            ∀ p, p ∈ positions →
              ∃ cells, assoc (pos_label p) (df_columns df1) = Some cells ∧
                       sequence_at raw p = Some cells).
  { revert Hloop.
    apply (for_each_invariant_prefix
             (λ pre t, df_index t = df_index raw ∧
                assoc "Sequence" (df_columns t) = assoc "Sequence" (df_columns raw) ∧
                ∀ p, p ∈ pre →
                  ∃ cells, assoc (pos_label p) (df_columns t) = Some cells ∧
                           sequence_at raw p = Some cells)).
    - intros pre p t t' (Hidx & Hseq & Hpre) Hbody.
      destruct (sequence_at t p) as [cells|] eqn:Hcells; [|done].
      injection Hbody as <-. simpl.
      assert (Hraw : sequence_at raw p = Some cells).
      { unfold sequence_at, getitem in *. by rewrite <- Hseq, <- Hidx. }
      destruct (pos_label_not_dropped p) as (Hne & _).
      split; [done|]. split; [by rewrite assoc_set_ne|].
      intros q Hq. destruct (decide (pos_label q = pos_label p)) as [Heq|Hneq].
      + apply pos_label_inj in Heq as ->. exists cells.
        by rewrite assoc_set_eq.
      + rewrite assoc_set_ne by done. apply Hpre.
        apply elem_of_app in Hq as [?|Hq%list_elem_of_singleton]; [done|].
        by subst.
    - split; [done|]. split; [done|]. by intros p ?%elem_of_nil. }
  destruct Hinv as (Hidx & Hseq & Hcols).
  split; [congruence|]. split; [by auto|]. split; [by auto|]. split; [done|].
  intros p Hp. destruct (Hcols p Hp) as (cells & Hassoc & Hat).
  destruct (pos_label_not_dropped p) as (Hne1 & Hne2 & Hne3).
  unfold sequence_at in Hat.
  destruct (getitem raw "Sequence") as [sequences|] eqn:Hget; [|done].
  simpl in Hat. apply mapM_Some in Hat.
  exists sequences, cells. split; [done|]. split.
  - unfold getitem. rewrite Ha4, Ha3, Ha2, Hassoc by done. simpl.
    congruence.
  - eapply Forall2_impl; [exact Hat|]. intros x cell Hx. simpl in Hx.
    destruct (String.get p x) as [c|]; [|done]. injection Hx as <-. eauto.
Qed.

(** Up to the index [8] the label has two digits, the first a zero; from
    the index [10] to [98] it has two digits again. *)
Lemma pos_label_two_digits (p : nat) :
  (p < 99)%nat → p ≠ 9%nat → String.length (pos_label p) = 5%nat.
Proof.
  intros Hp Hne. do 99 (destruct p as [|p]; [done || reflexivity|]). lia.
Qed.

(** C9, at the failing input.  For the requested index [9] the loader
    takes the branch [p < 10] and builds the label ['Pos010']: three
    digits, where the claim has two.  The label is among those of the
    default positions [range(23)]. *)
Theorem load_label_three_digits :
  pos_label 9 = "Pos010" ∧
  String.length (strip "Pos" (pos_label 9)) = 3%nat ∧
  load raw_table [0; 9; 10]%nat
  = Some {| df_index := [1; 2];
            df_columns := [("Pos01", ["A"; "M"]);
                           ("Pos010", ["J"; "V"]);
                           ("Pos11", ["K"; "W"])] |} ∧
  columns <$> load raw_peptides (seq 0 23)
  = Some ["Pos01"; "Pos02"; "Pos03"; "Pos04"; "Pos05"; "Pos06"; "Pos07";
          "Pos08"; "Pos09"; "Pos010"; "Pos11"; "Pos12"; "Pos13"; "Pos14";
          "Pos15"; "Pos16"; "Pos17"; "Pos18"; "Pos19"; "Pos20"; "Pos21";
          "Pos22"; "Pos23"].
Proof. repeat split; vm_compute; reflexivity. Qed.

(* ===================================================================== *)
(** * Part IV: further properties of the code                             *)
(* ===================================================================== *)

(** ** Bounds of running sums *)























(** ** Empirical p-values *)

Lemma length_filter_mono {A} (P1 P2 : A → Prop)
    `{!∀ x, Decision (P1 x)} `{!∀ x, Decision (P2 x)} (l : list A) :
  (∀ x, x ∈ l → P1 x → P2 x) →
  (length (filter P1 l) ≤ length (filter P2 l))%nat.
Proof.
  induction l as [|x l IH]; intros HP; [done|].
  rewrite !filter_cons.
  assert (Hx : P1 x → P2 x) by (apply HP; left).
  assert (Hl : (length (filter P1 l) ≤ length (filter P2 l))%nat).
  { apply IH. intros y Hy. apply HP. by right. }
  destruct (decide (P1 x)), (decide (P2 x)); cbn [length]; tauto || lia.
Qed.

Lemma twosided_pvalue_count (obs : npfloat) (null : list npfloat) :
  null ≠ [] →
  twosided_pvalue obs null
  = (inject_Z (Z.of_nat (length (filter (λ x, fge (fabs x) (fabs obs) = true) null)))
     / inject_Z (Z.of_nat (length null)))%Q.
Proof.
  intros Hne. unfold twosided_pvalue.
  destruct (decide (length null = 0%nat)) as [E|_]; [|done].
  destruct null; simplify_eq/=.
Qed.

Lemma Qdiv_nat_le (a b c : nat) :
  (0 < c)%nat → (a ≤ b)%nat →
  (inject_Z (Z.of_nat a) / inject_Z (Z.of_nat c)
   <= inject_Z (Z.of_nat b) / inject_Z (Z.of_nat c))%Q.
Proof.
  intros Hc Hab. unfold Qdiv. apply Qmult_le_compat_r.
  - rewrite <- Zle_Qle. lia.
  - apply Qinv_le_0_compat. change 0%Q with (inject_Z 0). rewrite <- Zle_Qle. lia.
Qed.

(** X3.  A two-sided p-value lies between [0] and [1], whatever the
    observation and the null values ([nan] included).  It is [0] exactly
    when the null list is non-empty and none of its values is as extreme
    as the observation: no pseudo-count keeps it away from [0].  In
    particular an observation that is [nan] gets the p-value [0] on every
    non-empty null list. *)
Theorem twosided_pvalue_bounded (obs : npfloat) (null : list npfloat) :
  (0 <= twosided_pvalue obs null)%Q ∧ (twosided_pvalue obs null <= 1)%Q ∧
  ((twosided_pvalue obs null == 0)%Q ↔
   null ≠ [] ∧ Forall (λ x, fge (fabs x) (fabs obs) = false) null) ∧
  (null ≠ [] → (twosided_pvalue NaN null == 0)%Q).
Proof.
  assert (Hnan : null ≠ [] → (twosided_pvalue NaN null == 0)%Q).
  { intros Hne. rewrite twosided_pvalue_nan by done. unfold Qdiv. apply Qmult_0_l. }
  destruct null as [|x0 l].
  { split; [done|]. split; [done|]. split; [|done]. split; [done|].
    by intros [? _]. }
  set (null := x0 :: l).
  rewrite twosided_pvalue_count by done.
  set (P := λ x, fge (fabs x) (fabs obs) = true).
  assert (Hlen : (0 < length null)%nat) by (simpl; lia).
  assert (Hcnt : (length (filter P null) ≤ length null)%nat) by apply length_filter.
  assert (Hden : ¬ (inject_Z (Z.of_nat (length null)) == 0)%Q).
  { change 0%Q with (inject_Z 0). rewrite inject_Z_injective. lia. }
  split; [|split; [|split; [|done]]].
  - pose proof (Qdiv_nat_le 0 (length (filter P null)) (length null) Hlen) as H.
    change (inject_Z (Z.of_nat 0)) with 0%Q in H. unfold Qdiv at 1 in H.
    rewrite Qmult_0_l in H. apply H. lia.
  - pose proof (Qdiv_nat_le _ _ (length null) Hlen Hcnt) as H.
    eapply Qle_trans; [exact H|]. apply Qle_lteq. right. by field.
  - split.
    + intros H0. split; [done|].
      assert (Hz : length (filter P null) = 0%nat).
      { assert (E : (inject_Z (Z.of_nat (length (filter P null)))
                     == inject_Z (Z.of_nat (length (filter P null)))
                        / inject_Z (Z.of_nat (length null))
                        * inject_Z (Z.of_nat (length null)))%Q) by (by field).
        rewrite H0, Qmult_0_l in E. change 0%Q with (inject_Z 0) in E.
        rewrite inject_Z_injective in E. lia. }
      apply length_zero_iff_nil in Hz.
      apply Forall_forall. intros x Hx.
      destruct (fge (fabs x) (fabs obs)) eqn:E; [|done].
      assert (Hin : x ∈ filter P null) by (by apply list_elem_of_filter).
      rewrite Hz in Hin. by apply elem_of_nil in Hin.
    + intros [_ Hall].
      assert (Hz : filter P null = []).
      { apply elem_of_nil_inv. intros x [Hx Hin]%list_elem_of_filter.
        rewrite Forall_forall in Hall. specialize (Hall x Hin).
        unfold P in Hx. congruence. }
      rewrite Hz. simpl. unfold Qdiv. apply Qmult_0_l.
Qed.

Lemma twosided_pvalue_bounded_witness :
  (twosided_pvalue NaN [Fin 1; Fin (- (1 # 2))] == 0)%Q.
Proof. by apply (twosided_pvalue_bounded NaN [Fin 1; Fin (- (1 # 2))]). Defined.

Lemma fge_fabs_le (o1 o2 : Q) (x : npfloat) :
  (Qabs o1 <= Qabs o2)%Q →
  fge (fabs x) (fabs (Fin o2)) = true → fge (fabs x) (fabs (Fin o1)) = true.
Proof.
  intros Hle. destruct x as [q|]; [|done]. simpl.
  rewrite !Qle_bool_iff. intros H. by eapply Qle_trans.
Qed.

(** X4.  The p-value is two-sided and antitone: the sign of the
    observation does not matter, and of two observations the one that is
    further from zero never has the larger p-value, on any null list. *)
Theorem twosided_pvalue_two_sided (o1 o2 : Q) (null : list npfloat) :
  twosided_pvalue (Fin (- o1)) null = twosided_pvalue (Fin o1) null ∧
  ((Qabs o1 <= Qabs o2)%Q →
   (twosided_pvalue (Fin o2) null <= twosided_pvalue (Fin o1) null)%Q).
Proof.
  destruct null as [|x0 l]; [split; [done|]; intros _; apply Qle_refl|].
  set (null := x0 :: l). rewrite !twosided_pvalue_count by done. split.
  - do 3 f_equal. apply length_filter_ext. intros x _.
    pose proof (Qabs_opp o1) as Ho.
    split; apply fge_fabs_le; rewrite Ho; apply Qle_refl.
  - intros Hle. apply Qdiv_nat_le; [simpl; lia|].
    apply length_filter_mono. intros x _. by apply fge_fabs_le.
Qed.

Lemma twosided_pvalue_two_sided_witness :
  (twosided_pvalue (Fin (3 # 4)) [Fin (1 # 2); Fin (- (3 # 4)); NaN]
   <= twosided_pvalue (Fin (- (1 # 4))) [Fin (1 # 2); Fin (- (3 # 4)); NaN])%Q.
Proof.
  apply (twosided_pvalue_two_sided (- (1 # 4)) (3 # 4)). vm_compute. discriminate.
Defined.

(** ** Thresholds of the correction *)

(** The mask entry of a test, from its p-value and its place in the
    ascending order. *)
Lemma fdr_correction_item_rank (pvalues : ndarray Q) (i j : nat) (v : Q) :
  item pvalues i j = Some v →
  ∃ k, (k < length (flat pvalues))%nat ∧
       ∀ alpha,
         item (fdr_correction pvalues alpha) i j
         = Some (Qle_bool v (inject_Z (Z.of_nat (S k))
                             / inject_Z (Z.of_nat (length (flat pvalues))) * alpha)%Q).
Proof.
  intros Hv. unfold item in Hv.
  destruct (sort_idx_position (flat pvalues) (i * (shape pvalues).2 + j)) as [k Hk].
  { by eapply lookup_lt_Some. }
  exists k. split.
  - apply lookup_lt_Some in Hk. by rewrite sort_idx_length in Hk.
  - intros alpha. rewrite fdr_correction_item, benjamini_hochberg_is_sig, Hv.
    by rewrite (benjamini_hochberg_qvals _ alpha k _ Hk).
Qed.

Lemma rank_fraction (k N : nat) :
  (k < N)%nat →
  (/ inject_Z (Z.of_nat N) <= inject_Z (Z.of_nat (S k)) / inject_Z (Z.of_nat N))%Q ∧
  (inject_Z (Z.of_nat (S k)) / inject_Z (Z.of_nat N) <= 1)%Q.
Proof.
  intros Hk.
  assert (HN : ¬ (inject_Z (Z.of_nat N) == 0)%Q).
  { change 0%Q with (inject_Z 0). rewrite inject_Z_injective. lia. }
  split.
  - pose proof (Qdiv_nat_le 1 (S k) N) as H.
    change (inject_Z (Z.of_nat 1)) with 1%Q in H. unfold Qdiv at 1 in H.
    rewrite Qmult_1_l in H. apply H; lia.
  - pose proof (Qdiv_nat_le (S k) N N) as H.
    eapply Qle_trans; [apply H; lia|]. apply Qle_lteq. right. by field.
Qed.

Lemma fdr_correction_marked_le (pvalues : ndarray Q) (alpha : Q) (i j : nat) (v : Q) :
  (0 <= alpha)%Q →
  item pvalues i j = Some v →
  item (fdr_correction pvalues alpha) i j = Some true → (v <= alpha)%Q.
Proof.
  intros Halpha Hv.
  destruct (fdr_correction_item_rank pvalues i j v Hv) as (k & Hk & ->).
  destruct (rank_fraction k _ Hk) as [_ Hhi].
  intros [= Hb]. apply Qle_bool_iff in Hb.
  eapply Qle_trans; [exact Hb|].
  rewrite <- (Qmult_1_l alpha) at 2. by apply Qmult_le_compat_r.
Qed.



(** X6.  Raising the level never loses a discovery: an entry marked at
    the level [alpha] is marked at every level above it. *)
Theorem fdr_correction_level_mono (pvalues : ndarray Q) (alpha alpha' : Q) (i j : nat) :
  (alpha <= alpha')%Q →
  item (fdr_correction pvalues alpha) i j = Some true →
  item (fdr_correction pvalues alpha') i j = Some true.
Proof.
  intros Hle Hsig.
  destruct (item pvalues i j) as [v|] eqn:Hv.
  - destruct (fdr_correction_item_rank pvalues i j v Hv) as (k & Hk & Hi).
    rewrite Hi in Hsig. rewrite Hi. injection Hsig as Hb. f_equal.
    apply Qle_bool_iff in Hb. apply Qle_bool_iff.
    eapply Qle_trans; [exact Hb|].
    rewrite !(Qmult_comm (_ / _)). apply Qmult_le_compat_r; [done|].
    destruct (rank_fraction k _ Hk) as [Hlo _].
    eapply Qle_trans; [|exact Hlo]. apply Qinv_le_0_compat.
    change 0%Q with (inject_Z 0). rewrite <- Zle_Qle. lia.
  - rewrite fdr_correction_item, benjamini_hochberg_is_sig in Hsig.
    unfold item in Hv. by rewrite Hv in Hsig.
Qed.

Lemma fdr_correction_level_mono_witness :
  item (fdr_correction {| shape := (2, 2)%nat;
                          flat := [20 # 100; 2 # 100; 3 # 100; 4 # 100]%Q |}
                       (1 # 5)) 1 0 = Some true.
Proof.
  apply (fdr_correction_level_mono _ (1 # 10) (1 # 5));
    [vm_compute; discriminate|reflexivity].
Defined.

(** ** The stop-codon filter: failures and positions *)

Lemma assoc_None {A} (k : string) (l : list (string * A)) :
  assoc k l = None ↔ k ∉ l.*1.
Proof.
  split.
  - intros Hnone Hin. apply assoc_Some_elem_of in Hin as [v Hv]. congruence.
  - intros Hnot. destruct (assoc k l) as [v|] eqn:Hv; [|done].
    exfalso. apply Hnot. apply assoc_elem_of in Hv.
    apply list_elem_of_fmap. by exists (k, v).
Qed.

Lemma getitem_None (df : DataFrame) (column : string) :
  getitem df column = None ↔ column ∉ columns df.
Proof.
  unfold getitem, columns. rewrite <- assoc_None.
  by destruct (assoc column (df_columns df)).
Qed.

(** What the filter returns when it returns: the rows of the column
    without a stop codon before the column's position. *)
Lemma remove_peptides_inv (df : DataFrame) (column : string)
    (sc_index sc_col : list Z) (out : Series string) :
  remove_peptides_with_stopcodon df column sc_index sc_col = Some out →
  ∃ data v,
    getitem df column = Some data ∧ col_value column = Some v ∧
    out = filter (λ row, ¬ stop_before (zip sc_index sc_col) v row.1) data.
Proof.
  unfold remove_peptides_with_stopcodon. intros Hout.
  destruct (getitem df column) as [data|]; [|done].
  destruct (col_value column) as [v|]; [|done]. simpl in Hout.
  exists data, v. split; [done|]. split; [done|].
  set (pairs := zip sc_index sc_col) in *.
  destruct (decide _) as [Hpos|Hzero].
  - unfold drop_rows in Hout. destruct (bool_decide _); [|done].
    injection Hout as <-. apply list_filter_ext_in. intros row _.
    by rewrite elem_of_row_remove.
  - injection Hout as <-. symmetry. apply filter_all. intros row _ Hstop.
    apply elem_of_row_remove in Hstop.
    destruct ((filter (λ xy, v > xy.2) pairs).*1);
      [by apply elem_of_nil in Hstop | simpl in Hzero; lia].
Qed.


(** X8.  A peptide that is still there at a position is still there at
    every earlier position: of two columns of a frame, the rows kept for
    the one with the larger number are kept for the other one too. *)
Theorem remove_peptides_with_stopcodon_later
    (df : DataFrame) (c1 c2 : string) (sc_index sc_col : list Z)
    (v1 v2 : Z) (data1 out1 out2 : Series string) :
  col_value c1 = Some v1 → col_value c2 = Some v2 → v1 ≤ v2 →
  getitem df c1 = Some data1 →
  remove_peptides_with_stopcodon df c1 sc_index sc_col = Some out1 →
  remove_peptides_with_stopcodon df c2 sc_index sc_col = Some out2 →
  ∀ x, x ∈ index out2 → x ∈ index data1 → x ∈ index out1.
Proof.
  intros Hv1 Hv2 Hle Hd1 Ho1 Ho2 x Hx2 Hx1.
  apply remove_peptides_inv in Ho1 as (d1 & w1 & Hd1' & Hw1 & ->).
  apply remove_peptides_inv in Ho2 as (d2 & w2 & Hd2 & Hw2 & ->).
  rewrite Hd1 in Hd1'. injection Hd1' as <-.
  rewrite Hv1 in Hw1. injection Hw1 as <-.
  rewrite Hv2 in Hw2. injection Hw2 as <-.
  unfold index in *.
  apply list_elem_of_fmap in Hx2 as ([x2 cell2] & -> & [Hkeep _]%list_elem_of_filter).
  apply list_elem_of_fmap in Hx1 as ([x1 cell1] & Heq & Hin1).
  simpl in *. subst x1.
  apply list_elem_of_fmap. exists (x2, cell1). split; [done|].
  apply list_elem_of_filter. split; [|done]. simpl.
  intros Hstop. apply Hkeep. unfold stop_before in *.
  eapply Exists_impl; [exact Hstop|]. intros [a b] [? ?]. simpl in *.
  split; [done|lia].
Qed.

Lemma remove_peptides_with_stopcodon_later_witness :
  4 ∈ index [(1, "A"); (2, "C"); (3, "*"); (4, "D")].
Proof.
  apply (remove_peptides_with_stopcodon_later
           stop_table "Pos05" "Pos06" [3] [5] 5 6
           [(1, "A"); (2, "C"); (3, "*"); (4, "D")]
           [(1, "A"); (2, "C"); (3, "*"); (4, "D")]
           [(1, "E"); (2, "F"); (4, "H")]);
    try reflexivity; try lia; vm_compute; apply list_elem_of_In; simpl; tauto.
Defined.

(** ** The null distribution: edge cases and bounds *)




Section null_edges.

Context {rng : Type} (permutation : rng → list Q → list Q * rng).

Lemma null_loop_PyNone (trials : nat) (mode : string) (curve : list Q) (g : rng) :
  mode ≠ "auc" → mode ≠ "max" →
  ∃ g', null_loop permutation trials mode curve PyNone g = Some (PyNone, g').
Proof.
  intros H1 H2. revert curve g. induction trials as [|k IH]; intros curve g.
  - simpl. eauto.
  - cbn [null_loop]. destruct (permutation g curve) as [p g1].
    rewrite !decide_False by done. apply IH.
Qed.

(** X9.  The edge cases of [enrichment_scores_null].  A label that does
    not occur gives the empty list without a single draw from the
    generator, whatever the mode and the number of trials; so does
    [n_perm = 0].  With a label that occurs, at least one trial and a
    mode other than ['auc'] and ['max'], the function does not raise: it
    returns [None]. *)
Theorem enrichment_scores_null_edges
    (g : rng) (df : Series string) (acid mode : string) (n_perm : nat) :
  (occurrences acid df = 0%nat →
   enrichment_scores_null permutation g df acid n_perm mode = Some (Scores [], g)) ∧
  enrichment_scores_null permutation g df acid 0 mode = Some (Scores [], g) ∧
  ((0 < occurrences acid df)%nat → (0 < n_perm)%nat →
   mode ≠ "auc" → mode ≠ "max" →
   ∃ g', enrichment_scores_null permutation g df acid n_perm mode
         = Some (PyNone, g')).
Proof.
  split; [|split].
  - intros Hz. unfold enrichment_scores_null.
    by rewrite value_counts_lookup, decide_True.
  - unfold enrichment_scores_null. by destruct (value_counts df !! acid).
  - intros Hm Hn H1 H2. rewrite enrichment_scores_null_unfold by done.
    destruct n_perm as [|k]; [lia|]. cbn [null_loop].
    destruct (permutation g _) as [p g1].
    rewrite !decide_False by done. by apply null_loop_PyNone.
Qed.

(** The generator's output is a rearrangement of its input. *)
Hypothesis permutation_shuffles : ∀ g a, (permutation g a).1 ≡ₚ a.


End null_edges.

Lemma enrichment_scores_null_edges_witness :
  ∃ g', enrichment_scores_null reversing 0%nat toy_column "A" 3 "median"
        = Some (PyNone, g').
Proof.
  apply (enrichment_scores_null_edges reversing 0%nat toy_column "A" "median" 3);
    (vm_compute; lia) || discriminate.
Defined.


(** ** z-scores *)



(** ** The loader: failures and columns *)

(** Whether a loop ends normally, when that depends on the items only. *)
Lemma for_each_is_Some {A S} (I : S → Prop) (ok : A → Prop) (l : list A)
    (body : A → S → option S) (s : S) :
  (∀ x t, x ∈ l → I t → (is_Some (body x t) ↔ ok x)) →
  (∀ x t t', x ∈ l → I t → body x t = Some t' → I t') →
  I s → (is_Some (py.for_each l body s) ↔ Forall ok l).
Proof.
  revert s. induction l as [|x l IH]; intros s Hok Hinv Hs.
  - rewrite for_each_nil. split; [constructor|eauto].
  - rewrite for_each_cons, Forall_cons.
    pose proof (Hok x s (list_elem_of_here x l) Hs) as Hx.
    destruct (body x s) as [t|] eqn:Hb; simpl.
    + rewrite (IH t).
      * split; [intros H; split; [apply Hx; eauto|done]|by intros [_ ?]].
      * intros y u Hy. apply Hok. by right.
      * intros y u u' Hy. apply Hinv. by right.
      * eapply Hinv; [left|done|done].
    + split; [by intros [? ?]|]. intros [Hx' _]. apply Hx in Hx' as [? ?]. done.
Qed.

Lemma get_None (p : nat) (x : string) :
  String.get p x = None ↔ (String.length x ≤ p)%nat.
Proof.
  revert p. induction x as [|c x IH]; intros p; simpl.
  - split; [lia|done].
  - destruct p as [|p]; [split; [done|lia]|]. rewrite IH. lia.
Qed.

Lemma sequence_at_is_Some (df : DataFrame) (p : nat) :
  is_Some (sequence_at df p) ↔
  ∃ sequences, getitem df "Sequence" = Some sequences ∧
               Forall (λ x, (p < String.length x)%nat) (values sequences).
Proof.
  unfold sequence_at. destruct (getitem df "Sequence") as [sequences|]; simpl.
  - rewrite mapM_is_Some. split.
    + intros Hall. exists sequences. split; [done|].
      eapply Forall_impl; [exact Hall|]. intros x [c Hc]. simpl in Hc.
      destruct (String.get p x) eqn:Hg; [|done].
      destruct (decide (p < String.length x)%nat) as [|Hn]; [done|].
      assert (String.get p x = None) by (apply get_None; lia). congruence.
    + intros (? & [= <-] & Hall). eapply Forall_impl; [exact Hall|].
      intros x Hx. simpl.
      destruct (String.get p x) eqn:Hg; [by eexists|].
      apply (proj1 (get_None _ _)) in Hg. simpl in Hx. lia.
  - split; [by intros [? ?]|by intros (? & ? & _)].
Qed.

Lemma columns_setitem (df : DataFrame) (k : string) (cells : list string) :
  columns (setitem df k cells)
  = if decide (k ∈ columns df) then columns df else columns df ++ [k].
Proof.
  unfold columns, setitem. cbn [df_columns].
  induction (df_columns df) as [|[k' v'] l IH].
  - destruct (decide (k ∈ [].*1)) as [H%elem_of_nil|]; done.
  - cbn [assoc_set]. destruct (decide (k = k')) as [->|Hne].
    + rewrite fmap_cons. cbn [fst]. rewrite decide_True by left. done.
    + rewrite !fmap_cons, IH. cbn [fst].
      destruct (decide (k ∈ l.*1)) as [Hin|Hnin].
      * rewrite decide_True by (by right). done.
      * rewrite decide_False; [done|].
        intros [?|?]%elem_of_cons; done.
Qed.

Lemma columns_drop_column (column : string) (df df' : DataFrame) :
  drop_column column df = Some df' →
  columns df' = filter (λ c, c ≠ column) (columns df).
Proof.
  unfold drop_column. destruct (decide _); [|done]. intros [= <-].
  unfold columns. simpl.
  induction (df_columns df) as [|[k v] l IH]; [done|].
  rewrite fmap_cons, !filter_cons. cbn [fst].
  destruct (decide (k ≠ column)); rewrite ?fmap_cons, IH; done.
Qed.

Lemma drop_column_is_Some' (column : string) (df df' : DataFrame) :
  drop_column column df = Some df' → column ∈ columns df.
Proof. unfold drop_column. by destruct (decide _). Qed.

Lemma drop_column_is_Some (column : string) (df : DataFrame) :
  is_Some (drop_column column df) ↔ column ∈ columns df.
Proof.
  unfold drop_column. destruct (decide _) as [Hin|Hnin].
  - split; [done|]. intros _. by eexists.
  - split; [by intros [? ?]|done].
Qed.

(** The loop of [load]: what it keeps, and when it ends normally. *)
Lemma load_loop_inv (raw df : DataFrame) (positions : list nat) :
  py.for_each positions
    (λ p df, cells ← sequence_at df p; Some (setitem df (pos_label p) cells)) raw
  = Some df →
  df_index df = df_index raw ∧
  (∀ k, k ∈ dropped → assoc k (df_columns df) = assoc k (df_columns raw)) ∧
  (∀ k, k ∈ dropped → k ∈ columns df ↔ k ∈ columns raw).
Proof.
  apply (for_each_invariant
           (λ t, df_index t = df_index raw ∧
                 (∀ k, k ∈ dropped → assoc k (df_columns t) = assoc k (df_columns raw)) ∧
                 (∀ k, k ∈ dropped → k ∈ columns t ↔ k ∈ columns raw))).
  - intros p t t' _ (Hidx & Hassoc & Hcols) Hbody.
    destruct (sequence_at t p) as [cells|]; [|done]. injection Hbody as <-.
    assert (Hne : ∀ k, k ∈ dropped → pos_label p ≠ k).
    { intros k Hk Heq. destruct (pos_label_not_dropped p) as (H1 & H2 & H3).
      unfold dropped in Hk. rewrite !elem_of_cons in Hk.
      destruct Hk as [->|[->|[->|?%elem_of_nil]]]; done. }
    split; [done|]. split.
    + intros k Hk. simpl. rewrite assoc_set_ne by (by apply Hne). by apply Hassoc.
    + intros k Hk. rewrite columns_setitem. destruct (decide _).
      * by apply Hcols.
      * rewrite elem_of_app, list_elem_of_singleton, Hcols by done.
        specialize (Hne k Hk). split; [intros [?|?]; [done|congruence]|by left].
  - done.
Qed.

Lemma load_loop_is_Some (raw : DataFrame) (positions : list nat) :
  is_Some (py.for_each positions
             (λ p df, cells ← sequence_at df p; Some (setitem df (pos_label p) cells))
             raw)
  ↔ Forall (λ p, is_Some (sequence_at raw p)) positions.
Proof.
  apply (for_each_is_Some
           (λ t, df_index t = df_index raw ∧
                 assoc "Sequence" (df_columns t) = assoc "Sequence" (df_columns raw))).
  - intros p t _ [Hidx Hseq].
    assert (Heq : sequence_at t p = sequence_at raw p).
    { unfold sequence_at, getitem. by rewrite Hseq, Hidx. }
    rewrite <- Heq. destruct (sequence_at t p); simpl; split; eauto; by intros [? ?].
  - intros p t t' _ [Hidx Hseq] Hbody.
    destruct (sequence_at t p) as [cells|]; [|done]. injection Hbody as <-.
    split; [done|]. simpl. rewrite assoc_set_ne; [done|].
    by destruct (pos_label_not_dropped p) as (? & _).
  - done.
Qed.

Lemma load_is_Some (raw : DataFrame) (positions : list nat) :
  is_Some (load raw positions) ↔
  (∀ k, k ∈ dropped → k ∈ columns raw) ∧
  Forall (λ p, is_Some (sequence_at raw p)) positions.
Proof.
  unfold load. rewrite <- load_loop_is_Some.
  destruct (py.for_each _ _ _) as [df1|] eqn:Hloop; simpl.
  2:{ split; [by intros [? ?]|by intros [_ [? ?]]]. }
  destruct (load_loop_inv raw df1 positions Hloop) as (_ & _ & Hcols).
  assert (Hd : ∀ k, k ∈ dropped ↔
                    k = "Sequence" ∨ k = "shrunken.log2.fold.change" ∨ k = "ID").
  { intros k. unfold dropped. rewrite !elem_of_cons, elem_of_nil. tauto. }
  destruct (drop_column "Sequence" df1) as [df2|] eqn:H2; simpl.
  2:{ split; [by intros [? ?]|]. intros [Hall _]. exfalso.
      assert (is_Some (drop_column "Sequence" df1)) as [? ?]; [|congruence].
      apply drop_column_is_Some, Hcols, Hall; apply Hd; auto. }
  pose proof (columns_drop_column _ _ _ H2) as Hc2.
  destruct (drop_column "shrunken.log2.fold.change" df2) as [df3|] eqn:H3; simpl.
  2:{ split; [by intros [? ?]|]. intros [Hall _]. exfalso.
      assert (is_Some (drop_column "shrunken.log2.fold.change" df2)) as [? ?];
        [|congruence].
      apply drop_column_is_Some. rewrite Hc2. apply list_elem_of_filter.
      split; [done|]. apply Hcols, Hall; apply Hd; auto. }
  pose proof (columns_drop_column _ _ _ H3) as Hc3.
  rewrite drop_column_is_Some, Hc3, Hc2, !list_elem_of_filter.
  apply drop_column_is_Some' in H2. apply drop_column_is_Some' in H3.
  rewrite Hc2 in H3. apply list_elem_of_filter in H3 as [_ H3].
  split.
  - intros (_ & _ & H4). split; [|by eexists].
    intros k [-> | [-> | ->]]%Hd; (apply Hcols; [apply Hd; auto|done]).
  - intros [Hall _]. split; [done|]. split; [done|].
    apply Hcols, Hall; apply Hd; auto.
Qed.

Lemma load_None (raw : DataFrame) (positions : list nat) :
  load raw positions = None ↔
  (∃ k, k ∈ dropped ∧ k ∉ columns raw) ∨
  (∃ sequences p x,
     getitem raw "Sequence" = Some sequences ∧ p ∈ positions ∧
     x ∈ values sequences ∧ (String.length x ≤ p)%nat).
Proof.
  rewrite eq_None_not_Some, load_is_Some. split.
  - intros Hnot.
    destruct (decide (Forall (λ k, k ∈ columns raw) dropped)) as [Hall|Hnall].
    + rewrite Forall_forall in Hall. right.
      assert (Hex : Exists (λ p, ¬ is_Some (sequence_at raw p)) positions).
      { apply not_Forall_Exists; [apply _|]. intros HF. by apply Hnot. }
      apply Exists_exists in Hex as (p & Hp & Hfail).
      destruct (getitem raw "Sequence") as [sequences|] eqn:Hseq.
      * assert (Hx : Exists (λ x, ¬ (p < String.length x)%nat) (values sequences)).
        { apply not_Forall_Exists; [apply _|]. intros HF. apply Hfail.
          apply sequence_at_is_Some. eauto. }
        apply Exists_exists in Hx as (x & Hx & Hshort).
        exists sequences, p, x. repeat split; [done..|lia].
      * apply getitem_None in Hseq. exfalso. apply Hseq, Hall. by left.
    + left. apply not_Forall_Exists in Hnall; [|apply _].
      apply Exists_exists in Hnall as (k & Hk & Hnk). eauto.
  - intros [(k & Hk & Hnk)|(sequences & p & x & Hseq & Hp & Hx & Hshort)] [Hall HF].
    + by apply Hnk, Hall.
    + rewrite Forall_forall in HF. specialize (HF p Hp).
      apply sequence_at_is_Some in HF as (sequences' & Hseq' & Hlen).
      rewrite Hseq in Hseq'. injection Hseq' as <-.
      rewrite Forall_forall in Hlen. specialize (Hlen x Hx). simpl in Hlen. lia.
Qed.

(** X12.  [load] raises in two cases only: the table lacks one of the
    columns [Sequence], [shrunken.log2.fold.change] and [ID], or some
    sequence is too short to have a residue at one of the requested
    offsets.  Otherwise it returns a frame with the rows of the table. *)
Theorem load_raises (raw : DataFrame) (positions : list nat) :
  (load raw positions = None ↔
   (∃ k, k ∈ dropped ∧ k ∉ columns raw) ∨
   (∃ sequences p x,
      getitem raw "Sequence" = Some sequences ∧ p ∈ positions ∧
      x ∈ values sequences ∧ (String.length x ≤ p)%nat)) ∧
  (∀ df, load raw positions = Some df → df_index df = df_index raw).
Proof.
  split; [apply load_None|]. intros df Hload.
  by destruct (load_spec raw df positions Hload) as (? & _).
Qed.

Lemma load_loop_columns (df0 df : DataFrame) (positions : list nat) :
  NoDup positions →
  (∀ p, p ∈ positions → pos_label p ∉ columns df0) →
  py.for_each positions
    (λ p df, cells ← sequence_at df p; Some (setitem df (pos_label p) cells)) df0
  = Some df →
  columns df = columns df0 ++ (pos_label <$> positions).
Proof.
  revert df0. induction positions as [|p l IH]; intros df0 Hnd Hfresh Hloop.
  - rewrite for_each_nil in Hloop. injection Hloop as <-. by rewrite app_nil_r.
  - rewrite for_each_cons in Hloop.
    destruct (sequence_at df0 p) as [cells|]; [|done]. simpl in Hloop.
    apply NoDup_cons in Hnd as [Hp Hnd].
    assert (Hc : columns (setitem df0 (pos_label p) cells)
                 = columns df0 ++ [pos_label p]).
    { rewrite columns_setitem, decide_False; [done|]. apply Hfresh. left. }
    assert (Hfresh' : ∀ q, q ∈ l →
              pos_label q ∉ columns (setitem df0 (pos_label p) cells)).
    { intros q Hq. rewrite Hc. intros [Hin|Hin%list_elem_of_singleton]%elem_of_app.
      - apply (Hfresh q); [by right|done].
      - apply pos_label_inj in Hin. by subst. }
    rewrite (IH _ Hnd Hfresh' Hloop), Hc, <- app_assoc. done.
Qed.

Lemma filter_dropped (l : list string) :
  filter (λ c, c ≠ "ID")
    (filter (λ c, c ≠ "shrunken.log2.fold.change")
       (filter (λ c, c ≠ "Sequence") l))
  = filter (λ c, c ∉ dropped) l.
Proof.
  induction l as [|c l IH]; [done|].
  rewrite (filter_cons (λ c, c ∉ dropped)), <- IH.
  assert (Hd : c ∉ dropped ↔
               c ≠ "Sequence" ∧ c ≠ "shrunken.log2.fold.change" ∧ c ≠ "ID").
  { unfold dropped. rewrite !not_elem_of_cons.
    pose proof (not_elem_of_nil c). tauto. }
  rewrite (filter_cons (λ c, c ≠ "Sequence")).
  destruct (decide (c ≠ "Sequence")) as [H1|H1];
    [rewrite (filter_cons (λ c, c ≠ "shrunken.log2.fold.change"));
     destruct (decide (c ≠ "shrunken.log2.fold.change")) as [H2|H2];
     [rewrite (filter_cons (λ c, c ≠ "ID"));
      destruct (decide (c ≠ "ID")) as [H3|H3]|]|];
    destruct (decide (c ∉ dropped)) as [H|H]; rewrite Hd in H; try done; tauto.
Qed.

Lemma load_columns (raw df : DataFrame) (positions : list nat) :
  NoDup positions →
  (∀ p, p ∈ positions → pos_label p ∉ columns raw) →
  load raw positions = Some df →
  columns df = filter (λ c, c ∉ dropped) (columns raw) ++ (pos_label <$> positions).
Proof.
  intros Hnd Hfresh Hload. unfold load in Hload.
  destruct (py.for_each _ _ _) as [df1|] eqn:Hloop; [|done]. simpl in Hload.
  destruct (drop_column "Sequence" df1) as [df2|] eqn:H2; [|done]. simpl in Hload.
  destruct (drop_column "shrunken.log2.fold.change" df2) as [df3|] eqn:H3;
    [|done]. simpl in Hload.
  rewrite (columns_drop_column _ _ _ Hload), (columns_drop_column _ _ _ H3),
    (columns_drop_column _ _ _ H2), filter_dropped.
  rewrite (load_loop_columns raw df1 positions Hnd Hfresh Hloop), filter_app.
  f_equal. apply filter_all.
  intros c (p & -> & _)%list_elem_of_fmap.
  destruct (pos_label_not_dropped p) as (H1 & H2' & H3').
  unfold dropped. rewrite !not_elem_of_cons. repeat split; try done.
  apply not_elem_of_nil.
Qed.

(** X13.  The frame that [load] returns, for distinct offsets and a
    table without position columns of its own: the rows are those of the
    table, in their order; the columns are the table's columns without
    the three dropped ones, followed by one column per requested offset,
    in the order requested and under pairwise distinct labels; and the
    column of the offset [p] holds, row by row, the residue at offset [p]
    of the sequence. *)
Theorem load_frame (raw df : DataFrame) (positions : list nat) :
  NoDup positions →
  (∀ p, p ∈ positions → pos_label p ∉ columns raw) →
  load raw positions = Some df →
  df_index df = df_index raw ∧
  columns df = filter (λ c, c ∉ dropped) (columns raw) ++ (pos_label <$> positions) ∧
  NoDup (pos_label <$> positions) ∧
  ∀ p, p ∈ positions →
    ∃ sequences cells,
      getitem raw "Sequence" = Some sequences ∧
      getitem df (pos_label p) = Some (zip (df_index raw) cells) ∧
      Forall2 (λ x cell, ∃ c, String.get p x = Some c ∧ cell = String c EmptyString)
              (values sequences) cells.
Proof.
  intros Hnd Hfresh Hload.
  destruct (load_spec raw df positions Hload) as (Hidx & _ & _ & _ & Hcells).
  split; [done|]. split; [by apply load_columns|]. split; [|done].
  apply NoDup_fmap_2; [|done]. intros p q. apply pos_label_inj.
Qed.

Lemma load_frame_witness :
  ∃ df, load raw_table [4; 9; 11]%nat = Some df ∧
        columns df = ["Pos05"; "Pos010"; "Pos12"].
Proof.
  eexists. split; [reflexivity|].
  apply (load_frame raw_table _ [4; 9; 11]%nat).
  - compute_done.
  - intros p Hp.
    repeat (apply elem_of_cons in Hp as [->|Hp]; [compute_done|]).
    by apply elem_of_nil in Hp.
  - reflexivity.
Defined.

(** ** Sorting strings *)

Lemma str_le_iff (s1 s2 : string) :
  str_le s1 s2 = true ↔ OrderedTypeEx.String_as_OT.lt s1 s2 ∨ s1 = s2.
Proof.
  unfold str_le, String.leb.
  rewrite <- OrderedTypeEx.String_as_OT.cmp_lt, <- OrderedTypeEx.String_as_OT.cmp_eq.
  unfold OrderedTypeEx.String_as_OT.cmp.
  destruct (String.compare s1 s2); intuition congruence.
Qed.

Lemma str_le_trans (s1 s2 s3 : string) :
  str_le s1 s2 = true → str_le s2 s3 = true → str_le s1 s3 = true.
Proof.
  rewrite !str_le_iff. intros [H1| ->] [H2| ->]; auto.
  left. by eapply OrderedTypeEx.String_as_OT.lt_trans.
Qed.

Lemma insert_by_StronglySorted {A} (le : A → A → bool) (x : A) (l : list A) :
  (∀ a b, le a b = true ∨ le b a = true) →
  (∀ a b c, le a b = true → le b c = true → le a c = true) →
  StronglySorted (λ a b, le a b = true) l →
  StronglySorted (λ a b, le a b = true) (py.insert_by le x l).
Proof.
  intros Htotal Htrans. induction 1 as [|y l Hl IH Hy]; simpl.
  - repeat constructor.
  - destruct (le x y) eqn:E.
    + constructor; [by constructor|]. constructor; [done|].
      eapply Forall_impl; [exact Hy|]. intros z Hz. by eapply Htrans.
    + constructor; [done|].
      rewrite insert_by_Permutation. constructor; [|done].
      destruct (Htotal x y); [congruence|done].
Qed.

Lemma sorted_StronglySorted {A} (le : A → A → bool) (l : list A) :
  (∀ a b, le a b = true ∨ le b a = true) →
  (∀ a b c, le a b = true → le b c = true → le a c = true) →
  StronglySorted (λ a b, le a b = true) (py.sorted le l).
Proof.
  intros Htotal Htrans. unfold py.sorted.
  induction l as [|x l IH]; simpl; [constructor|].
  by apply insert_by_StronglySorted.
Qed.

(** X14.  [aa_from_df] lists the amino acids of the frame in strictly
    ascending order of [str], each once, and its members are exactly the
    cells of the frame. *)
Theorem aa_from_df_spec (df : DataFrame) :
  StronglySorted str_lt (aa_from_df df) ∧
  NoDup (aa_from_df df) ∧
  ∀ v, v ∈ aa_from_df df ↔
       ∃ r c, (r < length (df_index df))%nat ∧ c ∈ df_columns df ∧ c.2 !! r = Some v.
Proof.
  assert (Hnd : NoDup (aa_from_df df)).
  { unfold aa_from_df. rewrite sorted_Permutation. apply NoDup_remove_dups. }
  assert (Hs : StronglySorted (λ a b, str_le a b = true) (aa_from_df df)).
  { apply sorted_StronglySorted; [apply String.leb_total|apply str_le_trans]. }
  split; [|split; [done|]].
  - induction Hs as [|x l Hl IH Hx]; [constructor|].
    apply NoDup_cons in Hnd as [Hx' Hnd]. constructor; [by apply IH|].
    apply Forall_forall. intros y Hy. rewrite Forall_forall in Hx.
    split; [by apply Hx|]. intros ->. done.
  - intros v. by rewrite elem_of_aa_from_df, elem_of_flatten_values.
Qed.

(** ** figure_1b: where the stop codons are *)

Lemma elem_of_where_stop (df : DataFrame) (r c : nat) :
  (r, c) ∈ where_stop df ↔
  (r < length (df_index df))%nat ∧ row df r !! c = Some "*".
Proof.
  unfold where_stop. rewrite list_elem_of_In, in_flat_map. split.
  - intros (r' & Hr%list_elem_of_In%elem_of_seq & Hc%list_elem_of_In).
    apply list_elem_of_omap in Hc as ([i cell] & Hin%elem_of_enumerate & Hic).
    simpl in Hic. destruct (decide (cell = "*")) as [->|]; [|done].
    injection Hic as -> ->. split; [lia|done].
  - intros [Hr Hc]. exists r. split.
    + apply list_elem_of_In, elem_of_seq. lia.
    + apply list_elem_of_In, list_elem_of_omap. exists (c, "*"). split.
      * by apply elem_of_enumerate.
      * cbn [fst snd]. by rewrite decide_True.
Qed.

Lemma zip_fmap_fst_snd {A B C D} (f : A → C) (g : B → D) (l : list (A * B)) :
  zip (f <$> l.*1) (g <$> l.*2) = (λ p, (f p.1, g p.2)) <$> l.
Proof. induction l as [|[a b] l IH]; [done|]. simpl. f_equal. exact IH. Qed.

(** In a frame whose columns all have [N] cells, row [r] is made of the
    cells at offset [r] of the columns. *)
Lemma row_lookup (df : DataFrame) (r c : nat) :
  Forall (λ col : string * list string, length col.2 = length (df_index df))
         (df_columns df) →
  (r < length (df_index df))%nat →
  row df r !! c = df_columns df !! c ≫= λ col, col.2 !! r.
Proof.
  intros Hrect Hr. unfold row. revert c.
  induction Hrect as [|col l Hcol _ IH]; intros c; [done|].
  simpl. destruct (col.2 !! r) as [v|] eqn:Hv.
  - destruct c as [|c]; simpl; [by rewrite Hv|apply IH].
  - apply lookup_ge_None in Hv. lia.
Qed.

Lemma elem_of_sc_pairs (df : DataFrame) (x y : Z) :
  (x, y) ∈ zip (sc_index df) (sc_pos df) ↔
  ∃ r c, x = Z.of_nat r + 1 ∧ y = Z.of_nat c + 1 ∧
         (r < length (df_index df))%nat ∧ row df r !! c = Some "*".
Proof.
  unfold sc_index, sc_pos. rewrite zip_fmap_fst_snd, list_elem_of_fmap. split.
  - intros ([r c] & [= -> ->] & Hrc%elem_of_where_stop). exists r, c. tauto.
  - intros (r & c & -> & -> & Hrc). exists (r, c). split; [done|].
    by apply elem_of_where_stop.
Qed.

Lemma elem_of_sc_pairs_cells (df : DataFrame) (x y : Z) :
  Forall (λ col : string * list string, length col.2 = length (df_index df))
         (df_columns df) →
  (x, y) ∈ zip (sc_index df) (sc_pos df) ↔
  ∃ r c col, x = Z.of_nat r + 1 ∧ y = Z.of_nat c + 1 ∧
             df_columns df !! c = Some col ∧ col.2 !! r = Some "*".
Proof.
  intros Hrect. rewrite elem_of_sc_pairs. split.
  - intros (r & c & -> & -> & Hr & Hrow).
    rewrite row_lookup in Hrow by done.
    destruct (df_columns df !! c) as [col|] eqn:Hcol; [|done].
    exists r, c, col. done.
  - intros (r & c & col & -> & -> & Hcol & Hcell). exists r, c.
    assert (Hr : (r < length (df_index df))%nat).
    { rewrite Forall_forall in Hrect.
      rewrite <- (Hrect col) by (by eapply list_elem_of_lookup_2).
      by eapply lookup_lt_Some. }
    rewrite row_lookup, Hcol by done. done.
Qed.

(** X15.  The stop codons that figure_1b records: the pairs of
    [sc_index] and [sc_pos] are exactly the pairs [(r + 1, c + 1)] for
    the cells [*] of the frame, [r] the row offset and [c] the column
    offset; in a frame whose columns all have one cell per row, that is
    the cell at offset [r] of column [c]. *)
Theorem stop_codon_pairs (df : DataFrame) (x y : Z) :
  length (sc_index df) = length (sc_pos df) ∧
  ((x, y) ∈ zip (sc_index df) (sc_pos df) ↔
   ∃ r c, x = Z.of_nat r + 1 ∧ y = Z.of_nat c + 1 ∧
          (r < length (df_index df))%nat ∧ row df r !! c = Some "*") ∧
  (Forall (λ col : string * list string, length col.2 = length (df_index df))
          (df_columns df) →
   ((x, y) ∈ zip (sc_index df) (sc_pos df) ↔
    ∃ r c col, x = Z.of_nat r + 1 ∧ y = Z.of_nat c + 1 ∧
               df_columns df !! c = Some col ∧ col.2 !! r = Some "*")).
Proof.
  split; [|split].
  - unfold sc_index, sc_pos. by rewrite !length_fmap.
  - apply elem_of_sc_pairs.
  - apply elem_of_sc_pairs_cells.
Qed.

Lemma stop_codon_pairs_witness :
  (2, 1) ∈ zip (sc_index stop_frame) (sc_pos stop_frame).
Proof.
  apply (stop_codon_pairs stop_frame 2 1).
  - repeat constructor.
  - exists 1%nat, 0%nat, ("Pos01", ["A"; "*"; "B"]). done.
Defined.

(** ** figure_1b: the filter on a loaded frame *)

Lemma assoc_lookup_NoDup {A} (l : list (string * A)) (i : nat) (k : string) (v : A) :
  NoDup l.*1 → l !! i = Some (k, v) → assoc k l = Some v.
Proof.
  revert i. induction l as [|[k' v'] l IH]; intros i Hnd Hi; [done|].
  rewrite fmap_cons in Hnd. apply NoDup_cons in Hnd as [Hk' Hnd]. simpl.
  destruct i as [|i]; simpl in Hi.
  - injection Hi as -> ->. by rewrite decide_True.
  - rewrite decide_False; [by eapply IH|].
    intros ->. apply Hk'. apply list_elem_of_fmap. exists (k', v).
    split; [done|]. by eapply list_elem_of_lookup_2.
Qed.

Lemma elem_of_zip_ranked (idx : list Z) (cells : list string) (r : nat) (cell : string) :
  idx = (λ r : nat, Z.of_nat r + 1) <$> seq 0 (length idx) →
  length cells = length idx →
  (Z.of_nat r + 1, cell) ∈ zip idx cells ↔ cells !! r = Some cell.
Proof.
  intros Hidx Hlen. rewrite list_elem_of_lookup. split.
  - intros [i Hi]. apply lookup_zip_with_Some in Hi as (x & y & [= Hx <-] & Hxi & Hyi).
    rewrite Hidx, list_lookup_fmap in Hxi.
    destruct (seq 0 (length idx) !! i) as [j|] eqn:Hj; [|done].
    apply lookup_seq in Hj as [-> _]. simpl in Hxi. injection Hxi as <-.
    assert (i = r) as -> by lia. done.
  - intros Hr. exists r. apply lookup_zip_with_Some. exists (Z.of_nat r + 1), cell.
    split; [done|]. split; [|done].
    rewrite Hidx, list_lookup_fmap, lookup_seq_lt; [done|].
    apply lookup_lt_Some in Hr. lia.
Qed.

(** X16.  What the stop-codon filter of figure_1b keeps.  Take a ranked
    frame whose columns are the positions [0 .. n-1] in order, as [load]
    builds it.  For the column at offset [c] the filter does not raise,
    and it returns, in rank order, the rows of that column for the
    peptides without a stop codon at an offset before [c]; a stop codon
    at offset [c] itself does not remove the peptide. *)
Theorem stop_codon_filter_cells (df : DataFrame) (n c : nat) (cells : list string) :
  ranked_frame df →
  columns df = pos_label <$> seq 0 n →
  df_columns df !! c = Some (pos_label c, cells) →
  ∃ out,
    remove_peptides_with_stopcodon df (pos_label c) (sc_index df) (sc_pos df)
      = Some out ∧
    out `sublist_of` zip (df_index df) cells ∧
    ∀ r cell,
      (Z.of_nat r + 1, cell) ∈ out ↔
      cells !! r = Some cell ∧
      ∀ c' col, (c' < c)%nat → df_columns df !! c' = Some col →
                col.2 !! r ≠ Some "*".
Proof.
  intros Hranked Hcols Hc.
  pose proof Hranked as (Hidx & Hrect & Hnum).
  assert (Hin : pos_label c ∈ columns df).
  { unfold columns. apply list_elem_of_fmap. exists (pos_label c, cells).
    split; [done|]. by eapply list_elem_of_lookup_2. }
  destruct (remove_peptides_total df (pos_label c) Hranked Hin) as [out Hout].
  exists out. split; [done|].
  apply remove_peptides_inv in Hout as (data & v & Hdata & Hv & ->).
  rewrite col_value_pos_label in Hv. injection Hv as <-.
  assert (Hnd : NoDup (df_columns df).*1).
  { fold (columns df). rewrite Hcols. apply NoDup_fmap_2; [|apply NoDup_seq].
    intros p q. apply pos_label_inj. }
  unfold getitem in Hdata.
  rewrite (assoc_lookup_NoDup _ _ _ _ Hnd Hc) in Hdata. injection Hdata as <-.
  split; [apply sublist_filter|].
  assert (Hlen : length cells = length (df_index df)).
  { rewrite Forall_forall in Hrect.
    apply (Hrect (pos_label c, cells)). by eapply list_elem_of_lookup_2. }
  intros r cell. rewrite list_elem_of_filter, elem_of_zip_ranked by done.
  cbn [fst]. rewrite (comm and). apply and_iff_compat_l.
  unfold stop_before. rewrite Exists_exists. split.
  - intros Hnot c' col Hlt Hcol Hstar. apply Hnot.
    exists (Z.of_nat r + 1, Z.of_nat c' + 1). split.
    + apply elem_of_sc_pairs_cells; [done|]. exists r, c', col. done.
    + simpl. split; [done|lia].
  - intros Hnone ([x y] & Hxy & Hx & Hy). simpl in Hx, Hy. subst x.
    apply elem_of_sc_pairs_cells in Hxy as (r' & c' & col & Hr & -> & Hcol & Hstar);
      [|done].
    assert (r' = r) as -> by lia.
    apply (Hnone c' col); [lia|done|done].
Qed.

Lemma stop_codon_filter_cells_witness :
  ∃ out,
    remove_peptides_with_stopcodon stop_frame (pos_label 1)
      (sc_index stop_frame) (sc_pos stop_frame) = Some out ∧
    out `sublist_of` zip (df_index stop_frame) ["C"; "D"; "A"] ∧
    ∀ r cell,
      (Z.of_nat r + 1, cell) ∈ out ↔
      ["C"; "D"; "A"] !! r = Some cell ∧
      ∀ c' col, (c' < 1)%nat → df_columns stop_frame !! c' = Some col →
                col.2 !! r ≠ Some "*".
Proof.
  apply (stop_codon_filter_cells stop_frame 2 1 ["C"; "D"; "A"]);
    [apply ranked_stop_frame|reflexivity|reflexivity].
Defined.

(** ** The scripts on a raw table *)

Lemma Forall_assoc_set {A} (P : string * A → Prop) (k : string) (v : A)
    (l : list (string * A)) :
  P (k, v) → Forall P l → Forall P (assoc_set k v l).
Proof.
  intros Hkv. induction 1 as [|[k' v'] l Hx Hl IH]; simpl.
  - by constructor.
  - destruct (decide (k = k')); constructor; done.
Qed.

Lemma drop_column_columns (column : string) (df df' : DataFrame) :
  drop_column column df = Some df' →
  df_columns df' = filter (λ c, c.1 ≠ column) (df_columns df).
Proof. unfold drop_column. destruct (decide _); [|done]. by intros [= <-]. Qed.

Lemma Forall_filter_keep {A} (P Q : A → Prop) `{!∀ x, Decision (Q x)} (l : list A) :
  Forall P l → Forall P (filter Q l).
Proof.
  rewrite !Forall_forall. intros HP x [_ Hx]%list_elem_of_filter. by apply HP.
Qed.

(** The cells of a loaded frame: a column is one of the table, or has one
    cell per sequence. *)
Lemma load_cells_length (raw df : DataFrame) (positions : list nat) :
  load raw positions = Some df →
  Forall (λ c : string * list string,
            c ∈ df_columns raw ∨
            ∃ sequences, getitem raw "Sequence" = Some sequences ∧
                         length c.2 = length sequences)
         (df_columns df).
Proof.
  intros Hload. unfold load in Hload.
  destruct (py.for_each _ _ _) as [df1|] eqn:Hloop; [|done]. simpl in Hload.
  destruct (drop_column "Sequence" df1) as [df2|] eqn:H2; [|done]. simpl in Hload.
  destruct (drop_column "shrunken.log2.fold.change" df2) as [df3|] eqn:H3;
    [|done]. simpl in Hload.
  rewrite (drop_column_columns _ _ _ Hload), (drop_column_columns _ _ _ H3),
    (drop_column_columns _ _ _ H2).
  do 3 apply Forall_filter_keep.
  set (P := λ t : DataFrame,
         (df_index t = df_index raw ∧
          assoc "Sequence" (df_columns t) = assoc "Sequence" (df_columns raw)) ∧
         Forall (λ c : string * list string,
                   c ∈ df_columns raw ∨
                   ∃ sequences, getitem raw "Sequence" = Some sequences ∧
                                length c.2 = length sequences)
                (df_columns t)).
  assert (Hinv : P df1); [|by destruct Hinv].
  revert Hloop. apply (for_each_invariant P); unfold P.
  - intros p t t' _ [[Hidx Hseq] Hall] Hbody.
    assert (Heq : sequence_at t p = sequence_at raw p).
    { unfold sequence_at, getitem. by rewrite Hseq, Hidx. }
    rewrite Heq in Hbody.
    destruct (sequence_at raw p) as [cells|] eqn:Hcells; [|done].
    injection Hbody as <-. simpl. split.
    + split; [done|]. rewrite assoc_set_ne; [done|].
      by destruct (pos_label_not_dropped p) as (? & _).
    + apply Forall_assoc_set; [|done]. right. simpl.
      unfold sequence_at in Hcells.
      destruct (getitem raw "Sequence") as [sequences|]; [|done].
      simpl in Hcells. apply length_mapM in Hcells.
      exists sequences. split; [done|]. unfold values in Hcells.
      by rewrite length_fmap in Hcells.
  - split; [done|]. apply Forall_forall. intros c Hc. by left.
Qed.

Lemma raw_ranked_sequences (n : nat) (raw : DataFrame) :
  raw_ranked n raw →
  ∃ sequences, getitem raw "Sequence" = Some sequences ∧
               length sequences = length (df_index raw) ∧
               Forall (λ x, (n ≤ String.length x)%nat) (values sequences).
Proof.
  intros (Hidx & Hcols & Hrect & Hlen).
  assert (Hin : "Sequence" ∈ columns raw) by (rewrite Hcols; left).
  unfold getitem.
  destruct (assoc_Some_elem_of _ _ Hin) as [cells Hcells]. rewrite Hcells. simpl.
  apply assoc_elem_of in Hcells.
  rewrite Forall_forall in Hrect, Hlen.
  specialize (Hrect _ Hcells). specialize (Hlen _ Hcells eq_refl). simpl in *.
  eexists. split; [done|]. split.
  - rewrite length_zip_with. lia.
  - apply Forall_forall. intros x Hx. unfold values in Hx.
    rewrite snd_zip in Hx by lia. rewrite Forall_forall in Hlen. by apply Hlen.
Qed.

(** A ranked raw table loads, at the offsets below the length of its
    sequences, into a ranked frame with one column per offset. *)
Lemma load_ranked (n : nat) (raw : DataFrame) :
  raw_ranked n raw →
  ∃ df, load raw (seq 0 n) = Some df ∧ ranked_frame df ∧
        df_index df = df_index raw ∧
        columns df = pos_label <$> seq 0 n.
Proof.
  intros Hraw.
  destruct (raw_ranked_sequences n raw Hraw) as (sequences & Hseq & Hslen & Hlong).
  destruct Hraw as (Hidx & Hcols & Hrect & Hlen).
  assert (Hload : is_Some (load raw (seq 0 n))).
  { apply load_is_Some. split.
    - intros k Hk. by rewrite Hcols.
    - apply Forall_forall. intros p Hp%elem_of_seq.
      apply sequence_at_is_Some. exists sequences. split; [done|].
      eapply Forall_impl; [exact Hlong|]. intros x Hx. simpl in *. lia. }
  destruct Hload as [df Hload]. exists df. split; [done|].
  destruct (load_spec raw df _ Hload) as (Hi & _ & _ & _ & _).
  assert (Hc : columns df = pos_label <$> seq 0 n).
  { rewrite (load_columns raw df (seq 0 n)); [|apply NoDup_seq| |done].
    - assert (Hnil : filter (λ c, c ∉ dropped) (columns raw) = []).
      { apply elem_of_nil_inv. intros c [Hnot Hc]%list_elem_of_filter.
        apply Hnot. by rewrite <- Hcols. }
      by rewrite Hnil.
    - intros p _ Hp. rewrite Hcols in Hp.
      destruct (pos_label_not_dropped p) as (H1 & H2 & H3).
      unfold dropped in Hp. rewrite !elem_of_cons, elem_of_nil in Hp. tauto. }
  split; [|done]. split; [|split].
  - by rewrite Hi.
  - pose proof (load_cells_length raw df _ Hload) as Hcells.
    rewrite Forall_forall in Hcells. apply Forall_forall. intros c Hcin.
    destruct (Hcells c Hcin) as [Hold|(sequences' & Hseq' & Hl)].
    + exfalso.
      assert (Hc1 : c.1 ∈ columns df).
      { unfold columns. apply list_elem_of_fmap. by exists c. }
      rewrite Hc in Hc1. apply list_elem_of_fmap in Hc1 as (p & Hp & _).
      assert (Hd : c.1 ∈ dropped).
      { rewrite <- Hcols. unfold columns. apply list_elem_of_fmap. by exists c. }
      destruct (pos_label_not_dropped p) as (H1 & H2 & H3).
      rewrite Hp in Hd.
      unfold dropped in Hd. rewrite !elem_of_cons, elem_of_nil in Hd. tauto.
    + rewrite Hseq in Hseq'. injection Hseq' as <-. by rewrite Hl, Hslen, Hi.
  - rewrite Hc. apply Forall_forall. intros c (p & -> & _)%list_elem_of_fmap.
    rewrite col_value_pos_label. by eexists.
Qed.

Lemma raw_peptides_ranked : raw_ranked 23 raw_peptides.
Proof.
  split; [reflexivity|]. split; [reflexivity|]. split.
  - repeat constructor.
  - repeat constructor; intros; simpl; try lia; try discriminate.
Qed.

(** X17.  figure_1b on a ranked raw table (peptides labelled [1, 2, ...],
    the three columns of the supplementary table, sequences of at least
    23 residues): [load] returns a ranked frame with the 23 position
    columns in order, and [main] ends normally, whatever the generator
    does. *)
Theorem figure_1b_main_total {rng : Type}
    (permutation : rng → list Q → list Q * rng) (raw : DataFrame) (g : rng) :
  raw_ranked 23 raw →
  ∃ data_df st mask,
    load raw (seq 0 23) = Some data_df ∧
    ranked_frame data_df ∧
    df_index data_df = df_index raw ∧
    columns data_df = pos_label <$> seq 0 23 ∧
    figure_1b.main permutation raw g = Some (st, mask).
Proof.
  intros Hraw.
  destruct (load_ranked 23 raw Hraw) as (df & Hload & Hranked & Hidx & Hcols).
  destruct (analyse_total permutation df g Hranked) as [[st mask] Hrun].
  exists df, st, mask. do 4 (split; [done|]).
  unfold figure_1b.main. by rewrite Hload.
Qed.

Lemma figure_1b_main_total_witness :
  ∃ data_df st mask,
    load raw_peptides (seq 0 23) = Some data_df ∧
    ranked_frame data_df ∧
    df_index data_df = df_index raw_peptides ∧
    columns data_df = pos_label <$> seq 0 23 ∧
    figure_1b.main reversing raw_peptides 0%nat = Some (st, mask).
Proof. apply (figure_1b_main_total reversing raw_peptides 0%nat raw_peptides_ranked). Defined.


(** ** figure_1b: what the arrays hold *)

Lemma for_each_invariant_split {A S} (P : list A → S → Prop) (l : list A)
    (body : A → S → option S) (s s' : S) :
  (∀ pre x post t t',
     l = pre ++ x :: post → P pre t → body x t = Some t' → P (pre ++ [x]) t') →
  P [] s → py.for_each l body s = Some s' → P l s'.
Proof.
  revert P s. induction l as [|x l IH]; intros P s Hbody Hs Hrun.
  - rewrite for_each_nil in Hrun. by injection Hrun as <-.
  - rewrite for_each_cons in Hrun.
    destruct (body x s) as [t|] eqn:Hx; [|done]. simpl in Hrun.
    apply (IH (λ pre, P (x :: pre)) t); [|by apply (Hbody [] x l s)|done].
    intros pre y post u u' -> Hu Hy. by apply (Hbody (x :: pre) y post u).
Qed.

Lemma flat_index_lt (R C i j : nat) :
  (i < R)%nat → (j < C)%nat → (i * C + j < R * C)%nat.
Proof.
  intros Hi Hj.
  assert ((i + 1) * C ≤ R * C)%nat by (apply Nat.mul_le_mono_r; lia). lia.
Qed.

Lemma item_set_item_eq {A} (a : ndarray A) (R C i j : nat) (v : A) :
  shape a = (R, C) → length (flat a) = (R * C)%nat →
  (i < R)%nat → (j < C)%nat →
  item (set_item a i j v) i j = Some v.
Proof.
  intros Hs Hl Hi Hj. unfold item, set_item. simpl. rewrite Hs. simpl.
  apply list_lookup_insert_eq. rewrite Hl. by apply flat_index_lt.
Qed.

Lemma item_set_item_ne {A} (a : ndarray A) (R C i j i' j' : nat) (v : A) :
  shape a = (R, C) → (j < C)%nat → (j' < C)%nat →
  (i, j) ≠ (i', j') →
  item (set_item a i j v) i' j' = item a i' j'.
Proof.
  intros Hs Hj Hj' Hne. unfold item, set_item. simpl. rewrite Hs. simpl.
  apply list_lookup_insert_ne. intros Heq.
  apply flat_index_inj in Heq as [-> ->]; done.
Qed.

Lemma set_item_shaped {A} (a : ndarray A) (dims : nat * nat) (size i j : nat) (v : A) :
  shape a = dims ∧ length (flat a) = size →
  shape (set_item a i j v) = dims ∧ length (flat (set_item a i j v)) = size.
Proof. intros [Hs Hl]. unfold set_item. simpl. by rewrite length_insert. Qed.

Section arrays.

Context {rng : Type} (permutation : rng → list Q → list Q * rng).
Context (data_df : DataFrame).

Lemma cell_step (D : nat → nat → Prop) (a : nat) (aa : string) (p : nat)
    (pos : string) (st st' : state rng) :
  columns data_df !! p = Some pos →
  aa_from_df data_df !! a = Some aa →
  cells_done data_df D st →
  cell permutation data_df (sc_index data_df) (sc_pos data_df) a aa p pos st
    = Some st' →
  cells_done data_df (λ p' a', D p' a' ∨ (p' = p ∧ a' = a)) st'.
Proof.
  intros Hp Ha (Hshaped & Hfresh & Hdone) Hcell.
  pose proof (lookup_lt_Some _ _ _ Hp) as Hplt.
  pose proof (lookup_lt_Some _ _ _ Ha) as Halt.
  destruct Hshaped as (Hc & Hu & Hv).
  unfold cell in Hcell.
  destruct (remove_peptides_with_stopcodon _ pos _ _) as [df|] eqn:Hdf; [|done].
  simpl in Hcell.
  change (length (filter (λ row : Z * string, row.2 = aa) df))
    with (occurrences aa df) in Hcell.
  assert (Hother : ∀ p' a' pos' aa',
            columns data_df !! p' = Some pos' →
            aa_from_df data_df !! a' = Some aa' →
            (p, a) ≠ (p', a') →
            ∀ {A} (arr : ndarray A) (v : A),
              shape arr = (length (columns data_df), length (aa_from_df data_df)) →
              item (set_item arr p a v) p' a' = item arr p' a').
  { intros p' a' pos' aa' Hp' Ha' Hne A arr v Hs.
    eapply item_set_item_ne; [exact Hs|done| |done].
    by eapply lookup_lt_Some. }
  destruct (decide (occurrences aa df = 0%nat)) as [Hzero|Hnz].
  - injection Hcell as <-. split; [|split].
    + split; [|done]. simpl. by apply set_item_shaped.
    + intros p' a'. apply Hfresh.
    + intros p' a' HD pos' aa' col' Hp' Ha' Hcol'. simpl.
      destruct (decide ((p, a) = (p', a'))) as [[= <- <-]|Hne].
      * rewrite Hp in Hp'. injection Hp' as <-.
        rewrite Ha in Ha'. injection Ha' as <-.
        rewrite Hdf in Hcol'. injection Hcol' as <-.
        split.
        -- destruct Hc as [Hc1 Hc2]. by eapply item_set_item_eq.
        -- rewrite decide_True by done. by eapply Hfresh.
      * destruct HD as [HD|[-> ->]]; [|done].
        destruct (Hdone p' a' HD pos' aa' col' Hp' Ha' Hcol') as [H1 H2].
        split; [|done]. rewrite (Hother p' a' pos' aa') by (done || apply Hc). done.
  - destruct (enrichment_scores_null _ _ _ _ _ _) as [[[auc_null|] g']|];
      simpl in Hcell; [|done|done].
    injection Hcell as <-. split; [|split].
    + split; [|split]; simpl; by apply set_item_shaped.
    + intros p' a' pos' aa' col' Hp' Ha' Hcol' Hz. simpl.
      assert (Hne : (p, a) ≠ (p', a')).
      { intros [= <- <-].
        rewrite Hp in Hp'. injection Hp' as <-.
        rewrite Ha in Ha'. injection Ha' as <-.
        rewrite Hdf in Hcol'. injection Hcol' as <-. done. }
      rewrite (Hother p' a' pos' aa') by (done || apply Hu).
      by eapply Hfresh.
    + intros p' a' HD pos' aa' col' Hp' Ha' Hcol'. simpl.
      destruct (decide ((p, a) = (p', a'))) as [[= <- <-]|Hne].
      * rewrite Hp in Hp'. injection Hp' as <-.
        rewrite Ha in Ha'. injection Ha' as <-.
        rewrite Hdf in Hcol'. injection Hcol' as <-.
        rewrite decide_False by done.
        destruct Hc as [Hc1 Hc2]. destruct Hu as [Hu1 Hu2].
        split; by eapply item_set_item_eq.
      * destruct HD as [HD|[-> ->]]; [|done].
        destruct (Hdone p' a' HD pos' aa' col' Hp' Ha' Hcol') as [H1 H2].
        rewrite !(Hother p' a' pos' aa') by (done || apply Hc || apply Hu). done.
Qed.

Lemma cells_done_mono (D1 D2 : nat → nat → Prop) (st : state rng) :
  (∀ p a pos, columns data_df !! p = Some pos → D2 p a → D1 p a) →
  cells_done data_df D1 st → cells_done data_df D2 st.
Proof.
  intros Hsub (Hshaped & Hfresh & Hdone). split; [done|]. split; [done|].
  intros p a HD pos aa col Hp. eapply Hdone; [|done]. by eapply Hsub.
Qed.

Lemma positions_loop (D : nat → nat → Prop) (a : nat) (aa : string)
    (st st' : state rng) :
  aa_from_df data_df !! a = Some aa →
  cells_done data_df D st →
  py.for_each (py.enumerate (columns data_df))
    (λ p, cell permutation data_df (sc_index data_df) (sc_pos data_df)
            a aa p.1 p.2) st = Some st' →
  cells_done data_df (λ p' a', D p' a' ∨ a' = a) st'.
Proof.
  intros Ha Hst Hloop.
  apply (cells_done_mono
           (λ p' a', D p' a' ∨ (a' = a ∧ p' ∈ (py.enumerate (columns data_df)).*1))).
  { intros p' a' pos' Hp' [HD| ->]; [by left|right]. split; [done|].
    apply list_elem_of_fmap. exists (p', pos'). split; [done|].
    by apply elem_of_enumerate. }
  revert Hloop.
  apply (for_each_invariant_split
           (λ pre t, cells_done data_df
                       (λ p' a', D p' a' ∨ (a' = a ∧ p' ∈ pre.*1)) t)).
  - intros pre [p pos] post t t' Hl Ht Hcell. simpl in Hcell.
    assert (Hp : columns data_df !! p = Some pos).
    { apply elem_of_enumerate. rewrite Hl. apply elem_of_app. right. left. }
    eapply cells_done_mono; [|by eapply cell_step].
    intros p' a' pos' _ [HD|[-> Hin]]; [by left; left|].
    rewrite fmap_app, elem_of_app in Hin. destruct Hin as [Hin|Hin].
    + left. right. done.
    + right. simpl in Hin. apply list_elem_of_singleton in Hin. done.
  - eapply cells_done_mono; [|exact Hst].
    intros p' a' pos' _ [HD|[_ Hin]]; [done|]. simpl in Hin.
    by apply elem_of_nil in Hin.
Qed.

Lemma acids_loop (st st' : state rng) :
  cells_done data_df (λ _ _, False) st →
  py.for_each (py.enumerate (aa_from_df data_df))
    (λ a, py.for_each (py.enumerate (columns data_df))
            (λ p, cell permutation data_df (sc_index data_df) (sc_pos data_df)
                    a.1 a.2 p.1 p.2)) st = Some st' →
  cells_done data_df (λ _ _, True) st'.
Proof.
  intros Hst Hloop.
  apply (cells_done_mono
           (λ p' a', a' ∈ (py.enumerate (aa_from_df data_df)).*1
                     ∨ ¬ is_Some (aa_from_df data_df !! a'))).
  { intros p' a' pos' _ _.
    destruct (aa_from_df data_df !! a') as [aa'|] eqn:Ha'.
    - left. apply list_elem_of_fmap. exists (a', aa'). split; [done|].
      by apply elem_of_enumerate.
    - right. by intros [? ?]. }
  revert Hloop.
  apply (for_each_invariant_split
           (λ pre t, cells_done data_df
                       (λ p' a', a' ∈ pre.*1
                                 ∨ ¬ is_Some (aa_from_df data_df !! a')) t)).
  - intros pre [a aa] post t t' Hl Ht Hinner. simpl in Hinner.
    assert (Ha : aa_from_df data_df !! a = Some aa).
    { apply elem_of_enumerate. rewrite Hl. apply elem_of_app. right. left. }
    eapply cells_done_mono; [|by eapply positions_loop].
    intros p' a' pos' _ [Hin|Hout]; [|by left; right].
    rewrite fmap_app, elem_of_app in Hin. destruct Hin as [Hin|Hin].
    + left. left. done.
    + right. simpl in Hin. by apply list_elem_of_singleton in Hin.
  - destruct Hst as (Hshaped & Hfresh & _). split; [done|]. split; [done|].
    intros p a [Hin|Hout] pos aa col Hp Ha.
    + simpl in Hin. by apply elem_of_nil in Hin.
    + exfalso. apply Hout. by eexists.
Qed.

(** X19.  The arrays of figure_1b after a run that ends normally.  All
    arrays, the mask included, have one row per position and one column
    per acid.  For every position and every acid, the cell of [counts]
    holds the number of occurrences of the acid at the position among the
    peptides left by the stop-codon filter, and the cell of [auc] holds
    the score of the acid's enrichment curve on those peptides, or the
    initial [0] when the acid does not occur. *)
Theorem figure_1b_arrays (g : rng) (st : state rng) (mask : ndarray bool) :
  analyse permutation data_df g = Some (st, mask) →
  arrays_shaped data_df st ∧
  shape mask = (length (columns data_df), length (aa_from_df data_df)) ∧
  ∀ p_idx a_idx, cell_done data_df p_idx a_idx st.
Proof.
  unfold analyse. intros Hrun.
  destruct (py.for_each _ _ _) as [st1|] eqn:Hloop; [|done].
  simpl in Hrun. injection Hrun as <- <-.
  apply acids_loop in Hloop as (Hshaped & _ & Hdone).
  - split; [done|]. split; [|by intros p a; apply Hdone].
    destruct Hshaped as (_ & _ & [Hs _]).
    unfold fdr_correction. rewrite Hs.
    by destruct (benjamini_hochberg _ _).
  - split; [|split; [|done]].
    + unfold arrays_shaped, full. simpl. by rewrite !length_replicate.
    + intros p a pos aa col Hp Ha _ _. unfold item, full. simpl.
      apply lookup_replicate_2. apply flat_index_lt; by eapply lookup_lt_Some.
Qed.

End arrays.

Lemma figure_1b_arrays_witness :
  ∃ st mask,
    analyse reversing stop_frame 0%nat = Some (st, mask) ∧
    arrays_shaped stop_frame st ∧
    shape mask = (length (columns stop_frame), length (aa_from_df stop_frame)) ∧
    ∀ p_idx a_idx, cell_done stop_frame p_idx a_idx st.
Proof.
  destruct (analyse reversing stop_frame 0%nat) as [[st mask]|] eqn:Hrun;
    [|by vm_compute in Hrun].
  exists st, mask. split; [done|].
  by apply (figure_1b_arrays reversing stop_frame 0%nat).
Defined.

(** ** figure_1b: p-values and stored permutations *)

Lemma null_loop_auc_length {rng} (permutation : rng → list Q → list Q * rng)
    (trials : nat) (curve : list Q) (acc scores : list npfloat) (g g' : rng) :
  null_loop permutation trials "auc" curve (Scores acc) g = Some (Scores scores, g') →
  length scores = (length acc + trials)%nat.
Proof.
  revert curve acc g. induction trials as [|k IH]; intros curve acc g.
  - simpl. intros [= <- _]. lia.
  - cbn [null_loop]. destruct (permutation g curve) as [p g1].
    rewrite decide_True by done. simpl. intros Hrun.
    apply IH in Hrun. rewrite length_app in Hrun. simpl in Hrun. lia.
Qed.

Lemma twosided_pvalue_step (obs : npfloat) (null : list npfloat) :
  null ≠ [] → pvalue_step (length null) (twosided_pvalue obs null).
Proof.
  intros Hne. rewrite twosided_pvalue_count by done.
  exists (length (filter (λ x, fge (fabs x) (fabs obs) = true) null)).
  split; [apply length_filter|reflexivity].
Qed.

Section pvalues.

Context {rng : Type} (permutation : rng → list Q → list Q * rng).
Context (data_df : DataFrame).

Lemma cell_pvalues (a : nat) (aa : string) (p : nat) (pos : string)
    (st st' : state rng) :
  pvalues_stepped st →
  cell permutation data_df (sc_index data_df) (sc_pos data_df) a aa p pos st
    = Some st' →
  pvalues_stepped st'.
Proof.
  intros (Hp & Hl & Hc) Hcell. unfold cell in Hcell.
  destruct (remove_peptides_with_stopcodon _ pos _ _) as [df|]; [|done].
  simpl in Hcell.
  change (length (filter (λ row : Z * string, row.2 = aa) df))
    with (occurrences aa df) in Hcell.
  destruct (decide (occurrences aa df = 0%nat)) as [Hz|Hnz].
  { injection Hcell as <-. done. }
  destruct (enrichment_scores_null _ _ _ _ _ _) as [[[auc_null|] g']|] eqn:Hnull;
    simpl in Hcell; [|done|done].
  injection Hcell as <-.
  assert (Hlen : length auc_null = n_perm).
  { rewrite enrichment_scores_null_unfold in Hnull by lia.
    by apply null_loop_auc_length in Hnull. }
  split; [|split]; simpl.
  - apply Forall_insert; [done|]. rewrite <- Hlen.
    apply twosided_pvalue_step. intros ->. done.
  - apply Forall_app. split; [done|]. by constructor.
  - rewrite !length_app. simpl. lia.
Qed.

Lemma analyse_pvalue_steps (g : rng) (st : state rng) (mask : ndarray bool) :
  analyse permutation data_df g = Some (st, mask) →
  Forall (pvalue_step n_perm) (flat (pval_raw (out st))).
Proof.
  unfold analyse. intros Hrun.
  destruct (py.for_each _ _ _) as [st1|] eqn:Hloop; [|done].
  simpl in Hrun. injection Hrun as <- _.
  cut (pvalues_stepped st1); [by intros [? _]|].
  revert Hloop. apply (for_each_invariant pvalues_stepped).
  - intros [a aa] t t' _ Ht. apply (for_each_invariant pvalues_stepped); [|done].
    intros [p pos] u u' _ Hu Hcell. by eapply cell_pvalues.
  - split; [|done]. simpl. apply Forall_replicate.
    exists 0%nat. split; [lia|]. reflexivity.
Qed.

(** X20.  The p-values and the stored permutations of figure_1b after a
    run that ends normally: every raw p-value is one of
    [0, 1/10, ..., 1] ([n_perm = 10]); every line of the permutation file
    carries exactly [n_perm] null scores; and there is one stored curve
    per such line. *)
Theorem figure_1b_pvalues (g : rng) (st : state rng) (mask : ndarray bool) :
  analyse permutation data_df g = Some (st, mask) →
  Forall (pvalue_step n_perm) (flat (pval_raw (out st))) ∧
  Forall (λ line, length line.2 = n_perm) (perm_aucs st) ∧
  length (curves st) = length (perm_aucs st).
Proof.
  unfold analyse. intros Hrun.
  destruct (py.for_each _ _ _) as [st1|] eqn:Hloop; [|done].
  simpl in Hrun. injection Hrun as <- _.
  change (pvalues_stepped st1). revert Hloop.
  apply (for_each_invariant pvalues_stepped).
  - intros [a aa] t t' _ Ht. apply (for_each_invariant pvalues_stepped); [|done].
    intros [p pos] u u' _ Hu Hcell. by eapply cell_pvalues.
  - split; [|split]; [|constructor|done].
    simpl. apply Forall_replicate. exists 0%nat. split; [lia|]. reflexivity.
Qed.

End pvalues.

Lemma figure_1b_pvalues_witness :
  ∃ st mask,
    analyse reversing stop_frame 0%nat = Some (st, mask) ∧
    Forall (pvalue_step n_perm) (flat (pval_raw (out st))) ∧
    Forall (λ line, length line.2 = n_perm) (perm_aucs st) ∧
    length (curves st) = length (perm_aucs st).
Proof.
  destruct (analyse reversing stop_frame 0%nat) as [[st mask]|] eqn:Hrun;
    [|by vm_compute in Hrun].
  exists st, mask. split; [done|].
  by apply (figure_1b_pvalues reversing stop_frame 0%nat st mask).
Defined.

(** ** suppl_table_5: the score table *)





Lemma get_all_scores_complete (df : DataFrame) (mode : string) scores :
  get_all_scores df mode = Some scores →
  ∀ position a, position ∈ columns df → a ∈ aa_from_df df →
                is_Some (lookup2 scores position a).
Proof.
  unfold get_all_scores.
  apply (for_each_invariant_prefix
           (λ pre scores, ∀ position a, position ∈ pre → a ∈ aa_from_df df →
                                        is_Some (lookup2 scores position a))).
  - intros pre position t t' Ht Hinner. cbv zeta in Hinner.
    assert (Hinv : (∀ k, k ≠ position → t' !! k = t !! k) ∧
                   ∃ inner, t' !! position = Some inner ∧
                            ∀ a, a ∈ aa_from_df df → is_Some (inner !! a)).
    { revert Hinner.
      apply (for_each_invariant_prefix
               (λ pre_a u, (∀ k, k ≠ position → u !! k = t !! k) ∧
                  ∃ inner, u !! position = Some inner ∧
                           ∀ a, a ∈ pre_a → is_Some (inner !! a))).
      - intros pre_a a u u' (Hother & inner & Hin & Hall) Hbody.
        destruct (getitem df position) as [column|]; [|done]. simpl in Hbody.
        destruct (score column a mode) as [v|]; [|done]. simpl in Hbody.
        injection Hbody as <-. split.
        + intros k Hk. rewrite lookup_alter_ne by done. by apply Hother.
        + exists (<[a := v]> inner). rewrite lookup_alter_eq, Hin.
          split; [done|].
          intros a' [Ha'|Ha'%list_elem_of_singleton]%elem_of_app.
          * destruct (decide (a' = a)) as [->|Hne].
            -- rewrite lookup_insert_eq. eauto.
            -- rewrite lookup_insert_ne by done. by apply Hall.
          * subst. rewrite lookup_insert_eq. eauto.
      - split.
        + intros k Hk. by rewrite lookup_insert_ne.
        + exists ∅. rewrite lookup_insert_eq. split; [done|].
          by intros a ?%elem_of_nil. }
    destruct Hinv as (Hother & inner & Hin & Hall).
    intros position' a Hp' Ha. unfold lookup2.
    destruct (decide (position' = position)) as [->|Hne].
    + rewrite Hin. simpl. by apply Hall.
    + rewrite Hother by done.
      apply elem_of_app in Hp' as [Hp'|Hp'%list_elem_of_singleton]; [|done].
      by apply Ht.
  - by intros position a ?%elem_of_nil.
Qed.

(** X22.  The table that [get_all_scores] returns has one entry for
    every column of the frame and every acid of the frame, also for the
    acids that do not occur in the column, and no other entry; the entry
    is the score of the acid's enrichment curve on the column. *)
Theorem get_all_scores_table (df : DataFrame) (mode : string) scores :
  get_all_scores df mode = Some scores →
  ∀ position a v,
    lookup2 scores position a = Some v ↔
    position ∈ columns df ∧ a ∈ aa_from_df df ∧
    ∃ column, getitem df position = Some column ∧ score column a mode = Some v.
Proof.
  intros Hrun position a v.
  pose proof (get_all_scores_scores_of _ _ _ Hrun) as Hsound.
  pose proof (get_all_scores_complete _ _ _ Hrun) as Hcomplete.
  assert (Hfwd : ∀ v', lookup2 scores position a = Some v' →
            position ∈ columns df ∧ a ∈ aa_from_df df ∧
            ∃ column, getitem df position = Some column ∧
                      score column a mode = Some v').
  { intros v'. unfold lookup2.
    destruct (scores !! position) as [inner|] eqn:Hin; [|done]. simpl.
    intros Hv. destruct (Hsound _ _ Hin) as [Hp Hall].
    destruct (Hall _ _ Hv) as [Ha Hcol]. done. }
  split; [apply Hfwd|].
  intros (Hp & Ha & column & Hcol & Hv).
  destruct (Hcomplete position a Hp Ha) as [v' Hv'].
  destruct (Hfwd v' Hv') as (_ & _ & column' & Hcol' & Hv'').
  rewrite Hcol in Hcol'. injection Hcol' as <-. congruence.
Qed.

Lemma get_all_scores_table_witness :
  ∃ scores,
    get_all_scores pair_frame "auc" = Some scores ∧
    ∀ position a v,
      lookup2 scores position a = Some v ↔
      position ∈ columns pair_frame ∧ a ∈ aa_from_df pair_frame ∧
      ∃ column, getitem pair_frame position = Some column ∧
                score column a "auc" = Some v.
Proof.
  destruct (get_all_scores_auc pair_frame) as (scores & Hrun & _).
  exists scores. split; [done|].
  by apply (get_all_scores_table pair_frame "auc").
Defined.

(** ** suppl_table_5: which pairs are reported *)

Lemma condition_on_cooccur (df df' : DataFrame) (position1 acid1 v : string) :
  condition_on df position1 acid1 = Some df' →
  v ∈ aa_from_df df' →
  ∃ i column c,
    getitem df position1 = Some column ∧ values column !! i = Some acid1 ∧
    c ∈ df_columns df ∧ c.1 ≠ position1 ∧ c.2 !! i = Some v.
Proof.
  unfold condition_on. intros Hc.
  destruct (getitem df position1) as [column|] eqn:Hcol; [|done].
  simpl in Hc. unfold drop_column in Hc. destruct (decide _); [|done].
  injection Hc as <-. rewrite elem_of_aa_from_df, elem_of_flatten_values.
  simpl. intros (r & c & _ & Hc & Hv).
  apply list_elem_of_filter in Hc as [Hne Hc].
  apply list_elem_of_fmap in Hc as ([k cells] & -> & Hin). simpl in Hv, Hne.
  assert (Hsel : v ∈ select ((λ v, bool_decide (v = acid1)) <$> values column) cells)
    by (by eapply list_elem_of_lookup_2).
  apply elem_of_select in Hsel as (i & Hmask & Hi).
  exists i, column, (k, cells). split; [done|].
  rewrite list_lookup_fmap in Hmask.
  destruct (values column !! i) as [w|] eqn:Hw; [|done].
  simpl in Hmask. injection Hmask as Hb. apply bool_decide_eq_true in Hb. subst w.
  done.
Qed.

(** X23.  Every record of the scan pairs two acids that occur together
    in some peptide: the conditioning acid (field ['AA2']) stands at the
    conditioning position (field ['Position 2']) of a peptide that
    carries the re-tested acid (field ['AA1']) at another position.
    Conditioning pairs that no peptide carries leave no record. *)
Theorem scan_cooccurrence (df : DataFrame) (mode : string)
    (interactions : list interaction) :
  scan df mode = Some interactions →
  ∀ r, r ∈ interactions →
    ∃ i column c,
      getitem df (Position_2 r) = Some column ∧
      values column !! i = Some (AA2 r) ∧
      c ∈ df_columns df ∧ c.1 ≠ Position_2 r ∧ c.2 !! i = Some (AA1 r).
Proof.
  intros Hscan r Hr.
  destruct (scan_records df mode interactions Hscan) as (original & _ & Hall).
  rewrite Forall_forall in Hall.
  destruct (Hall r Hr) as (df_filtered & filtered_scores & Hcond & Hfilt & H2 & _).
  pose proof (get_all_scores_scores_of _ _ _ Hfilt) as Hsf.
  unfold lookup2 in H2.
  destruct (filtered_scores !! Position_1 r) as [inner2|] eqn:Hin2; [|done].
  simpl in H2. destruct (Hsf _ _ Hin2) as [_ Hv2].
  destruct (Hv2 _ _ H2) as (Ha & _).
  by eapply condition_on_cooccur.
Qed.

Lemma scan_cooccurrence_witness :
  ∃ r, r ∈ pair_interactions ∧
    ∃ i column c,
      getitem pair_frame (Position_2 r) = Some column ∧
      values column !! i = Some (AA2 r) ∧
      c ∈ df_columns pair_frame ∧ c.1 ≠ Position_2 r ∧ c.2 !! i = Some (AA1 r).
Proof.
  destruct pair_interactions as [|r l] eqn:Hl; [by vm_compute in Hl|].
  exists r. split; [left|].
  apply (scan_cooccurrence pair_frame "auc" (r :: l)); [|left].
  rewrite <- Hl. unfold pair_interactions.
  destruct (scan_auc_total pair_frame) as [rs ->]. done.
Defined.

(** ** figure_2b *)





(** ** The two versions of the conditional scan *)

(** Two loops over the same items whose bodies keep a relation between
    their states, and fail together, end in related states or fail
    together. *)
Lemma for_each_sim {A S S'} (R : S → S' → Prop) (l : list A)
    (body : A → S → option S) (body' : A → S' → option S') (s : S) (s' : S') :
  (∀ x t t', x ∈ l → R t t' → option_Forall2 R (body x t) (body' x t')) →
  R s s' →
  option_Forall2 R (py.for_each l body s) (py.for_each l body' s').
Proof.
  revert s s'. induction l as [|x l IH]; intros s s' Hbody Hs.
  - rewrite !for_each_nil. by constructor.
  - rewrite !for_each_cons.
    destruct (Hbody x s s' (list_elem_of_here x l) Hs) as [t t' Ht|]; simpl.
    + apply IH; [|done]. intros y u u' Hy. apply Hbody. by right.
    + constructor.
Qed.

(** X25.  The older script [paper_tables/suppl_table_5.py] reports what
    [paper/suppl_table_5.py] reports: on every frame and in every mode the
    two scans raise together, and otherwise return as many records, in
    the same order, with the same conditioning pair, re-tested pair,
    conditioned score and delta.  They differ in the original score they
    store: the older one stores that of the conditioning pair. *)
Theorem paper_tables_scan_agrees (df : DataFrame) (mode : string) :
  match get_all_scores df mode with
  | Some original_scores =>
      option_Forall2 (Forall2 (same_interaction original_scores))
        (scan df mode) (paper_tables.scan df mode)
  | None => scan df mode = None ∧ paper_tables.scan df mode = None
  end.
Proof.
  unfold scan, paper_tables.scan.
  destruct (get_all_scores df mode) as [original_scores|]; [|done]. simpl.
  apply for_each_sim; [|constructor].
  intros position1 t t' _ Ht.
  destruct (original_scores !! position1) as [inner|] eqn:Hinner; simpl;
    [|constructor].
  apply for_each_sim; [|done]. clear t t' Ht.
  intros acid1 t t' [score1 Hscore1]%elem_of_sorted_keys Ht.
  assert (H1 : lookup2 original_scores position1 acid1 = Some score1).
  { unfold lookup2. by rewrite Hinner. }
  rewrite H1. simpl.
  destruct (condition_on df position1 acid1) as [df_filtered|]; simpl;
    [|constructor].
  destruct (get_all_scores df_filtered mode) as [filtered_scores|]; simpl;
    [|constructor].
  apply for_each_sim; [|done]. clear t t' Ht.
  intros position2 t t' _ Ht.
  destruct (filtered_scores !! position2) as [inner2|]; simpl; [|constructor].
  apply for_each_sim; [|done]. clear t t' Ht.
  intros acid2 t t' _ Ht. unfold emit, paper_tables.emit.
  destruct (lookup2 filtered_scores position2 acid2) as [score2|]; simpl;
    [|constructor].
  destruct (lookup2 original_scores position2 acid2) as [original|] eqn:H2; simpl;
    [|constructor].
  constructor. apply Forall2_app; [done|]. constructor; [|constructor].
  unfold same_interaction. simpl. done.
Qed.

(** ** figure_1b: which cells can be marked *)

(** X26.  With ten permutations and the level [0.1], figure_1b can mark
    a cell only if its raw p-value is [0] or [1/10]: a marked p-value is
    at most the level, and the p-values come in steps of [1/10]. *)
Theorem figure_1b_marked_cells {rng : Type}
    (permutation : rng → list Q → list Q * rng)
    (data_df : DataFrame) (g : rng) (st : state rng) (mask : ndarray bool)
    (p_idx a_idx : nat) :
  analyse permutation data_df g = Some (st, mask) →
  item mask p_idx a_idx = Some true →
  ∃ v, item (pval_raw (out st)) p_idx a_idx = Some v ∧
       ((v == 0)%Q ∨ (v == 1 # 10)%Q).
Proof.
  intros Hrun Hmask.
  pose proof (analyse_pvalue_steps permutation data_df g st mask Hrun) as Hsteps.
  assert (Hm : mask = fdr_correction (pval_raw (out st)) (1 # 10)).
  { unfold analyse in Hrun. destruct (py.for_each _ _ _); [|done].
    simpl in Hrun. by injection Hrun as <- <-. }
  subst mask.
  destruct (item (pval_raw (out st)) p_idx a_idx) as [v|] eqn:Hv.
  2:{ rewrite fdr_correction_item, benjamini_hochberg_is_sig in Hmask.
      unfold item in Hv. by rewrite Hv in Hmask. }
  exists v. split; [done|].
  assert (Hle : (v <= 1 # 10)%Q).
  { by apply (fdr_correction_marked_le (pval_raw (out st)) (1 # 10) p_idx a_idx). }
  rewrite Forall_forall in Hsteps.
  destruct (Hsteps v) as (k & Hk & Hvk).
  { unfold item in Hv. by eapply list_elem_of_lookup_2. }
  unfold n_perm in Hvk. rewrite Hvk in Hle.
  assert (Hk1 : (k ≤ 1)%nat).
  { destruct (decide (k ≤ 1)%nat) as [|Hgt]; [done|]. exfalso.
    assert (H2 : (inject_Z 2 <= inject_Z (Z.of_nat k))%Q)
      by (rewrite <- Zle_Qle; lia).
    change (inject_Z (Z.of_nat 10)) with 10%Q in Hle.
    change (inject_Z 2) with 2%Q in H2.
    unfold Qdiv in Hle.
    assert (H3 : (inject_Z (Z.of_nat k) * / 10 == inject_Z (Z.of_nat k) * (1 # 10))%Q)
      by reflexivity.
    rewrite H3 in Hle. lra. }
  destruct k as [|[|k]]; [left|right|lia]; rewrite Hvk; reflexivity.
Qed.

Lemma figure_1b_marked_cells_witness :
  ∃ (st : state nat) v,
    item (pval_raw (out st)) 1 4 = Some v ∧ ((v == 0)%Q ∨ (v == 1 # 10)%Q).
Proof.
  destruct (analyse reversing stop_frame 0%nat) as [[st mask]|] eqn:Hrun;
    [|by vm_compute in Hrun].
  exists st.
  apply (figure_1b_marked_cells reversing stop_frame 0%nat st mask 1 4 Hrun).
  revert Hrun. vm_compute. by intros [= <- <-].
Defined.

(** ** Column labels, written and read *)

(** X27.  The labels that [load] writes are read back correctly by the
    stop-codon filter: the number that [int(column.strip('Pos'))] finds
    in the label of the offset [p] is [p + 1], also for the label
    ['Pos010'] of the offset [9].  Labels of different offsets differ, and
    no label is the name of a dropped column. *)
Theorem pos_label_read_back (p q : nat) :
  col_value (pos_label p) = Some (Z.of_nat p + 1) ∧
  (pos_label p = pos_label q ↔ p = q) ∧
  pos_label p ∉ dropped.
Proof.
  split; [|split].
  - rewrite col_value_pos_label. f_equal. lia.
  - split; [apply pos_label_inj|by intros ->].
  - destruct (pos_label_not_dropped p) as (H1 & H2 & H3).
    unfold dropped. rewrite !not_elem_of_cons. repeat split; try done.
    apply not_elem_of_nil.
Qed.

(** ** The thresholds as a whole *)

Lemma fmap_lookup_seq {A} (d : A) (l : list A) :
  (λ i, default d (l !! i)) <$> seq 0 (length l) = l.
Proof.
  apply list_eq. intros i. rewrite list_lookup_fmap.
  destruct (l !! i) as [x|] eqn:Hi.
  - rewrite lookup_seq_lt by (by eapply lookup_lt_Some). simpl. by rewrite Hi.
  - rewrite lookup_seq_ge; [done|]. by apply lookup_ge_None.
Qed.

Lemma benjamini_hochberg_length (p : list Q) (alpha : Q) :
  length (benjamini_hochberg p alpha).1 = length p ∧
  length (benjamini_hochberg p alpha).2 = length p.
Proof.
  unfold benjamini_hochberg. cbn [fst snd].
  rewrite length_zip_with, !length_fmap, assign_length, length_replicate.
  split; lia.
Qed.

(** X28.  The thresholds of [benjamini_hochberg], taken together: there
    is one flag and one threshold per test, and the thresholds are the
    values [alpha * k / N] for [k = 1, ..., N], each used once. *)
Theorem benjamini_hochberg_thresholds (p : list Q) (alpha : Q) :
  length (benjamini_hochberg p alpha).1 = length p ∧
  length (benjamini_hochberg p alpha).2 = length p ∧
  (benjamini_hochberg p alpha).2
  ≡ₚ (λ k : nat, (inject_Z (Z.of_nat k) / inject_Z (Z.of_nat (length p)) * alpha)%Q)
       <$> seq 1 (length p).
Proof.
  destruct (benjamini_hochberg_length p alpha) as [H1 H2].
  split; [done|]. split; [done|].
  set (q := (benjamini_hochberg p alpha).2) in *.
  rewrite <- (fmap_lookup_seq 0%Q q), H2, <- (sort_idx_Permutation p).
  rewrite <- fmap_S_seq, <- list_fmap_compose.
  assert (Heq : (λ i, default 0%Q (q !! i)) <$> sort_idx p
              = ((λ k : nat, (inject_Z (Z.of_nat k)
                              / inject_Z (Z.of_nat (length p)) * alpha)%Q) ∘ S)
                  <$> seq 0 (length p)); [|by rewrite Heq].
  apply list_eq. intros k. rewrite !list_lookup_fmap.
  destruct (sort_idx p !! k) as [i|] eqn:Hk.
  - assert (Hlt : (k < length p)%nat).
    { apply lookup_lt_Some in Hk. by rewrite sort_idx_length in Hk. }
    rewrite lookup_seq_lt by done. simpl. unfold q.
    by rewrite (benjamini_hochberg_qvals p alpha k i Hk).
  - apply lookup_ge_None in Hk. rewrite sort_idx_length in Hk.
    by rewrite lookup_seq_ge.
Qed.

(** ** A label at the top of the ranking *)







